(** * go-pong: the game logic of a Pong clone, embedded in Rocq

    The development follows the Go sources file by file: the game objects
    and the ball ([GameObject], [BallObject]), the particle pool
    ([ParticleGenerator]), the glyph lookup of the text renderer
    ([TextRenderer]), the state machine of the game ([Game]), the loop of
    [main] with its key callback, and the shader table of the resource
    manager ([ResourceManager]).

    Conventions of the embedding.
    - [float32] and [float64] are IEEE 754 binary32 and binary64 values,
      taken from the Standard Library's executable specification
      [SpecFloat]; every operation rounds on its own (no fused
      multiply-add), comparisons with a NaN are false.
    - [int] is a 64-bit two's complement integer: a [Z] with the wrap-around
      written out where the code does arithmetic on it; [rune] is [int32].
    - Package-level variables ([shakeTime], [lastUsedParticle], the state
      of [math/rand]) are threaded through a small state monad; a run-time
      panic (index out of range) is the monad's failure.
    - Pointers to game objects and particles are never shared in the
      sources (each [new...] allocates a fresh object), so a pointer field
      is embedded as the record it points to, and a slice of pointers as a
      list updated in place.
    - Calls into OpenGL only upload what the game state already holds: a
      draw function returns the list of the draws it issues ([GL.call]),
      and what the driver answers to [Shader.Compile] (compile status,
      program names) is a parameter ([Driver.t]).  The matrix arithmetic
      of the sprite renderer and the buffers of the post-processor are
      left out. *)

From stdpp Require Import base option list gmap strings.
From Stdlib Require Import ZArith Lia Bool.
From Stdlib Require Import Floats.SpecFloat.
From Stdlib Require DecimalString.

Local Open Scope Z_scope.

(** ** Machine integers *)

Module Int.
(** Go's [int] on a 64-bit platform. *)
Definition min_int : Z := - 2 ^ 63.
Definition max_int : Z := 2 ^ 63 - 1.

Definition wrap (z : Z) : Z := (z + 2 ^ 63) mod 2 ^ 64 - 2 ^ 63.
Definition wrap32 (z : Z) : Z := (z + 2 ^ 31) mod 2 ^ 32 - 2 ^ 31.

Definition in_range (z : Z) : Prop := min_int <= z <= max_int.

Definition add (a b : Z) : Z := wrap (a + b).
Definition sub (a b : Z) : Z := wrap (a - b).
(** [a / b] truncates toward zero; the game only divides by 2. *)
Definition div (a b : Z) : Z := wrap (Z.quot a b).
(** [a >> n] on a signed integer is an arithmetic shift. *)
Definition shr (a n : Z) : Z := Z.shiftr a n.

(** [s[i]]: a slice or array access panics outside [0, len s). *)
Definition index {A} (s : list A) (i : Z) : option A :=
  if i <? 0 then None else s !! Z.to_nat i.

(** The in-place update behind [*s[i] = v] for an index already read. *)
Definition store {A} (s : list A) (i : Z) (v : A) : list A :=
  <[Z.to_nat i := v]> s.
End Int.

(** ** Floating point numbers *)

Module F32.
Definition t := spec_float.
Definition prec : Z := 24.
Definition emax : Z := 128.

Definition add : t -> t -> t := SFadd prec emax.
Definition sub : t -> t -> t := SFsub prec emax.
Definition mul : t -> t -> t := SFmul prec emax.
Definition div : t -> t -> t := SFdiv prec emax.
Definition neg : t -> t := SFopp.
Definition leb : t -> t -> bool := SFleb.
Definition ltb : t -> t -> bool := SFltb.
Definition eqb : t -> t -> bool := SFeqb.
(** [a >= b] and [a > b] are the mirrored comparisons. *)
Definition geb (a b : t) : bool := SFleb b a.
Definition gtb (a b : t) : bool := SFltb b a.

(** [float32(i)] for an integer [i], rounded to nearest even. *)
Definition of_int (z : Z) : t := binary_normalize prec emax z 0 false.
(** [float32(x)] for a [float64] [x]. *)
Definition of_f64 (x : spec_float) : t :=
  match x with
  | S754_finite s m e => binary_round prec emax s m e
  | _ => x
  end.

Definition zero : t := S754_zero false.
Definition one : t := of_int 1.
(** The constants the sources write as decimal literals. *)
Definition c0_1 : t := div (of_int 1) (of_int 10).
Definition c2_5 : t := div (of_int 5) (of_int 2).
Definition c0_5 : t := div (of_int 1) (of_int 2).

Definition is_nan (x : t) : bool :=
  match x with S754_nan => true | _ => false end.
Definition is_finite (x : t) : bool :=
  match x with S754_zero _ | S754_finite _ _ _ => true | _ => false end.
Definition valid : t -> bool := valid_binary prec emax.
End F32.

Module F64.
Definition t := spec_float.
Definition prec : Z := 53.
Definition emax : Z := 1024.

Definition add : t -> t -> t := SFadd prec emax.
Definition sub : t -> t -> t := SFsub prec emax.
Definition mul : t -> t -> t := SFmul prec emax.
Definition div : t -> t -> t := SFdiv prec emax.
Definition leb : t -> t -> bool := SFleb.
Definition ltb : t -> t -> bool := SFltb.
Definition eqb : t -> t -> bool := SFeqb.
Definition gtb (a b : t) : bool := SFltb b a.

Definition of_int (z : Z) : t := binary_normalize prec emax z 0 false.
Definition zero : t := S754_zero false.
Definition one : t := of_int 1.
Definition c0_1 : t := div (of_int 1) (of_int 10).
Definition valid : t -> bool := valid_binary prec emax.
End F64.

(** ** Vectors of [mgl32] *)

Module Vec2.
Record t := mk { X : F32.t; Y : F32.t }.

Definition Add (v1 v2 : t) : t := mk (F32.add (X v1) (X v2)) (F32.add (Y v1) (Y v2)).
Definition Sub (v1 v2 : t) : t := mk (F32.sub (X v1) (X v2)) (F32.sub (Y v1) (Y v2)).
Definition Mul (v1 : t) (c : F32.t) : t := mk (F32.mul (X v1) c) (F32.mul (Y v1) c).
(** [v[0] = x] and [v[1] = y]. *)
Definition setX (v : t) (x : F32.t) : t := mk x (Y v).
Definition setY (v : t) (y : F32.t) : t := mk (X v) y.
Definition of_ints (x y : Z) : t := mk (F32.of_int x) (F32.of_int y).
End Vec2.

Module Vec3.
Record t := mk { X : F32.t; Y : F32.t; Z : F32.t }.
End Vec3.

Module Vec4.
Record t := mk { X : F32.t; Y : F32.t; Z : F32.t; W : F32.t }.
(** [v[3] = w]. *)
Definition setW (v : t) (w : F32.t) : t := mk (X v) (Y v) (Z v) w.
End Vec4.

(** ** Draw calls *)

Module GL.
(** What the draw functions hand to OpenGL, one constructor per call site:
    the two brackets and the composite pass of the post-processor, the
    blend mode, a sprite with the arguments of [SpriteRenderer.Draw], a
    particle quad with its two uniforms, a glyph quad with its texture
    and vertices. *)
Inductive call :=
| BeginRender
| EndRender
| PostRender (time : F32.t) (confuse chaos shake : Z)
| Blend (additive : bool)
| Sprite (position size : Vec2.t) (rotation : F32.t) (color : Vec3.t)
| ParticleQuad (offset : Vec2.t) (color : Vec4.t)
| Glyph (texture : Z) (vertices : list F32.t).
End GL.

Module SpriteRenderer.
(** [Draw] builds the model matrix from its arguments with [mgl] and
    draws the unit quad with it. *)
Definition Draw (position size : Vec2.t) (rotation : F32.t) (color : Vec3.t) : list GL.call :=
  [GL.Sprite position size rotation color].
End SpriteRenderer.

Module Fmt.
(** [[]rune(s)] for a string of ASCII characters. *)
Definition runes (s : string) : list Z :=
  map (fun c => Z.of_nat (Ascii.nat_of_ascii c)) (String.list_ascii_of_string s).

(** The verb [%v] of [fmt.Sprintf] on an [int]: decimal digits, a minus
    sign before a negative number. *)
Definition int (z : Z) : string := DecimalString.NilZero.string_of_int (Z.to_int z).
End Fmt.

(** ** Game objects *)

Module GameObject.
Record t := mk {
  position : Vec2.t;
  size : Vec2.t;
  velocity : Vec2.t;
  color : Vec3.t;
  rotation : F32.t
}.

Definition newGameObject (position size : Vec2.t) : t :=
  mk position size (Vec2.of_ints 0 0)
     (Vec3.mk F32.one F32.one F32.one) F32.zero.

Definition Reset (o : t) (pos : Vec2.t) : t :=
  mk pos (size o) (velocity o) (color o) (rotation o).

Definition with_velocity (o : t) (v : Vec2.t) : t :=
  mk (position o) (size o) v (color o) (rotation o).

(** The overlap test on one axis, as [CheckCollision] writes it twice. *)
Definition collisionX (o other : t) : bool :=
  F32.geb (F32.add (Vec2.X (position o)) (Vec2.X (size o))) (Vec2.X (position other))
  && F32.geb (F32.add (Vec2.X (position other)) (Vec2.X (size other))) (Vec2.X (position o)).

Definition collisionY (o other : t) : bool :=
  F32.geb (F32.add (Vec2.Y (position o)) (Vec2.Y (size o))) (Vec2.Y (position other))
  && F32.geb (F32.add (Vec2.Y (position other)) (Vec2.Y (size other))) (Vec2.Y (position o)).

Definition CheckCollision (o other : t) : bool :=
  collisionX o other && collisionY o other.

Definition Draw (o : t) : list GL.call :=
  SpriteRenderer.Draw (position o) (size o) (rotation o) (color o).
End GameObject.

Module BallObject.
(** [BallObject] embeds a [GameObject]. *)
Record t := mk {
  obj : GameObject.t;
  isStuck : bool;
  radius : F32.t
}.

Definition position (b : t) := GameObject.position (obj b).
Definition size (b : t) := GameObject.size (obj b).
Definition velocity (b : t) := GameObject.velocity (obj b).

Definition newBallObject (position : Vec2.t) (radius : F32.t) (velocity : Vec2.t) : t :=
  mk (GameObject.mk position
        (Vec2.mk (F32.mul radius (F32.of_int 2)) (F32.mul radius (F32.of_int 2)))
        velocity (Vec3.mk F32.one F32.one F32.one) F32.zero)
     false radius.

Definition with_obj (b : t) (o : GameObject.t) : t := mk o (isStuck b) (radius b).

(** The position after [b.position.Add(b.velocity.Mul(float32(deltaTime)))]. *)
Definition integrated (b : t) (deltaTime : F64.t) : Vec2.t :=
  Vec2.Add (position b) (Vec2.Mul (velocity b) (F32.of_f64 deltaTime)).

(** [Move] returns the new position too; the callers drop it. *)
Definition Move (b : t) (deltaTime : F64.t) (windowWidth windowHeight : Z) : t :=
  if negb (isStuck b) then
    let p := integrated b deltaTime in
    let o := obj b in
    if F32.leb (Vec2.Y p) F32.zero then
      with_obj b (GameObject.mk (Vec2.setY p F32.zero) (GameObject.size o)
                    (Vec2.setY (GameObject.velocity o) (F32.neg (Vec2.Y (GameObject.velocity o))))
                    (GameObject.color o) (GameObject.rotation o))
    else if F32.geb (F32.add (Vec2.Y p) (Vec2.Y (GameObject.size o))) (F32.of_int windowHeight) then
      with_obj b (GameObject.mk
                    (Vec2.setY p (F32.sub (F32.of_int windowHeight) (Vec2.Y (GameObject.size o))))
                    (GameObject.size o)
                    (Vec2.setY (GameObject.velocity o) (F32.neg (Vec2.Y (GameObject.velocity o))))
                    (GameObject.color o) (GameObject.rotation o))
    else
      with_obj b (GameObject.mk p (GameObject.size o) (GameObject.velocity o)
                    (GameObject.color o) (GameObject.rotation o))
  else b.

Definition Reset (b : t) (position velocity : Vec2.t) : t :=
  with_obj b (GameObject.mk position (GameObject.size (obj b)) velocity
                (GameObject.color (obj b)) (GameObject.rotation (obj b))).
End BallObject.

(** ** Package-level state and panics *)

Module Rand.
(** The global source of [math/rand], seen from the game: a sequence of
    draws still to come and the number of draws already made. *)
Record t := mk { draws : nat -> Z; drawn : nat }.

(** [rand.Int31n(n)]: a number in [0, n); it panics when [n <= 0]. *)
Definition Int31n (n : Z) (r : t) : option (Z * t) :=
  if n <=? 0 then None
  else Some (draws r (drawn r) mod n, mk (draws r) (S (drawn r))).
End Rand.

Record Globals := mkGlobals {
  shakeTime : F64.t;
  lastUsedParticle : Z;
  rand : Rand.t
}.

Definition set_shakeTime (G : Globals) (x : F64.t) : Globals :=
  mkGlobals x (lastUsedParticle G) (rand G).
Definition set_lastUsedParticle (G : Globals) (i : Z) : Globals :=
  mkGlobals (shakeTime G) i (rand G).
Definition set_rand (G : Globals) (r : Rand.t) : Globals :=
  mkGlobals (shakeTime G) (lastUsedParticle G) r.

(** The variables as the program starts. *)
Definition initial_globals (r : Rand.t) : Globals :=
  mkGlobals F64.zero 0 r.

(** A computation reads and writes the package-level variables and may
    panic ([None]). *)
Definition St (A : Type) : Type := Globals -> option (A * Globals).

Definition ret {A} (a : A) : St A := fun G => Some (a, G).
Definition bind {A B} (c : St A) (k : A -> St B) : St B :=
  fun G => match c G with
           | Some (a, G') => k a G'
           | None => None
           end.
Definition panic {A} : St A := fun _ => None.
Definition get_globals : St Globals := fun G => Some (G, G).
Definition put_globals (G' : Globals) : St unit := fun _ => Some (tt, G').
Definition lift_option {A} (o : option A) : St A :=
  match o with Some a => ret a | None => panic end.

Declare Scope st_scope.
Delimit Scope st_scope with st.
Notation "x <- c ;; k" := (bind c (fun x => k))
  (at level 100, c at next level, right associativity) : st_scope.
Notation "c ;;; k" := (bind c (fun _ => k))
  (at level 100, right associativity) : st_scope.
Local Open Scope st_scope.

Definition Int31n (n : Z) : St Z :=
  G <- get_globals ;;
  match Rand.Int31n n (rand G) with
  | Some (v, r) => put_globals (set_rand G r) ;;; ret v
  | None => panic
  end.

(** [for i := lo; i < hi; i++ { s = body(i, s) }]: the counter never
    overflows, it stays below [hi]. *)
Fixpoint for_n {S} (n : nat) (i : Z) (body : Z -> S -> St S) (s : S) : St S :=
  match n with
  | O => ret s
  | Datatypes.S k => s' <- body i s ;; for_n k (i + 1) body s'
  end.

Definition for_range {S} (lo hi : Z) (body : Z -> S -> St S) (s : S) : St S :=
  for_n (Z.to_nat (hi - lo)) lo body s.

(** ** Particles *)

Module Particle.
Record t := mk {
  position : Vec2.t;
  velocity : Vec2.t;
  color : Vec4.t;
  life : F64.t
}.

Definition newParticle (position velocity : Vec2.t) (color : Vec4.t) (life : F64.t) : t :=
  mk position velocity color life.

(** [p.life <= 0.0]: the slot is free. *)
Definition dead (p : t) : bool := F64.leb (life p) F64.zero.
(** [p.life > 0.0]. *)
Definition alive (p : t) : bool := F64.gtb (life p) F64.zero.
End Particle.

Module ParticleGenerator.
(** The shader and the vertex array are GPU handles, left out. *)
Record t := mk {
  particles : list Particle.t;
  amount : Z
}.

Definition defaultParticle : Particle.t :=
  Particle.newParticle (Vec2.of_ints 0 0) (Vec2.of_ints 0 0)
    (Vec4.mk F32.one F32.one F32.one F32.one) F64.zero.

(** [Init] appends [pg.amount] default particles. *)
Definition Init (pg : t) : t :=
  mk (particles pg ++ replicate (Z.to_nat (amount pg)) defaultParticle) (amount pg).

Definition newParticleGenerator (amount : Z) : t := Init (mk [] amount).

(** One search loop of [firstUnusedParticle]: [n] iterations from index
    [i]; [Some (Some j)] is the early return, [Some None] the loop's
    normal end, [None] a panic. *)
Fixpoint scan (ps : list Particle.t) (i : Z) (n : nat) : option (option Z) :=
  match n with
  | O => Some None
  | S k =>
      match Int.index ps i with
      | None => None
      | Some p => if Particle.dead p then Some (Some i) else scan ps (i + 1) k
      end
  end.

Definition firstUnusedParticle (pg : t) : St Z :=
  G <- get_globals ;;
  found <- lift_option
    (scan (particles pg) (lastUsedParticle G) (Z.to_nat (amount pg - lastUsedParticle G))) ;;
  match found with
  | Some i => put_globals (set_lastUsedParticle G i) ;;; ret i
  | None =>
      found' <- lift_option (scan (particles pg) 0 (Z.to_nat (lastUsedParticle G - 0))) ;;
      match found' with
      | Some i => put_globals (set_lastUsedParticle G i) ;;; ret i
      | None => put_globals (set_lastUsedParticle G 0) ;;; ret 0
      end
  end.

(** [float32(rand.Int31n(50)) / 100.0 / 10.0] *)
Definition jitter (k : Z) : F32.t :=
  F32.div (F32.div (F32.of_int k) (F32.of_int 100)) (F32.of_int 10).
(** [float32(rand.Int31n(50)) / 100.0] *)
Definition gray (k : Z) : F32.t := F32.div (F32.of_int k) (F32.of_int 100).

Definition respawnParticle (particle : Particle.t) (object : GameObject.t)
    (offset : Vec2.t) : St Particle.t :=
  k1 <- Int31n 50 ;;
  let random := jitter k1 in
  k2 <- Int31n 50 ;;
  let randomColor := gray k2 in
  ret (Particle.mk
         (Vec2.Add (Vec2.Add (GameObject.position object) (Vec2.mk random random)) offset)
         (Vec2.Mul (GameObject.velocity object) F32.c0_1)
         (Vec4.mk randomColor randomColor randomColor F32.one)
         F64.one).

(** The first loop of [Update]: one respawn. *)
Definition spawn_one (object : GameObject.t) (offset : Vec2.t) (_ : Z) (pg : t) : St t :=
  unusedParticle <- firstUnusedParticle pg ;;
  p <- lift_option (Int.index (particles pg) unusedParticle) ;;
  p' <- respawnParticle p object offset ;;
  ret (mk (Int.store (particles pg) unusedParticle p') (amount pg)).

Definition spawn (object : GameObject.t) (newParticles : Z) (offset : Vec2.t)
    (pg : t) : St t :=
  for_range 0 newParticles (spawn_one object offset) pg.

(** The body of the second loop of [Update] on one particle. *)
Definition age_particle (deltaTime : F64.t) (p : Particle.t) : Particle.t :=
  let life' := F64.sub (Particle.life p) deltaTime in
  if F64.gtb life' F64.zero then
    Particle.mk
      (Vec2.Sub (Particle.position p)
         (Vec2.Mul (Particle.velocity p) (F32.of_f64 deltaTime)))
      (Particle.velocity p)
      (Vec4.setW (Particle.color p)
         (F32.sub (Vec4.W (Particle.color p)) (F32.mul (F32.of_f64 deltaTime) F32.c2_5)))
      life'
  else
    Particle.mk (Particle.position p) (Particle.velocity p) (Particle.color p) life'.

Definition age_one (deltaTime : F64.t) (i : Z) (pg : t) : St t :=
  p <- lift_option (Int.index (particles pg) i) ;;
  ret (mk (Int.store (particles pg) i (age_particle deltaTime p)) (amount pg)).

Definition age (deltaTime : F64.t) (pg : t) : St t :=
  for_range 0 (amount pg) (age_one deltaTime) pg.

Definition Update (pg : t) (deltaTime : F64.t) (object : GameObject.t)
    (newParticles : Z) (offset : Vec2.t) : St t :=
  pg' <- spawn object newParticles offset pg ;;
  age deltaTime pg'.

(** [Draw]: additive blending, one quad per particle with [life > 0.0] in
    the order of the pool, then the default blending again. *)
Definition Draw (pg : t) : list GL.call :=
  [GL.Blend true]
  ++ flat_map (fun particle =>
                 if Particle.alive particle
                 then [GL.ParticleQuad (Particle.position particle) (Particle.color particle)]
                 else [])
       (particles pg)
  ++ [GL.Blend false].
End ParticleGenerator.

(** ** Text rendering *)

Module Character.
Record t := mk {
  textureID : Z;
  width : Z;
  height : Z;
  advance : Z;
  bearingH : Z;
  bearingV : Z
}.
End Character.

Module TextRenderer.
Record t := mk { chars : list Character.t }.

(** [make([]*Character, 0, 96)]: an empty list with room for 96. *)
Definition newTextRenderer : t := mk [].

Definition lowChar : Z := 32.
Definition highChar : Z := 127.

(** [LoadFont] rasterises one glyph per code point with FreeType and
    uploads it as a texture; that loop body is [makeGlyph], taken as a
    parameter.  The loop itself, [for ch := rune(32); ch <= rune(127);
    ch++], appends the glyphs in order. *)
Definition LoadFont (makeGlyph : Z -> Character.t) (t0 : t) : t :=
  mk (chars t0 ++ map makeGlyph (seqZ lowChar (highChar + 1 - lowChar))).

(** What one iteration hands to OpenGL: the glyph's texture and the six
    vertices [X, Y, U, V] of its quad. *)
Record draw := mkDraw { texture : Z; vertices : list F32.t }.

(** The glyph index of a rune: [char-lowChar] on [int32]. *)
Definition glyph_index (char : Z) : Z := Int.wrap32 (char - lowChar).

Definition quad (charRune : Character.t) (x y scale : F32.t) : draw :=
  let xPos := F32.add x (F32.mul (F32.of_int (Character.bearingH charRune)) scale) in
  let yPos := F32.sub y
    (F32.mul (F32.of_int (Int.sub (Character.height charRune) (Character.bearingV charRune)))
       scale) in
  let w := F32.mul (F32.of_int (Character.width charRune)) scale in
  let h := F32.mul (F32.of_int (Character.height charRune)) scale in
  mkDraw (Character.textureID charRune)
    [ xPos; yPos; F32.zero; F32.zero;
      F32.add xPos w; yPos; F32.one; F32.zero;
      xPos; F32.add yPos h; F32.zero; F32.one;
      xPos; F32.add yPos h; F32.zero; F32.one;
      F32.add xPos w; yPos; F32.one; F32.zero;
      F32.add xPos w; F32.add yPos h; F32.one; F32.one ].

(** The loop of [RenderText] over the runes of the formatted string:
    the draws issued and the final pen position, or a panic. *)
Fixpoint render (cs : list Character.t) (x y scale : F32.t) (indices : list Z)
    : option (list draw * F32.t) :=
  match indices with
  | [] => Some ([], x)
  | char :: rest =>
      match Int.index cs (glyph_index char) with
      | None => None
      | Some charRune =>
          let x' := F32.add x
            (F32.mul (F32.of_int (Int.shr (Character.advance charRune) 6)) scale) in
          match render cs x' y scale rest with
          | None => None
          | Some (ds, xend) => Some (quad charRune x y scale :: ds, xend)
          end
      end
  end.

(** [RenderText]; [indices] are the runes of [fmt.Sprintf(text, argv...)],
    the colour only goes to the shader. *)
Definition RenderText (t0 : t) (x y scale : F32.t) (color : Vec3.t) (indices : list Z)
    : option (list draw * F32.t) :=
  render (chars t0) x y scale indices.
End TextRenderer.

(** ** The game *)

Inductive GameState := gameActive | gameMenu | gameWin.

Module PostProcessor.
(** Only the effect switches; the rest are GPU handles. *)
Record t := mk { shake : bool; chaos : bool; confuse : bool }.
Definition newPostProcessor : t := mk false false false.
Definition set_shake (pp : t) (b : bool) : t := mk b (chaos pp) (confuse pp).

Definition boolToInt32 (b : bool) : Z := if b then 1 else 0.

Definition BeginRender (pp : t) : list GL.call := [GL.BeginRender].
Definition EndRender (pp : t) : list GL.call := [GL.EndRender].
Definition Render (pp : t) (time : F32.t) : list GL.call :=
  [GL.PostRender time (boolToInt32 (confuse pp)) (boolToInt32 (chaos pp))
     (boolToInt32 (shake pp))].
End PostProcessor.

Module Key.
(** Key codes of GLFW. *)
Definition KeyS : Z := 83.
Definition KeyW : Z := 87.
Definition KeyEnter : Z := 257.
Definition KeyDown : Z := 264.
Definition KeyUp : Z := 265.
End Key.

Definition maxScore : Z := 10.
Definition paddleSize : Vec2.t := Vec2.of_ints 20 100.
Definition paddleVelocity : F32.t := F32.of_int 500.
Definition initialBallVelocity : Vec2.t := Vec2.of_ints 450 300.

Module Game.
Record t := mk {
  state : GameState;
  keys : gmap Z bool;
  processedKeys : list bool;
  width : Z;
  height : Z;
  particles : ParticleGenerator.t;
  effects : PostProcessor.t;
  text : TextRenderer.t;
  paddle1 : GameObject.t;
  paddle2 : GameObject.t;
  ball : BallObject.t;
  paddle1Score : Z;
  paddle2Score : Z
}.

Definition set_state (g : t) (s : GameState) : t :=
  mk s (keys g) (processedKeys g) (width g) (height g) (particles g) (effects g) (text g)
     (paddle1 g) (paddle2 g) (ball g) (paddle1Score g) (paddle2Score g).
Definition set_processedKeys (g : t) (pk : list bool) : t :=
  mk (state g) (keys g) pk (width g) (height g) (particles g) (effects g) (text g)
     (paddle1 g) (paddle2 g) (ball g) (paddle1Score g) (paddle2Score g).
Definition set_particles (g : t) (pg : ParticleGenerator.t) : t :=
  mk (state g) (keys g) (processedKeys g) (width g) (height g) pg (effects g) (text g)
     (paddle1 g) (paddle2 g) (ball g) (paddle1Score g) (paddle2Score g).
Definition set_effects (g : t) (e : PostProcessor.t) : t :=
  mk (state g) (keys g) (processedKeys g) (width g) (height g) (particles g) e (text g)
     (paddle1 g) (paddle2 g) (ball g) (paddle1Score g) (paddle2Score g).
Definition set_paddle1 (g : t) (p : GameObject.t) : t :=
  mk (state g) (keys g) (processedKeys g) (width g) (height g) (particles g) (effects g) (text g)
     p (paddle2 g) (ball g) (paddle1Score g) (paddle2Score g).
Definition set_paddle2 (g : t) (p : GameObject.t) : t :=
  mk (state g) (keys g) (processedKeys g) (width g) (height g) (particles g) (effects g) (text g)
     (paddle1 g) p (ball g) (paddle1Score g) (paddle2Score g).
Definition set_ball (g : t) (b : BallObject.t) : t :=
  mk (state g) (keys g) (processedKeys g) (width g) (height g) (particles g) (effects g) (text g)
     (paddle1 g) (paddle2 g) b (paddle1Score g) (paddle2Score g).
Definition set_paddle1Score (g : t) (n : Z) : t :=
  mk (state g) (keys g) (processedKeys g) (width g) (height g) (particles g) (effects g) (text g)
     (paddle1 g) (paddle2 g) (ball g) n (paddle2Score g).
Definition set_paddle2Score (g : t) (n : Z) : t :=
  mk (state g) (keys g) (processedKeys g) (width g) (height g) (particles g) (effects g) (text g)
     (paddle1 g) (paddle2 g) (ball g) (paddle1Score g) n.

(** [g.keys[k]]: a key never seen reads as [false]. *)
Definition pressed (g : t) (k : Z) : bool := default false (keys g !! k).

(** The positions [Init] and [Reset] both compute from the window size. *)
Definition paddle1Position (height : Z) : Vec2.t :=
  Vec2.mk (F32.of_int 10)
    (F32.sub (F32.of_int (Int.div height 2)) (F32.div (Vec2.Y paddleSize) (F32.of_int 2))).
Definition paddle2Position (width height : Z) : Vec2.t :=
  Vec2.mk (F32.sub (F32.sub (F32.of_int width) (Vec2.X paddleSize)) (F32.of_int 10))
    (F32.sub (F32.of_int (Int.div height 2)) (F32.div (Vec2.Y paddleSize) (F32.of_int 2))).
(** [mgl.Vec2{float32(g.width / 2), float32(g.height / 2)}] *)
Definition center (width height : Z) : Vec2.t :=
  Vec2.mk (F32.of_int (Int.div width 2)) (F32.of_int (Int.div height 2)).

(** [newGame(width, height)] followed by [Init], as [main] runs them;
    [makeGlyph] is the glyph loader of [LoadFont]. *)
Definition newGame (makeGlyph : Z -> Character.t) (width height : Z) : t :=
  mk gameMenu ∅ (replicate 1024 false) width height
     (ParticleGenerator.newParticleGenerator 50)
     PostProcessor.newPostProcessor
     (TextRenderer.LoadFont makeGlyph TextRenderer.newTextRenderer)
     (GameObject.newGameObject (paddle1Position height) paddleSize)
     (GameObject.newGameObject (paddle2Position width height) paddleSize)
     (BallObject.newBallObject
        (Vec2.mk (F32.sub (F32.of_int (Int.div width 2)) (F32.of_int 10))
                 (F32.sub (F32.of_int (Int.div height 2)) (F32.of_int 10)))
        (F32.of_int 10) initialBallVelocity)
     0 0.

Definition Reset (g : t) : t :=
  let g := set_paddle1Score g 0 in
  let g := set_paddle2Score g 0 in
  let g := set_paddle1 g (GameObject.Reset (paddle1 g) (paddle1Position (height g))) in
  let g := set_paddle2 g
             (GameObject.Reset (paddle2 g) (paddle2Position (width g) (height g))) in
  set_ball g (BallObject.Reset (ball g) (center (width g) (height g)) initialBallVelocity).

(** [p.position[1] -= deltaSpace] guarded by [p.position.Y() >= 0]. *)
Definition paddle_up (p : GameObject.t) (deltaSpace : F32.t) : GameObject.t :=
  if F32.geb (Vec2.Y (GameObject.position p)) F32.zero then
    GameObject.Reset p
      (Vec2.setY (GameObject.position p) (F32.sub (Vec2.Y (GameObject.position p)) deltaSpace))
  else p.

(** [p.position[1] += deltaSpace] guarded by
    [p.position.Y() <= float32(g.height)-p.size.Y()]. *)
Definition paddle_down (g : t) (p : GameObject.t) (deltaSpace : F32.t) : GameObject.t :=
  if F32.leb (Vec2.Y (GameObject.position p))
       (F32.sub (F32.of_int (height g)) (Vec2.Y (GameObject.size p))) then
    GameObject.Reset p
      (Vec2.setY (GameObject.position p) (F32.add (Vec2.Y (GameObject.position p)) deltaSpace))
  else p.

Definition ProcessInput (g : t) (deltaTime : F64.t) : t :=
  match state g with
  | gameMenu =>
      if pressed g Key.KeyEnter then
        let g := Reset g in
        let g := set_state g gameActive in
        set_processedKeys g (<[Z.to_nat Key.KeyEnter := true]> (processedKeys g))
      else g
  | gameWin =>
      if pressed g Key.KeyEnter then
        let g := set_state g gameMenu in
        set_processedKeys g (<[Z.to_nat Key.KeyEnter := true]> (processedKeys g))
      else g
  | gameActive =>
      let deltaSpace := F32.mul paddleVelocity (F32.of_f64 deltaTime) in
      let g := if pressed g Key.KeyW
               then set_paddle1 g (paddle_up (paddle1 g) deltaSpace) else g in
      let g := if pressed g Key.KeyS
               then set_paddle1 g (paddle_down g (paddle1 g) deltaSpace) else g in
      let g := if pressed g Key.KeyUp
               then set_paddle2 g (paddle_up (paddle2 g) deltaSpace) else g in
      let g := if pressed g Key.KeyDown
               then set_paddle2 g (paddle_down g (paddle2 g) deltaSpace) else g in
      g
  end.

Definition DoCollisions (g : t) : St t :=
  if GameObject.CheckCollision (BallObject.obj (ball g)) (paddle1 g)
     || GameObject.CheckCollision (BallObject.obj (ball g)) (paddle2 g) then
    G <- get_globals ;;
    put_globals (set_shakeTime G F64.c0_1) ;;;
    let g := set_effects g (PostProcessor.set_shake (effects g) true) in
    let o := BallObject.obj (ball g) in
    ret (set_ball g
           (BallObject.with_obj (ball g)
              (GameObject.with_velocity o
                 (Vec2.setX (GameObject.velocity o)
                    (F32.neg (Vec2.X (GameObject.velocity o)))))))
  else ret g.

(** The shake timer of [Update]. *)
Definition reduce_shake (g : t) (deltaTime : F64.t) : St t :=
  G <- get_globals ;;
  if F64.gtb (shakeTime G) F64.zero then
    let st := F64.sub (shakeTime G) deltaTime in
    put_globals (set_shakeTime G st) ;;;
    if F64.leb st F64.zero
    then ret (set_effects g (PostProcessor.set_shake (effects g) false))
    else ret g
  else ret g.

(** The loss condition of [Update]. *)
Definition check_loss (g : t) : t :=
  if F32.leb (Vec2.X (BallObject.position (ball g))) F32.zero then
    let g := set_paddle2Score g (Int.add (paddle2Score g) 1) in
    set_ball g (BallObject.Reset (ball g) (center (width g) (height g))
                  (Vec2.Mul initialBallVelocity (F32.of_int (-1))))
  else if F32.geb (F32.add (Vec2.X (BallObject.position (ball g)))
                           (Vec2.X (BallObject.size (ball g))))
                  (F32.of_int (width g)) then
    let g := set_paddle1Score g (Int.add (paddle1Score g) 1) in
    set_ball g (BallObject.Reset (ball g) (center (width g) (height g)) initialBallVelocity)
  else g.

Definition check_win (g : t) : t :=
  if (maxScore <=? paddle1Score g) || (maxScore <=? paddle2Score g)
  then set_state g gameWin else g.

Definition Update (g : t) (deltaTime : F64.t) : St t :=
  match state g with
  | gameActive =>
      let g := set_ball g (BallObject.Move (ball g) deltaTime (width g) (height g)) in
      g <- DoCollisions g ;;
      pg <- ParticleGenerator.Update (particles g) deltaTime (BallObject.obj (ball g)) 1
              (Vec2.mk (BallObject.radius (ball g)) (BallObject.radius (ball g))) ;;
      let g := set_particles g pg in
      g <- reduce_shake g deltaTime ;;
      let g := check_loss g in
      ret (check_win g)
  | _ => ret g
  end.

(** One call of [g.text.RenderText] from [Draw]: the glyph quads, or a
    panic. *)
Definition text_calls (g : t) (x y scale : F32.t) (s : string) : option (list GL.call) :=
  match TextRenderer.RenderText (text g) x y scale (Vec3.mk F32.one F32.one F32.one)
          (Fmt.runes s) with
  | Some (ds, _) =>
      Some (map (fun d => GL.Glyph (TextRenderer.texture d) (TextRenderer.vertices d)) ds)
  | None => None
  end.

(** [fmt.Sprintf("%v : %v", g.paddle1Score, g.paddle2Score)] *)
Definition scoreText (g : t) : string :=
  (Fmt.int (paddle1Score g) ++ " : " ++ Fmt.int (paddle2Score g))%string.

Definition winText (g : t) : string :=
  if paddle2Score g <? paddle1Score g then "Player 1 Won!" else "Player 2 Won!".

(** [Draw]; [time] is the [float32(glfw.GetTime())] of the composite
    pass.  The first test of [Draw] holds in each of the three states. *)
Definition Draw (g : t) (time : F32.t) : option (list GL.call) :=
  let scene :=
    PostProcessor.BeginRender (effects g)
    ++ GameObject.Draw (paddle1 g)
    ++ GameObject.Draw (paddle2 g)
    ++ ParticleGenerator.Draw (particles g)
    ++ GameObject.Draw (BallObject.obj (ball g))
    ++ PostProcessor.EndRender (effects g)
    ++ PostProcessor.Render (effects g) time in
  match text_calls g (F32.sub (F32.of_int (Int.div (width g) 2)) (F32.of_int 50))
          (F32.of_int 50) F32.one (scoreText g) with
  | None => None
  | Some score =>
      match (match state g with
             | gameMenu | gameWin =>
                 text_calls g (F32.of_int 290)
                   (F32.sub (F32.of_int (Int.div (height g) 2)) (F32.of_int 20))
                   F32.c0_5 "Press ENTER to start"
             | gameActive => Some []
             end) with
      | None => None
      | Some prompt =>
          match (match state g with
                 | gameWin =>
                     text_calls g (F32.of_int 330)
                       (F32.sub (F32.of_int (Int.div (height g) 2)) (F32.of_int 50))
                       F32.c0_5 (winText g)
                 | _ => Some []
                 end) with
          | None => None
          | Some won => Some (scene ++ score ++ prompt ++ won)
          end
      end
  end.
End Game.

(** ** The main loop *)

Module Main.
(** The actions of a key event in GLFW. *)
Inductive Action := Release | Press | Repeat.

Definition KeyEscape : Z := 256.

(** The game and the window's close flag; [lastFrame] is the package
    variable of the same name. *)
Record world := mkWorld {
  game : Game.t;
  shouldClose : bool;
  lastFrame : F64.t
}.

Definition KeyCallback (w : world) (key : Z) (action : Action) : world :=
  let close :=
    match action with
    | Press => if key =? KeyEscape then true else shouldClose w
    | _ => shouldClose w
    end in
  let g := game w in
  let keys' :=
    if (0 <=? key) && (key <? 1024) then
      match action with
      | Press => <[key := true]> (Game.keys g)
      | Release => <[key := false]> (Game.keys g)
      | Repeat => Game.keys g
      end
    else Game.keys g in
  mkWorld
    (Game.mk (Game.state g) keys' (Game.processedKeys g) (Game.width g) (Game.height g)
       (Game.particles g) (Game.effects g) (Game.text g) (Game.paddle1 g) (Game.paddle2 g)
       (Game.ball g) (Game.paddle1Score g) (Game.paddle2Score g))
    close (lastFrame w).

(** What one turn of the loop reads from outside: the clock at its start,
    the key events [glfw.PollEvents] delivers, the clock at the composite
    pass.  A close request of the window system is not an input: it ends
    the loop before a turn, as the end of the list of inputs does. *)
Record input := mkInput {
  currentFrame : F64.t;
  events : list (Z * Action);
  drawTime : F64.t
}.

(** The body of the loop of [main]; it returns the world and what was
    drawn. *)
Definition frame (w : world) (i : input) : St (world * list GL.call) :=
  let deltaTime := F64.sub (currentFrame i) (lastFrame w) in
  let w := mkWorld (game w) (shouldClose w) (currentFrame i) in
  let w := fold_left (fun w e => KeyCallback w (fst e) (snd e)) (events i) w in
  let g := Game.ProcessInput (game w) deltaTime in
  g <- Game.Update g deltaTime ;;
  calls <- lift_option (Game.Draw g (F32.of_f64 (drawTime i))) ;;
  ret (mkWorld g (shouldClose w) (lastFrame w), calls).

(** [for !window.ShouldClose() { ... }] over the inputs of successive
    turns. *)
Fixpoint loop (w : world) (inputs : list input) : St world :=
  match inputs with
  | [] => ret w
  | i :: rest =>
      if shouldClose w then ret w
      else r <- frame w i ;; loop (fst r) rest
  end.

(** [main] up to the loop: [newGame] and [Init] on the 800 by 600 window. *)
Definition windowWidth : Z := 800.
Definition windowHeight : Z := 600.
Definition start (makeGlyph : Z -> Character.t) : world :=
  mkWorld (Game.newGame makeGlyph windowWidth windowHeight) false F64.zero.
End Main.

(** ** Shaders and the resource manager *)

(** How a function ends: it returns, [log.Fatal] ends the process, or it
    panics. *)
Inductive outcome (A : Type) :=
| Done (a : A)
| Fatal
| Panicked.
Arguments Done {A} a.
Arguments Fatal {A}.
Arguments Panicked {A}.

Module Driver.
(** OpenGL as [Shader.Compile] sees it: which sources compile, by the
    kind of shader; the names [gl.CreateProgram] hands out, call after
    call; the number of programs created so far. *)
Inductive kind := VERTEX_SHADER | FRAGMENT_SHADER.
Record t := mk {
  compiles : kind -> string -> bool;
  programs : nat -> Z;
  created : nat
}.
End Driver.

Module Shader.
Record t := mk { ID : Z }.

(** [Shader{}] *)
Definition zero : t := mk 0.

(** [Compile]: a source that does not compile is a panic, the vertex
    shader first; the program ID is what [gl.CreateProgram] returns. *)
Definition Compile (s : t) (vertexSource fragmentSource : string) (d : Driver.t)
    : outcome (t * Driver.t) :=
  if Driver.compiles d Driver.VERTEX_SHADER vertexSource then
    if Driver.compiles d Driver.FRAGMENT_SHADER fragmentSource then
      Done (mk (Driver.programs d (Driver.created d)),
            Driver.mk (Driver.compiles d) (Driver.programs d) (S (Driver.created d)))
    else Panicked
  else Panicked.
End Shader.

Module ResourceManager.
Record t := mk { shaders : gmap string Shader.t }.

Definition newResourceManager : t := mk ∅.

(** The files: the lines [bufio.Scanner] yields for a path, or [None]
    when the file does not open or the scan ends in an error. *)
Definition files := string -> option (list string).

(** The characters ["\n"] and ["\x00"]. *)
Definition newline : Ascii.ascii := Ascii.ascii_of_nat 10.
Definition nul : Ascii.ascii := Ascii.ascii_of_nat 0.

(** [readShaderFile]: a newline before every line, a NUL at the end. *)
Definition readShaderFile (fs : files) (filePath : string) : outcome string :=
  match fs filePath with
  | Some lines =>
      Done (fold_left (fun src line => src +:+ String newline line) lines EmptyString
            +:+ String nul EmptyString)
  | None => Fatal
  end.

Definition loadShaderFromFile (fs : files) (vertexShaderFile fragmentShaderFile : string)
    (d : Driver.t) : outcome (Shader.t * Driver.t) :=
  match readShaderFile fs vertexShaderFile with
  | Done vertexSource =>
      match readShaderFile fs fragmentShaderFile with
      | Done fragmentSource => Shader.Compile Shader.zero vertexSource fragmentSource d
      | Fatal => Fatal
      | Panicked => Panicked
      end
  | Fatal => Fatal
  | Panicked => Panicked
  end.

(** [LoadShader] stores the shader under the name and returns it. *)
Definition LoadShader (fs : files) (r : t) (vertexShaderFile fragmentShaderFile name : string)
    (d : Driver.t) : outcome (Shader.t * t * Driver.t) :=
  match loadShaderFromFile fs vertexShaderFile fragmentShaderFile d with
  | Done (shader, d') => Done (shader, mk (<[name := shader]> (shaders r)), d')
  | Fatal => Fatal
  | Panicked => Panicked
  end.

(** [GetShader] returns a pointer to a copy of the map's entry; a name
    that is not in the map reads as the zero [Shader]. *)
Definition GetShader (r : t) (name : string) : Shader.t :=
  default Shader.zero (shaders r !! name).

(** [Clear]: the programs handed to [gl.DeleteProgram], one per entry of
    the map.  Go visits the entries in no fixed order; the order of this
    list stands for one of them. *)
Definition Clear (r : t) : list Z :=
  map (fun entry => Shader.ID (snd entry)) (map_to_list (shaders r)).

(** One [LoadShader] after the other, as [Init] calls it four times;
    the files and the name of each call are a triple. *)
Fixpoint LoadShaders (fs : files) (loads : list (string * string * string)) (r : t)
    (d : Driver.t) : outcome (t * Driver.t) :=
  match loads with
  | [] => Done (r, d)
  | (vertexShaderFile, fragmentShaderFile, name) :: rest =>
      match LoadShader fs r vertexShaderFile fragmentShaderFile name d with
      | Done (_, r', d') => LoadShaders fs rest r' d'
      | Fatal => Fatal
      | Panicked => Panicked
      end
  end.

(** The four calls of [Game.Init]. *)
Definition initLoads : list (string * string * string) :=
  [ ("./shaders/sprite.vs", "./shaders/sprite.frag", "sprite");
    ("./shaders/particle.vs", "./shaders/particle.frag", "particle");
    ("./shaders/post_processing.vs", "./shaders/post_processing.frag", "postprocessing");
    ("./shaders/text.vs", "./shaders/text.frag", "text") ]%string.
End ResourceManager.

(** * Vocabulary of the statements *)

(** ** Rounding *)

(** What [binary_round_aux] builds from the sign, the final mantissa and
    the final exponent. *)
Definition rounded (prec emax : Z) (s : bool) (m2 e2 : Z) : spec_float :=
  match m2 with
  | Z0 => S754_zero s
  | Zpos p => if e2 <=? emax - prec then S754_finite s p e2 else S754_infinity s
  | Zneg _ => S754_nan
  end.

(** ** Boxes *)




(** ** The particle pool *)

(** Slot [j] of a pool holds a particle with [life <= 0.0], or one the
    search loops step over. *)
Definition free_at (ps : list Particle.t) (j : Z) : Prop :=
  exists p, Int.index ps j = Some p /\ Particle.dead p = true.
Definition taken_at (ps : list Particle.t) (j : Z) : Prop :=
  exists p, Int.index ps j = Some p /\ Particle.dead p = false.

(** The pool as [newParticleGenerator] builds it ([amount] particles), with
    the cursor inside it. *)
Definition pool_ok (pg : ParticleGenerator.t) (G : Globals) : Prop :=
  ParticleGenerator.amount pg = Z.of_nat (length (ParticleGenerator.particles pg))
  /\ 0 <= lastUsedParticle G < ParticleGenerator.amount pg.

(** The values [lastUsedParticle] takes: 0 as the program starts, then
    whatever a call of [firstUnusedParticle] on a pool of [M] particles
    leaves behind.  Nothing else in the program assigns the variable. *)
Inductive cursor_reachable (M : Z) : Z -> Prop :=
| cursor_initial : cursor_reachable M 0
| cursor_after_call (pg : ParticleGenerator.t) (G G' : Globals) (i : Z) :
    cursor_reachable M (lastUsedParticle G) ->
    ParticleGenerator.amount pg = M ->
    ParticleGenerator.amount pg = Z.of_nat (length (ParticleGenerator.particles pg)) ->
    ParticleGenerator.firstUnusedParticle pg G = Some (i, G') ->
    cursor_reachable M (lastUsedParticle G').

(** The two draws of [respawnParticle] and the source it leaves. *)
Definition draw1 (G : Globals) : Z := Rand.draws (rand G) (Rand.drawn (rand G)) mod 50.
Definition draw2 (G : Globals) : Z := Rand.draws (rand G) (S (Rand.drawn (rand G))) mod 50.
Definition after_draws (G : Globals) : Globals :=
  set_rand G (Rand.mk (Rand.draws (rand G)) (S (S (Rand.drawn (rand G))))).

(** The particle [respawnParticle] leaves in a slot. *)
Definition respawned (object : GameObject.t) (offset : Vec2.t) (k1 k2 : Z) : Particle.t :=
  Particle.mk
    (Vec2.Add (Vec2.Add (GameObject.position object)
                 (Vec2.mk (ParticleGenerator.jitter k1) (ParticleGenerator.jitter k1))) offset)
    (Vec2.Mul (GameObject.velocity object) F32.c0_1)
    (Vec4.mk (ParticleGenerator.gray k2) (ParticleGenerator.gray k2)
             (ParticleGenerator.gray k2) F32.one)
    F64.one.

(** The number of slots of a pool that satisfy a test. *)
Fixpoint count_slots (f : Particle.t -> bool) (ps : list Particle.t) : nat :=
  match ps with
  | [] => O
  | p :: ps' => ((if f p then 1 else 0) + count_slots f ps')%nat
  end.



(** The tests behind the bounds of [respawnParticle], for one draw. *)
Definition jitter_small (k : Z) : bool :=
  F32.leb F32.zero (ParticleGenerator.jitter k)
  && F32.leb (ParticleGenerator.jitter k) F32.c0_5.
Definition gray_dark (k : Z) : bool :=
  F32.leb F32.zero (ParticleGenerator.gray k)
  && F32.ltb (ParticleGenerator.gray k) F32.c0_5.

(** A colour component nearer to white (1.0) than to black (0.0). *)
Definition bright (c : F32.t) : bool := F32.gtb c F32.c0_5.

(** "Near-white", read as: red, green and blue are all bright. *)
Definition near_white (c : Vec4.t) : bool :=
  bright (Vec4.X c) && bright (Vec4.Y c) && bright (Vec4.Z c).

(** ** Glyphs *)

(** A [rune] is an [int32]. *)
Definition is_rune (r : Z) : Prop := - 2 ^ 31 <= r < 2 ^ 31.

(** The code points [LoadFont] loads. *)
Definition loaded (r : Z) : Prop := TextRenderer.lowChar <= r <= TextRenderer.highChar.

(** ** Frames of the game *)

(** [Update] called once per frame time of a list, as the main loop does
    frame after frame. *)
Fixpoint Updates (g : Game.t) (deltaTimes : list F64.t) : St Game.t :=
  match deltaTimes with
  | [] => ret g
  | deltaTime :: rest => (g' <- Game.Update g deltaTime ;; Updates g' rest)%st
  end.

(** The ball as the loss condition of [Update] sees it: moved, and turned
    round by [DoCollisions] when it touches a paddle. *)
Definition collided (g : Game.t) : bool :=
  GameObject.CheckCollision (BallObject.obj (Game.ball g)) (Game.paddle1 g)
  || GameObject.CheckCollision (BallObject.obj (Game.ball g)) (Game.paddle2 g).

Definition turned (b : BallObject.t) : BallObject.t :=
  BallObject.with_obj b
    (GameObject.with_velocity (BallObject.obj b)
       (Vec2.setX (BallObject.velocity b) (F32.neg (Vec2.X (BallObject.velocity b))))).

Definition ball_in_play (g : Game.t) (deltaTime : F64.t) : BallObject.t :=
  let g1 := Game.set_ball g
              (BallObject.Move (Game.ball g) deltaTime (Game.width g) (Game.height g)) in
  if collided g1 then turned (Game.ball g1) else Game.ball g1.

(** ** Concrete inputs *)

(** A source of draws that counts up by seven, and one whose draws are
    all zero. *)
Definition sevens : Rand.t := Rand.mk (fun n => Z.of_nat n * 7) 0.
Definition zeros : Rand.t := Rand.mk (fun _ => 0) 0.

(** A frame of 16 ms and one of half a second. *)
Definition frame16 : F64.t := F64.div (F64.of_int 16) (F64.of_int 1000).
Definition half_second : F64.t := F64.div (F64.of_int 1) (F64.of_int 2).

(** A ball-like emitter at (400, 300) moving with the initial velocity. *)
Definition emitter : GameObject.t :=
  BallObject.obj (BallObject.newBallObject (Vec2.of_ints 400 300) (F32.of_int 10)
                    initialBallVelocity).

Definition busy_pool : ParticleGenerator.t :=
  ParticleGenerator.mk
    (replicate 3 (Particle.mk (Vec2.of_ints 1 2) (Vec2.of_ints 0 0)
                    (Vec4.mk F32.one F32.one F32.one F32.one) half_second))
    3.

(** A glyph loader for the examples: every glyph 10 by 12 pixels, advance
    11 pixels, its texture numbered by its code point. *)
Definition boxGlyph (ch : Z) : Character.t := Character.mk ch 10 12 (64 * 11) 1 2.

(** The runes of "Go!" and of a string with a tab in it. *)
Definition runes_Go : list Z := [71; 111; 33].
Definition runes_tab : list Z := [71; 9; 111].

(** A ball of radius 10 near the top wall, moving up and to the right;
    and one of radius 400, taller than the window, that starts above the
    top wall and moves down. *)
Definition rising_ball : BallObject.t :=
  BallObject.newBallObject (Vec2.of_ints 400 2) (F32.of_int 10) (Vec2.of_ints 450 (-300)).

(** The game as [main] starts it, with the box glyphs. *)
Definition game0 : Game.t := Game.newGame boxGlyph 800 600.

(** The left paddle of that game, its ball on the first frame, a ball
    that touches the paddle, and an object whose size is negative. *)
Definition left_paddle : GameObject.t := Game.paddle1 game0.
Definition touching_ball : GameObject.t :=
  BallObject.obj (BallObject.newBallObject (Vec2.of_ints 25 240) (F32.of_int 10)
                    initialBallVelocity).

(** A game in state [Menu] at 10:7 with the Enter key down, the ball and
    a paddle away from their places; and the same game in state [Win]. *)
Definition game_menu_enter : Game.t :=
  Game.mk gameMenu {[ Key.KeyEnter := true ]} (Game.processedKeys game0) 800 600
    (Game.particles game0) (Game.effects game0) (Game.text game0)
    (GameObject.Reset (Game.paddle1 game0) (Vec2.of_ints 10 17))
    (Game.paddle2 game0)
    (BallObject.Reset (Game.ball game0) (Vec2.of_ints 123 45) (Vec2.of_ints (-450) 300))
    10 7.
Definition game_win_enter : Game.t := Game.set_state game_menu_enter gameWin.

(** A running game at 9:9 whose ball is about to leave on the left, and
    the same game won at 12:9. *)
Definition game_left_edge : Game.t :=
  Game.mk gameActive ∅ (Game.processedKeys game0) 800 600
    (Game.particles game0) (Game.effects game0) (Game.text game0)
    (Game.paddle1 game0) (Game.paddle2 game0)
    (BallObject.Reset (Game.ball game0) (Vec2.of_ints 3 200) (Vec2.of_ints (-450) (-300)))
    9 9.
Definition game_won : Game.t :=
  Game.set_paddle1Score (Game.set_state game_left_edge gameWin) 12.

(** ** One frame, step by step *)

(** The game after the first two steps of an [Update] in state
    [Active]: the ball moved, then turned round and the shake switched
    on when the ball touches a paddle. *)
Definition moved (g : Game.t) (deltaTime : F64.t) : Game.t :=
  Game.set_ball g (BallObject.Move (Game.ball g) deltaTime (Game.width g) (Game.height g)).

(** The shake timer and the shake switch after the timer step of
    [Update], from their values before it. *)
Definition timer_after (shakeTime deltaTime : F64.t) : F64.t :=
  if F64.gtb shakeTime F64.zero then F64.sub shakeTime deltaTime else shakeTime.
Definition shake_after (shake : bool) (shakeTime deltaTime : F64.t) : bool :=
  if F64.gtb shakeTime F64.zero
  then (if F64.leb (F64.sub shakeTime deltaTime) F64.zero then false else shake)
  else shake.

(** The step of a paddle in a frame: [paddleVelocity * float32(deltaTime)]. *)
Definition deltaSpace (deltaTime : F64.t) : F32.t :=
  F32.mul paddleVelocity (F32.of_f64 deltaTime).

(** ** Further concrete inputs *)

(** A running game at 3:4 whose ball is about to leave on the right. *)
Definition game_right_edge : Game.t :=
  Game.mk gameActive ∅ (Game.processedKeys game0) 800 600
    (Game.particles game0) (Game.effects game0) (Game.text game0)
    (Game.paddle1 game0) (Game.paddle2 game0)
    (BallObject.Reset (Game.ball game0) (Vec2.of_ints 777 200) (Vec2.of_ints 450 300))
    3 4.

(** A running game with the W and the Up keys down. *)
Definition game_keys_up : Game.t :=
  Game.mk gameActive {[ Key.KeyW := true; Key.KeyUp := true ]} (Game.processedKeys game0)
    800 600 (Game.particles game0) (Game.effects game0) (Game.text game0)
    (GameObject.Reset (Game.paddle1 game0) (Vec2.of_ints 10 3))
    (Game.paddle2 game0) (Game.ball game0) 0 0.

(** An object whose x coordinate is not a number. *)
Definition lost : GameObject.t :=
  GameObject.newGameObject (Vec2.mk S754_nan (F32.of_int 240)) paddleSize.

(** A pool of three particles of which the middle one is in use. *)
Definition mixed_pool : ParticleGenerator.t :=
  ParticleGenerator.mk
    [ ParticleGenerator.defaultParticle;
      Particle.mk (Vec2.of_ints 1 2) (Vec2.of_ints 3 4)
        (Vec4.mk F32.one F32.one F32.one F32.one) half_second;
      ParticleGenerator.defaultParticle ]
    3.

(** A second glyph loader for the examples: the textures of [boxGlyph]
    moved up by 1000. *)
Definition boldGlyph (ch : Z) : Character.t := Character.mk (1000 + ch) 10 12 (64 * 11) 1 2.

(** A turn of the loop in which nothing happens but the clock, and one
    in which the Escape key goes down. *)
Definition quiet_turn : Main.input := Main.mkInput frame16 [] frame16.
Definition escape_turn : Main.input :=
  Main.mkInput frame16 [(Key.KeyW, Main.Press); (Main.KeyEscape, Main.Press)] frame16.

(** The world as [main] enters the loop, with the box glyphs. *)
Definition world0 : Main.world := Main.start boxGlyph.

(** Three turns of the loop, 16 ms apart: Enter goes down; Enter goes up
    and W goes down; nothing happens. *)
Definition ms (n : Z) : F64.t := F64.div (F64.of_int n) (F64.of_int 1000).
Definition enter_turn : Main.input :=
  Main.mkInput (ms 16) [(Key.KeyEnter, Main.Press)] (ms 17).
Definition release_turn : Main.input :=
  Main.mkInput (ms 32) [(Key.KeyEnter, Main.Release); (Key.KeyW, Main.Press)] (ms 33).
Definition next_turn : Main.input := Main.mkInput (ms 48) [] (ms 49).

(** A running game whose ball touches the left paddle as the frame
    begins. *)
Definition game_touching : Game.t :=
  Game.mk gameActive ∅ (Game.processedKeys game0) 800 600
    (Game.particles game0) (Game.effects game0) (Game.text game0)
    (Game.paddle1 game0) (Game.paddle2 game0)
    (BallObject.Reset (Game.ball game0) (Vec2.of_ints 25 240) (Vec2.of_ints (-450) 300))
    0 0.

(** A running game whose ball is half a second away from the left
    paddle. *)
Definition game_approaching : Game.t :=
  Game.set_ball game_touching
    (BallObject.Reset (Game.ball game0) (Vec2.of_ints 250 110) (Vec2.of_ints (-450) 300)).

(** ** Between two turns of the loop *)

(** The score board: both scores in [0, maxScore], not both at
    [maxScore]; a running match has nobody at [maxScore], a won one has
    somebody there. *)
Definition scores_ok (g : Game.t) : Prop :=
  0 <= Game.paddle1Score g <= maxScore
  /\ 0 <= Game.paddle2Score g <= maxScore
  /\ (Game.paddle1Score g < maxScore \/ Game.paddle2Score g < maxScore)
  /\ (Game.state g = gameActive ->
      Game.paddle1Score g < maxScore /\ Game.paddle2Score g < maxScore)
  /\ (Game.state g = gameWin ->
      Game.paddle1Score g = maxScore \/ Game.paddle2Score g = maxScore).

(** The ball of the 800 by 600 court: free, 20 by 20, with the speed of
    [initialBallVelocity] on both axes. *)
Definition ball_moving (b : BallObject.t) : Prop :=
  BallObject.isStuck b = false
  /\ BallObject.size b = Vec2.of_ints 20 20
  /\ (Vec2.X (BallObject.velocity b) = F32.of_int 450
      \/ Vec2.X (BallObject.velocity b) = F32.of_int (-450))
  /\ (Vec2.Y (BallObject.velocity b) = F32.of_int 300
      \/ Vec2.Y (BallObject.velocity b) = F32.of_int (-300)).

(** The ball is not above the top edge and does not reach below the
    bottom edge. *)
Definition ball_between_walls (b : BallObject.t) : Prop :=
  F32.ltb (Vec2.Y (BallObject.position b)) F32.zero = false
  /\ F32.gtb (F32.add (Vec2.Y (BallObject.position b)) (Vec2.Y (BallObject.size b)))
       (F32.of_int Main.windowHeight) = false.

(** The ball has not left the court on the left or on the right: neither
    test of the loss condition of [Update] holds. *)
Definition ball_between_goals (b : BallObject.t) : Prop :=
  F32.leb (Vec2.X (BallObject.position b)) F32.zero = false
  /\ F32.geb (F32.add (Vec2.X (BallObject.position b)) (Vec2.X (BallObject.size b)))
       (F32.of_int Main.windowWidth) = false.

(** The effects: chaos and confuse off, the shake on when the timer is
    above zero and off when it is at or below zero. *)
Definition effects_ok (g : Game.t) (G : Globals) : Prop :=
  PostProcessor.chaos (Game.effects g) = false
  /\ PostProcessor.confuse (Game.effects g) = false
  /\ (PostProcessor.shake (Game.effects g) = true -> F64.leb (shakeTime G) F64.zero = false)
  /\ (F64.gtb (shakeTime G) F64.zero = true -> PostProcessor.shake (Game.effects g) = true).

(** The court: the window size and the paddles, each of its size in its
    column. *)
Definition court_ok (g : Game.t) : Prop :=
  Game.width g = Main.windowWidth /\ Game.height g = Main.windowHeight
  /\ GameObject.size (Game.paddle1 g) = paddleSize
  /\ GameObject.size (Game.paddle2 g) = paddleSize
  /\ Vec2.X (GameObject.position (Game.paddle1 g)) = F32.of_int 10
  /\ Vec2.X (GameObject.position (Game.paddle2 g)) = F32.of_int 770.

(** What holds of the game and the package variables between two turns
    of the loop of [main]. *)
Definition running (g : Game.t) (G : Globals) : Prop :=
  pool_ok (Game.particles g) G
  /\ ParticleGenerator.amount (Game.particles g) = 50
  /\ length (TextRenderer.chars (Game.text g)) = 96%nat
  /\ scores_ok g
  /\ ball_moving (Game.ball g)
  /\ ball_between_walls (Game.ball g)
  /\ ball_between_goals (Game.ball g)
  /\ effects_ok g G
  /\ court_ok g.

(** ** Loading shaders *)

(** The place, counted from the head, of the last load of a list that
    stores under [name]. *)
Fixpoint last_load (name : string) (loads : list (string * string * string)) : option nat :=
  match loads with
  | [] => None
  | load :: rest =>
      match last_load name rest with
      | Some j => Some (S j)
      | None => if decide (snd load = name) then Some O else None
      end
  end.

(** A driver that compiles everything and numbers its programs from 3
    in steps of 3, and a file system in which every file has the same
    two lines. *)
Definition driver3 : Driver.t := Driver.mk (fun _ _ => true) (fun n => 3 + 3 * Z.of_nat n) 0.
Definition two_lines : ResourceManager.files :=
  fun _ => Some ["#version 410 core"; "void main() {}"]%string.

(** Three loads, the first and the last under one name. *)
Definition loads_aba : list (string * string * string) :=
  [ ("a.vs", "a.frag", "sprite"); ("b.vs", "b.frag", "text");
    ("c.vs", "c.frag", "sprite") ]%string.

(** * Properties *)

(** ** Slices *)

Lemma index_Some {A} (s : list A) (i : Z) (a : A) :
  Int.index s i = Some a <-> 0 <= i /\ s !! Z.to_nat i = Some a.
Proof.
  unfold Int.index. destruct (Z.ltb_spec i 0); split; intros H'.
  - discriminate.
  - lia.
  - split; [lia | exact H'].
  - apply H'.
Qed.

Lemma index_in_bounds {A} (s : list A) (i : Z) :
  0 <= i < Z.of_nat (length s) -> exists a, Int.index s i = Some a.
Proof.
  intros Hi. destruct (lookup_lt_is_Some_2 s (Z.to_nat i)) as [a Ha]; [lia |].
  exists a. apply index_Some. split; [lia | exact Ha].
Qed.

Lemma index_bounds {A} (s : list A) (i : Z) (a : A) :
  Int.index s i = Some a -> 0 <= i < Z.of_nat (length s).
Proof.
  intros H. apply index_Some in H as [H0 H]. apply lookup_lt_Some in H. lia.
Qed.

Lemma index_None {A} (s : list A) (i : Z) :
  Int.index s i = None <-> i < 0 \/ Z.of_nat (length s) <= i.
Proof.
  unfold Int.index. destruct (Z.ltb_spec i 0).
  - split; [intros _; lia | reflexivity].
  - rewrite lookup_ge_None. lia.
Qed.

(** ** Rounding and order in [SpecFloat] *)

Lemma digits2_pos_bounds (m : positive) :
  2 ^ (Zpos (digits2_pos m) - 1) <= Zpos m < 2 ^ Zpos (digits2_pos m).
Proof.
  induction m as [m IH | m IH |]; cbn [digits2_pos].
  - rewrite Pos2Z.inj_succ.
    replace (Z.succ (Zpos (digits2_pos m)) - 1) with (Zpos (digits2_pos m)) by lia.
    rewrite Z.pow_succ_r by lia.
    replace (2 ^ Zpos (digits2_pos m)) with (2 * 2 ^ (Zpos (digits2_pos m) - 1)) at 1
      by (rewrite <- Z.pow_succ_r by lia; f_equal; lia).
    lia.
  - rewrite Pos2Z.inj_succ.
    replace (Z.succ (Zpos (digits2_pos m)) - 1) with (Zpos (digits2_pos m)) by lia.
    rewrite Z.pow_succ_r by lia.
    replace (2 ^ Zpos (digits2_pos m)) with (2 * 2 ^ (Zpos (digits2_pos m) - 1)) at 1
      by (rewrite <- Z.pow_succ_r by lia; f_equal; lia).
    lia.
  - cbn. lia.
Qed.

Lemma Zdigits2_bounds (m : Z) :
  0 < m -> 2 ^ (Zdigits2 m - 1) <= m < 2 ^ Zdigits2 m.
Proof.
  destruct m as [| p | p]; try lia. intros _. apply digits2_pos_bounds.
Qed.

Lemma Zdigits2_pos (m : Z) : 0 < m -> 0 < Zdigits2 m.
Proof. destruct m; cbn; lia. Qed.

Lemma Zdigits2_nonneg (m : Z) : 0 <= Zdigits2 m.
Proof. destruct m; cbn; lia. Qed.

Lemma Zdigits2_mono (m1 m2 : Z) : 0 < m1 <= m2 -> Zdigits2 m1 <= Zdigits2 m2.
Proof.
  intros H.
  pose proof (Zdigits2_bounds m1) as B1. pose proof (Zdigits2_bounds m2) as B2.
  pose proof (Zdigits2_pos m1). pose proof (Zdigits2_pos m2).
  destruct (Z_le_gt_dec (Zdigits2 m1) (Zdigits2 m2)) as [Hle | Hgt]; [exact Hle |].
  exfalso.
  assert (2 ^ Zdigits2 m2 <= 2 ^ (Zdigits2 m1 - 1)) by (apply Z.pow_le_mono_r; lia).
  lia.
Qed.

Lemma Zdigits2_lt_pow (m d : Z) : 0 <= d -> 0 <= m < 2 ^ d -> Zdigits2 m <= d.
Proof.
  intros Hd Hm. destruct (Z.eq_dec m 0) as [-> | Hne]; [cbn; lia |].
  pose proof (Zdigits2_bounds m) as B. pose proof (Zdigits2_pos m).
  destruct (Z_le_gt_dec (Zdigits2 m) d) as [Hle | Hgt]; [exact Hle |].
  exfalso.
  assert (2 ^ d <= 2 ^ (Zdigits2 m - 1)) by (apply Z.pow_le_mono_r; lia).
  lia.
Qed.

Lemma Zdigits2_ge_pow (m d : Z) : 0 <= d -> 2 ^ d <= m -> d + 1 <= Zdigits2 m.
Proof.
  intros Hd Hm.
  assert (0 < 2 ^ d) by (apply Z.pow_pos_nonneg; lia).
  pose proof (Zdigits2_bounds m) as B. pose proof (Zdigits2_pos m).
  destruct (Z_le_gt_dec (d + 1) (Zdigits2 m)) as [Hle | Hgt]; [exact Hle |].
  exfalso.
  assert (2 ^ Zdigits2 m <= 2 ^ d) by (apply Z.pow_le_mono_r; lia).
  lia.
Qed.

(** Shifting a mantissa to the left adds to its digits. *)
Lemma Zdigits2_shift (m k : Z) : 0 < m -> 0 <= k -> Zdigits2 (m * 2 ^ k) = Zdigits2 m + k.
Proof.
  intros Hm Hk.
  pose proof (Zdigits2_bounds m Hm) as B. pose proof (Zdigits2_pos m Hm).
  assert (0 < 2 ^ k) by (apply Z.pow_pos_nonneg; lia).
  apply Z.le_antisymm.
  - apply Zdigits2_lt_pow; [lia |]. rewrite Z.pow_add_r by lia. nia.
  - replace (Zdigits2 m + k) with ((Zdigits2 m - 1 + k) + 1) by lia.
    apply Zdigits2_ge_pow; [lia |]. rewrite Z.pow_add_r by lia. nia.
Qed.

(** *** Shifting right *)

Lemma shr_1_m (mrs : shr_record) :
  0 <= shr_m mrs -> shr_m (shr_1 mrs) = shr_m mrs / 2.
Proof.
  destruct mrs as [m r s]. cbn [shr_m]. intros Hm.
  destruct m as [| [p | p |] | p]; cbn [shr_1 shr_m]; [| | | | lia].
  - reflexivity.
  - rewrite Pos2Z.inj_xI. apply Z.div_unique with (r := 1); lia.
  - rewrite Pos2Z.inj_xO. apply Z.div_unique with (r := 0); lia.
  - reflexivity.
Qed.

Lemma div_pow2_pow2 (a j k : Z) : 0 <= j -> 0 <= k -> a / 2 ^ j / 2 ^ k = a / 2 ^ (j + k).
Proof.
  intros Hj Hk.
  assert (0 < 2 ^ j) by (apply Z.pow_pos_nonneg; lia).
  assert (0 < 2 ^ k) by (apply Z.pow_pos_nonneg; lia).
  rewrite Z.pow_add_r by lia. apply Z.div_div; lia.
Qed.

Lemma div_pow2_nonneg (a k : Z) : 0 <= a -> 0 <= k -> 0 <= a / 2 ^ k.
Proof.
  intros Ha Hk. apply Z.div_pos; [exact Ha | apply Z.pow_pos_nonneg; lia].
Qed.

Lemma iter_shr_1_m (p : positive) :
  forall mrs, 0 <= shr_m mrs -> shr_m (iter_pos shr_1 p mrs) = shr_m mrs / 2 ^ Zpos p.
Proof.
  induction p as [p IH | p IH |]; intros mrs Hm; cbn [iter_pos].
  - assert (H1 : 0 <= shr_m (shr_1 mrs)).
    { rewrite shr_1_m by assumption. apply (div_pow2_nonneg _ 1); lia. }
    assert (H2 : 0 <= shr_m (iter_pos shr_1 p (shr_1 mrs))).
    { rewrite IH by assumption. apply div_pow2_nonneg; lia. }
    rewrite IH, IH, shr_1_m by assumption.
    change (shr_m mrs / 2) with (shr_m mrs / 2 ^ 1).
    rewrite !div_pow2_pow2 by lia. f_equal. f_equal. lia.
  - assert (H2 : 0 <= shr_m (iter_pos shr_1 p mrs)).
    { rewrite IH by assumption. apply div_pow2_nonneg; lia. }
    rewrite IH, IH by assumption.
    rewrite !div_pow2_pow2 by lia. f_equal. f_equal. lia.
  - rewrite shr_1_m by assumption. reflexivity.
Qed.

Lemma round_nearest_even_bounds (m : Z) (l : location) :
  m <= round_nearest_even m l <= m + 1.
Proof. destruct l as [| []]; cbn; try destruct (Z.even m); lia. Qed.

Lemma iter_xO (m d : positive) : Zpos (Pos.iter xO m d) = Zpos m * 2 ^ Zpos d.
Proof.
  induction d as [| d IH] using Pos.peano_ind.
  - cbn. lia.
  - rewrite Pos.iter_succ, Pos2Z.inj_xO, IH, Pos2Z.inj_succ, Z.pow_succ_r by lia. ring.
Qed.

Section Format.
Variables prec emax : Z.
Hypothesis Hprec : 0 < prec.

Lemma fexp_mono (e1 e2 : Z) : e1 <= e2 -> fexp prec emax e1 <= fexp prec emax e2.
Proof. unfold fexp. lia. Qed.

Lemma fexp_ge_emin (e : Z) : emin prec emax <= fexp prec emax e.
Proof. unfold fexp. lia. Qed.

Lemma fexp_above_emin (e : Z) :
  emin prec emax < fexp prec emax e -> fexp prec emax e = e - prec.
Proof. unfold fexp. lia. Qed.

(** A right shift to the exponent of the format: the mantissa is divided,
    the exponent raised; nothing happens when the exponent is already
    large enough. *)
Lemma shr_fexp_spec (m e : Z) (l : location) :
  0 <= m ->
  shr_m (fst (shr_fexp prec emax m e l))
  = m / 2 ^ Z.max 0 (fexp prec emax (Zdigits2 m + e) - e)
  /\ snd (shr_fexp prec emax m e l) = Z.max e (fexp prec emax (Zdigits2 m + e)).
Proof.
  intros Hm. unfold shr_fexp, shr.
  set (E := fexp prec emax (Zdigits2 m + e)).
  assert (Hrec : shr_m (shr_record_of_loc m l) = m) by (destruct l as [| []]; reflexivity).
  destruct (E - e) as [| n | n] eqn:Hn; cbn [fst snd].
  - rewrite Hrec. cbn. rewrite Z.div_1_r. split; lia.
  - rewrite iter_shr_1_m by (rewrite Hrec; exact Hm). rewrite Hrec.
    rewrite Z.max_r by lia. split; [reflexivity | lia].
  - rewrite Hrec. rewrite Z.max_l by lia. cbn. rewrite Z.div_1_r. split; lia.
Qed.

(** [binary_round_aux] on a positive mantissa: one shift to the format's
    exponent, a rounding that adds 0 or 1, and a second shift that
    absorbs the carry. *)
Lemma binary_round_aux_spec (s : bool) (m e : Z) (l : location) :
  0 < m ->
  let e1 := Z.max e (fexp prec emax (Zdigits2 m + e)) in
  let m1 := m / 2 ^ Z.max 0 (fexp prec emax (Zdigits2 m + e) - e) in
  exists m1',
    m1 <= m1' <= m1 + 1
    /\ binary_round_aux prec emax s m e l
       = rounded prec emax s
           (m1' / 2 ^ Z.max 0 (fexp prec emax (Zdigits2 m1' + e1) - e1))
           (Z.max e1 (fexp prec emax (Zdigits2 m1' + e1))).
Proof.
  intros Hm e1 m1. unfold binary_round_aux.
  destruct (shr_fexp_spec m e l) as [Hm1 He1]; [lia |].
  destruct (shr_fexp prec emax m e l) as [mrs' e'] eqn:H1. cbn [fst snd] in Hm1, He1.
  set (m1' := round_nearest_even (shr_m mrs') (loc_of_shr_record mrs')).
  pose proof (round_nearest_even_bounds (shr_m mrs') (loc_of_shr_record mrs')) as Hb.
  fold m1' in Hb. rewrite Hm1 in Hb. fold m1 in Hb.
  assert (Hm1pos : 0 <= m1) by (apply div_pow2_nonneg; lia).
  destruct (shr_fexp_spec m1' e' loc_Exact) as [Hm2 He2]; [lia |].
  destruct (shr_fexp prec emax m1' e' loc_Exact) as [mrs'' e''] eqn:H2.
  cbn [fst snd] in Hm2, He2.
  exists m1'. split; [exact Hb |].
  subst e'. fold e1 in Hm2, He2. rewrite Hm2, He2. reflexivity.
Qed.

(** [binary_round]: the same after the alignment to the left. *)
Lemma binary_round_spec (s : bool) (m : positive) (e : Z) :
  let E := fexp prec emax (Zdigits2 (Zpos m) + e) in
  let m1 := if E <? e then Zpos m * 2 ^ (e - E) else Zpos m / 2 ^ (E - e) in
  exists m1',
    m1 <= m1' <= m1 + 1
    /\ binary_round prec emax s m e
       = rounded prec emax s
           (m1' / 2 ^ Z.max 0 (fexp prec emax (Zdigits2 m1' + E) - E))
           (Z.max E (fexp prec emax (Zdigits2 m1' + E))).
Proof.
  intros E m1. unfold binary_round, shl_align.
  change (Zpos (digits2_pos m)) with (Zdigits2 (Zpos m)). fold E.
  destruct (Z.ltb_spec E e) as [Hlt | Hge].
  - destruct (E - e) as [| d | d] eqn:Hd; try lia.
    pose proof (iter_xO m d) as Hshift.
    assert (Hde : Zpos d = e - E) by lia.
    destruct (binary_round_aux_spec s (Zpos (Pos.iter xO m d)) E loc_Exact)
      as (m1' & Hb & Heq); [lia |].
    rewrite Hshift, Hde in Hb, Heq.
    rewrite Zdigits2_shift in Hb, Heq by lia.
    replace (Zdigits2 (Zpos m) + (e - E) + E) with (Zdigits2 (Zpos m) + e) in Hb, Heq by lia.
    fold E in Hb, Heq. rewrite Z.sub_diag, Z.max_id in *.
    cbn [Z.max Z.pow] in Hb. rewrite Z.div_1_r in Hb.
    exists m1'. split; [exact Hb |]. rewrite Hshift, Hde. exact Heq.
  - destruct (binary_round_aux_spec s (Zpos m) e loc_Exact) as (m1' & Hb & Heq); [lia |].
    fold E in Hb, Heq.
    rewrite (Z.max_r 0 (E - e)) in Hb by lia. rewrite (Z.max_r e E) in Heq by lia.
    exists m1'. split; [exact Hb |].
    destruct (E - e) as [| d | d] eqn:Hd; try lia; exact Heq.
Qed.

End Format.

(** *** The order on finite numbers *)

Lemma SFleb_pos_finite (mx p : positive) (ex e2 : Z) :
  ex < e2 \/ (ex = e2 /\ Zpos mx <= Zpos p) ->
  SFleb (S754_finite false mx ex) (S754_finite false p e2) = true.
Proof.
  intros H. unfold SFleb, SFcompare.
  change (Pos.compare_cont Eq mx p) with (Pos.compare mx p).
  destruct (Z.compare_spec ex e2); [| reflexivity | lia].
  destruct (Pos.compare_spec mx p); try reflexivity. lia.
Qed.

Lemma SFleb_neg_finite (mx p : positive) (ex e2 : Z) :
  e2 < ex \/ (e2 = ex /\ Zpos p <= Zpos mx) ->
  SFleb (S754_finite true mx ex) (S754_finite true p e2) = true.
Proof.
  intros H. unfold SFleb, SFcompare.
  change (Pos.compare_cont Eq mx p) with (Pos.compare mx p).
  destruct (Z.compare_spec ex e2); [| lia | reflexivity].
  destruct (Pos.compare_spec mx p); try reflexivity. lia.
Qed.

Lemma SFleb_refl_finite (s : bool) (m : positive) (e : Z) :
  SFleb (S754_finite s m e) (S754_finite s m e) = true.
Proof.
  destruct s; [apply SFleb_neg_finite | apply SFleb_pos_finite]; lia.
Qed.

Section FormatOrder.
Variables prec emax : Z.
Hypothesis Hprec : 0 < prec.

Lemma SFleb_pos_rounded (mx : positive) (ex m2 e2 : Z) :
  0 < m2 -> ex < e2 \/ (ex = e2 /\ Zpos mx <= m2) ->
  SFleb (S754_finite false mx ex) (rounded prec emax false m2 e2) = true.
Proof.
  intros Hm2 H. destruct m2 as [| p | p]; try lia. cbn [rounded].
  destruct (e2 <=? emax - prec); [apply SFleb_pos_finite; exact H | reflexivity].
Qed.

Lemma SFleb_neg_rounded (mx : positive) (ex m2 e2 : Z) :
  0 <= m2 -> e2 <= emax - prec -> e2 < ex \/ (e2 = ex /\ m2 <= Zpos mx) ->
  SFleb (S754_finite true mx ex) (rounded prec emax true m2 e2) = true.
Proof.
  intros Hm2 He2 H. destruct m2 as [| p | p]; try lia; cbn [rounded]; [reflexivity |].
  destruct (Z.leb_spec e2 (emax - prec)); [apply SFleb_neg_finite; exact H | lia].
Qed.

Lemma SFleb_neg_rounded_pos (mx : positive) (ex m2 e2 : Z) :
  0 <= m2 -> SFleb (S754_finite true mx ex) (rounded prec emax false m2 e2) = true.
Proof.
  intros Hm2. destruct m2 as [| p | p]; try lia; cbn [rounded]; [reflexivity |].
  destruct (e2 <=? emax - prec); reflexivity.
Qed.

(** The second shift never loses a positive mantissa. *)
Lemma carry_shift_pos (m1' E : Z) :
  emin prec emax <= E -> 0 < m1' ->
  0 < m1' / 2 ^ Z.max 0 (fexp prec emax (Zdigits2 m1' + E) - E).
Proof.
  intros HE Hm.
  destruct (Z_le_gt_dec (fexp prec emax (Zdigits2 m1' + E)) E) as [Hle | Hgt].
  - rewrite Z.max_l by lia. cbn. rewrite Z.div_1_r. exact Hm.
  - rewrite Z.max_r by lia.
    rewrite (fexp_above_emin prec emax) by lia.
    replace (Zdigits2 m1' + E - prec - E) with (Zdigits2 m1' - prec) by lia.
    assert (Hn : 0 < Zdigits2 m1' - prec).
    { rewrite (fexp_above_emin prec emax) in Hgt by lia. lia. }
    pose proof (Zdigits2_bounds m1' Hm) as [Hlo _].
    assert (0 < 2 ^ (Zdigits2 m1' - prec)) by (apply Z.pow_pos_nonneg; lia).
    assert (0 < 2 ^ (prec - 1)) by (apply Z.pow_pos_nonneg; lia).
    apply Z.lt_le_trans with (2 ^ (prec - 1)); [assumption |].
    apply Z.div_le_lower_bound; [assumption |].
    rewrite <- Z.pow_add_r by lia.
    replace (Zdigits2 m1' - prec + (prec - 1)) with (Zdigits2 m1' - 1) by lia. exact Hlo.
Qed.

(** Rounding a magnitude that is at least a number of the format gives
    at least that number. *)
Lemma binary_round_ge (mx m : positive) (ex e : Z) :
  fexp prec emax (Zdigits2 (Zpos mx) + ex) = ex ->
  e <= ex -> Zpos mx * 2 ^ (ex - e) <= Zpos m ->
  SFleb (S754_finite false mx ex) (binary_round prec emax false m e) = true.
Proof.
  intros Hcanon He Hm.
  destruct (binary_round_spec prec emax false m e) as (m1' & Hb & ->).
  set (E := fexp prec emax (Zdigits2 (Zpos m) + e)) in *.
  assert (Hpow : 0 < 2 ^ (ex - e)) by (apply Z.pow_pos_nonneg; lia).
  assert (HD : Zdigits2 (Zpos mx) + ex <= Zdigits2 (Zpos m) + e).
  { pose proof (Zdigits2_mono (Zpos mx * 2 ^ (ex - e)) (Zpos m)) as Hmono.
    rewrite Zdigits2_shift in Hmono by lia. lia. }
  assert (HE : ex <= E).
  { rewrite <- Hcanon. apply fexp_mono. exact HD. }
  assert (Hemin : emin prec emax <= E) by apply fexp_ge_emin.
  destruct (Z.ltb_spec E e) as [Hlt | Hge]; [lia |].
  assert (Hpow' : 0 < 2 ^ (E - e)) by (apply Z.pow_pos_nonneg; lia).
  assert (Hm1 : 0 < Zpos m / 2 ^ (E - e)
                /\ (E = ex -> Zpos mx <= Zpos m / 2 ^ (E - e))).
  { destruct (Z.eq_dec E ex) as [Heq | Hne].
    - assert (Zpos mx <= Zpos m / 2 ^ (E - e)).
      { apply Z.div_le_lower_bound; [assumption |]. rewrite Heq. lia. }
      split; [lia | auto].
    - split; [| lia].
      assert (HEeq : E = Zdigits2 (Zpos m) + e - prec).
      { apply fexp_above_emin. pose proof (fexp_ge_emin prec emax (Zdigits2 (Zpos mx) + ex)).
        fold E. lia. }
      pose proof (Zdigits2_bounds (Zpos m)) as [Hlo _]; [lia |].
      assert (0 < 2 ^ (prec - 1)) by (apply Z.pow_pos_nonneg; lia).
      apply Z.lt_le_trans with (2 ^ (prec - 1)); [assumption |].
      apply Z.div_le_lower_bound; [assumption |].
      rewrite <- Z.pow_add_r by lia.
      replace (E - e + (prec - 1)) with (Zdigits2 (Zpos m) - 1) by lia. exact Hlo. }
  destruct Hm1 as [Hm1pos Hm1ge].
  assert (Hm1' : 0 < m1') by lia.
  pose proof (carry_shift_pos m1' E Hemin Hm1') as Hm2.
  apply SFleb_pos_rounded; [exact Hm2 |].
  destruct (Z_le_gt_dec (fexp prec emax (Zdigits2 m1' + E)) E) as [Hle | Hgt].
  - rewrite (Z.max_l E) by lia. rewrite (Z.max_l 0) by lia. cbn [Z.pow]. rewrite Z.div_1_r.
    destruct (Z.eq_dec E ex) as [Heq | Hne]; [right | left; lia].
    split; [lia |]. specialize (Hm1ge Heq). lia.
  - left. lia.
Qed.

(** Rounding a magnitude that is below a number of the format gives at
    most that number: the negated results are ordered the other way. *)
Lemma binary_round_le (mx m : positive) (ex e : Z) :
  fexp prec emax (Zdigits2 (Zpos mx) + ex) = ex -> ex <= emax - prec ->
  e <= ex -> Zpos m < Zpos mx * 2 ^ (ex - e) ->
  SFleb (S754_finite true mx ex) (binary_round prec emax true m e) = true.
Proof.
  intros Hcanon Hbound He Hm.
  destruct (binary_round_spec prec emax true m e) as (m1' & Hb & ->).
  set (E := fexp prec emax (Zdigits2 (Zpos m) + e)) in *.
  set (m1 := if E <? e then _ else _) in Hb.
  assert (Hpow : 0 < 2 ^ (ex - e)) by (apply Z.pow_pos_nonneg; lia).
  assert (HD : Zdigits2 (Zpos m) + e <= Zdigits2 (Zpos mx) + ex).
  { pose proof (Zdigits2_mono (Zpos m) (Zpos mx * 2 ^ (ex - e))) as Hmono.
    rewrite Zdigits2_shift in Hmono by lia. lia. }
  assert (HE : E <= ex).
  { rewrite <- Hcanon. apply fexp_mono. exact HD. }
  assert (Hemin : emin prec emax <= E) by apply fexp_ge_emin.
  assert (HEprec : Zdigits2 (Zpos m) + e - prec <= E) by (unfold E, fexp; lia).
  pose proof (Zdigits2_bounds (Zpos m)) as [_ Hhi]; [lia |].
  pose proof (Zdigits2_pos (Zpos m)) as Hdpos.
  assert (Hm1 : 0 <= m1 < 2 ^ prec /\ (E = ex -> m1 < Zpos mx)).
  { subst m1. destruct (Z.ltb_spec E e) as [Hlt | Hge].
    - split; [| lia].
      assert (0 < 2 ^ (e - E)) by (apply Z.pow_pos_nonneg; lia).
      split; [lia |].
      apply Z.lt_le_trans with (2 ^ Zdigits2 (Zpos m) * 2 ^ (e - E)); [nia |].
      rewrite <- Z.pow_add_r by lia. apply Z.pow_le_mono_r; lia.
    - assert (0 < 2 ^ (E - e)) by (apply Z.pow_pos_nonneg; lia).
      split.
      + split; [apply div_pow2_nonneg; lia |].
        apply Z.div_lt_upper_bound; [assumption |].
        rewrite <- Z.pow_add_r by lia.
        apply Z.lt_le_trans with (2 ^ Zdigits2 (Zpos m)); [exact Hhi |].
        apply Z.pow_le_mono_r; lia.
      + intros Heq. apply Z.div_lt_upper_bound; [assumption |]. rewrite Heq. lia. }
  destruct Hm1 as [Hm1b Hm1lt]. clearbody m1.
  assert (Hm1'nn : 0 <= m1') by lia.
  set (E' := fexp prec emax (Zdigits2 m1' + E)).
  assert (Hm2nn : 0 <= m1' / 2 ^ Z.max 0 (E' - E)) by (apply div_pow2_nonneg; lia).
  destruct (Z.eq_dec E ex) as [Heq | Hne].
  - (* same exponent: the mantissa stays at or below [mx] *)
    specialize (Hm1lt Heq).
    assert (HE' : E' <= E).
    { subst E'. rewrite Heq.
      apply Z.le_trans with (fexp prec emax (Zdigits2 (Zpos mx) + ex)); [| lia].
      apply fexp_mono.
      destruct (Z.eq_dec m1' 0) as [-> | Hnz].
      - cbn [Zdigits2]. pose proof (Zdigits2_pos (Zpos mx)). lia.
      - pose proof (Zdigits2_mono m1' (Zpos mx)). lia. }
    rewrite (Z.max_l E) by lia. rewrite (Z.max_l 0) by lia. cbn [Z.pow]. rewrite Z.div_1_r.
    apply SFleb_neg_rounded; [lia | lia | right; split; lia].
  - (* smaller exponent: at most one carry *)
    assert (Hd : Zdigits2 m1' <= prec + 1).
    { apply Zdigits2_lt_pow; [lia |]. split; [lia |].
      assert (0 < 2 ^ prec) by (apply Z.pow_pos_nonneg; lia).
      rewrite Z.pow_add_r by lia. change (2 ^ 1) with 2.
      clear - Hb Hm1b H. lia. }
    assert (HE' : E' <= E + 1).
    { subst E'. unfold fexp at 1. clearbody E. clear - Hemin Hd. lia. }
    apply SFleb_neg_rounded; [exact Hm2nn | lia |].
    destruct (Z_le_gt_dec (Z.max E E') (ex - 1)) as [Hlow | Hhigh]; [left; lia | right].
    assert (HE'eq : E' = E + 1) by lia.
    split; [lia |].
    rewrite HE'eq. replace (E + 1 - E) with 1 by lia.
    change (2 ^ (Z.max 0 1)) with 2.
    assert (Hmx : 2 ^ (prec - 1) <= Zpos mx).
    { assert (Hex : ex = Zdigits2 (Zpos mx) + ex - prec).
      { rewrite <- Hcanon at 1. apply fexp_above_emin. rewrite Hcanon. lia. }
      pose proof (Zdigits2_bounds (Zpos mx)) as [Hlo _]; [lia |].
      replace (Zdigits2 (Zpos mx) - 1) with (prec - 1) in Hlo by lia. exact Hlo. }
    apply Z.le_trans with (2 ^ (prec - 1)); [| exact Hmx].
    apply Z.div_le_upper_bound; [lia |].
    rewrite <- (Z.pow_succ_r 2 (prec - 1)) by lia.
    replace (Z.succ (prec - 1)) with prec by lia. lia.
Qed.

End FormatOrder.

Lemma shl_align_fst (m : positive) (e ez : Z) :
  ez <= e -> Zpos (fst (shl_align m e ez)) = Zpos m * 2 ^ (e - ez).
Proof.
  intros He. unfold shl_align. destruct (ez - e) as [| d | d] eqn:Hd; cbn [fst]; try lia.
  - replace (e - ez) with 0 by lia. cbn. lia.
  - rewrite iter_xO. f_equal. f_equal. lia.
Qed.

Section Addition.
Variables prec emax : Z.
Hypothesis Hprec : 0 < prec.

(** Adding a positive number to a number of the format does not go
    below that number, whatever the rounding does. *)
Lemma SFadd_finite_pos_ge (sx : bool) (mx mw : positive) (ex ew : Z) :
  valid_binary prec emax (S754_finite sx mx ex) = true ->
  SFleb (S754_finite sx mx ex)
    (SFadd prec emax (S754_finite sx mx ex) (S754_finite false mw ew)) = true.
Proof.
  cbn [valid_binary]. unfold bounded, canonical_mantissa.
  intros Hvalid. apply andb_true_iff in Hvalid as [Hcanon Hbound].
  apply Z.eqb_eq in Hcanon. apply Z.leb_le in Hbound.
  change (Zpos (digits2_pos mx)) with (Zdigits2 (Zpos mx)) in Hcanon.
  cbn [SFadd]. set (ez := Z.min ex ew).
  rewrite !shl_align_fst by (subst ez; lia).
  assert (Hx : 0 < Zpos mx * 2 ^ (ex - ez)).
  { assert (0 < 2 ^ (ex - ez)) by (apply Z.pow_pos_nonneg; subst ez; lia). lia. }
  assert (Hw : 0 < Zpos mw * 2 ^ (ew - ez)).
  { assert (0 < 2 ^ (ew - ez)) by (apply Z.pow_pos_nonneg; subst ez; lia). lia. }
  assert (Hez : ez <= ex) by (subst ez; lia).
  clearbody ez.
  destruct sx; cbn [cond_Zopp].
  - destruct (- (Zpos mx * 2 ^ (ex - ez)) + Zpos mw * 2 ^ (ew - ez)) as [| p | p] eqn:Hsum;
      cbn [binary_normalize].
    + reflexivity.
    + destruct (binary_round_spec prec emax false p ez) as (m1' & Hb & ->).
      apply SFleb_neg_rounded_pos. apply div_pow2_nonneg; [| lia].
      set (E := fexp prec emax (Zdigits2 (Zpos p) + ez)) in *.
      destruct (Z.ltb_spec E ez).
      * assert (0 < 2 ^ (ez - E)) by (apply Z.pow_pos_nonneg; lia). nia.
      * assert (0 <= Zpos p / 2 ^ (E - ez)) by (apply div_pow2_nonneg; lia). lia.
    + apply binary_round_le; try assumption. lia.
  - destruct (Zpos mx * 2 ^ (ex - ez) + Zpos mw * 2 ^ (ew - ez)) as [| p | p] eqn:Hsum;
      try lia.
    cbn [binary_normalize]. apply binary_round_ge; try assumption. lia.
Qed.

Lemma SFadd_nonneg_ge (x w : spec_float) :
  valid_binary prec emax x = true ->
  match x with S754_zero _ | S754_finite _ _ _ => True | _ => False end ->
  SFleb (S754_zero false) w = true ->
  SFleb x (SFadd prec emax x w) = true.
Proof.
  intros Hvalid Hfin Hw.
  destruct w as [sw | [] | | [] mw ew]; try discriminate Hw.
  - destruct x as [[] | | | sx mx ex]; try contradiction; destruct sw; try reflexivity;
      apply SFleb_refl_finite.
  - destruct x as [[] | | | [] mx ex]; try contradiction; reflexivity.
  - destruct x as [[] | | | sx mx ex]; try contradiction; try reflexivity.
    apply SFadd_finite_pos_ge. exact Hvalid.
Qed.

End Addition.

(** ** Collisions *)

Lemma SFltb_not_leb (u v : spec_float) : SFltb u v = true -> SFleb v u = false.
Proof.
  unfold SFltb, SFleb.
  destruct u as [[] | [] | | [] mu eu], v as [[] | [] | | [] mv ev]; cbn [SFcompare];
    try discriminate; try reflexivity.
  - rewrite (Z.compare_antisym eu ev).
    change (Pos.compare_cont Eq mu mv) with (Pos.compare mu mv).
    change (Pos.compare_cont Eq mv mu) with (Pos.compare mv mu).
    rewrite (Pos.compare_antisym mu mv).
    destruct (eu ?= ev); cbn; try discriminate; try reflexivity.
    destruct (mu ?= mv)%positive; cbn; try discriminate; reflexivity.
  - rewrite (Z.compare_antisym eu ev).
    change (Pos.compare_cont Eq mu mv) with (Pos.compare mu mv).
    change (Pos.compare_cont Eq mv mu) with (Pos.compare mv mu).
    rewrite (Pos.compare_antisym mu mv).
    destruct (eu ?= ev); cbn; try discriminate; try reflexivity.
    destruct (mu ?= mv)%positive; cbn; try discriminate; reflexivity.
Qed.


Lemma collisionX_sym (a b : GameObject.t) :
  GameObject.collisionX a b = GameObject.collisionX b a.
Proof. unfold GameObject.collisionX. apply andb_comm. Qed.

Lemma collisionY_sym (a b : GameObject.t) :
  GameObject.collisionY a b = GameObject.collisionY b a.
Proof. unfold GameObject.collisionY. apply andb_comm. Qed.




(** The ball that touches the paddle collides with it, from both sides. *)
Example CheckCollision_touching :
  GameObject.CheckCollision touching_ball left_paddle = true
  /\ GameObject.CheckCollision left_paddle touching_ball = true.
Proof. vm_compute. split; reflexivity. Qed.

(** ** The ball at the walls *)





(** The rising ball does cross the top wall in one frame, and comes back
    at [y = 0] moving down at 300. *)
Example Move_rising_ball :
  F32.leb (Vec2.Y (BallObject.integrated rising_ball frame16)) F32.zero = true
  /\ BallObject.velocity (BallObject.Move rising_ball frame16 800 600) = Vec2.of_ints 450 300
  /\ Vec2.Y (BallObject.position (BallObject.Move rising_ball frame16 800 600)) = F32.zero.
Proof. vm_compute. repeat split. Qed.

(** ** The search loops of [firstUnusedParticle] *)

Section Scan.
Import ParticleGenerator.
Variable ps : list Particle.t.

Lemma scan_total (n : nat) (i : Z) :
  0 <= i -> i + Z.of_nat n <= Z.of_nat (length ps) -> scan ps i n <> None.
Proof.
  revert i. induction n as [|n IH]; intros i Hi Hn; simpl; [discriminate |].
  destruct (index_in_bounds ps i) as [p Hp]; [lia |]. rewrite Hp.
  destruct (Particle.dead p); [discriminate |]. apply IH; lia.
Qed.

Lemma scan_found (n : nat) (i j : Z) :
  scan ps i n = Some (Some j) ->
  i <= j < i + Z.of_nat n /\ free_at ps j /\ forall k, i <= k < j -> taken_at ps k.
Proof.
  revert i. induction n as [|n IH]; intros i; simpl; [discriminate |].
  destruct (Int.index ps i) as [p|] eqn:Hp; [| discriminate].
  destruct (Particle.dead p) eqn:Hd.
  - intros [= <-]. split; [lia |]. split; [exists p; auto | intros k Hk; lia].
  - intros H. apply IH in H as (Hj & Hfree & Htaken).
    split; [lia |]. split; [exact Hfree |].
    intros k Hk. destruct (Z.eq_dec k i) as [-> | Hne].
    + exists p; auto.
    + apply Htaken; lia.
Qed.

Lemma scan_exhausted (n : nat) (i : Z) :
  scan ps i n = Some None -> forall k, i <= k < i + Z.of_nat n -> taken_at ps k.
Proof.
  revert i. induction n as [|n IH]; intros i; simpl; [intros _ k Hk; lia |].
  destruct (Int.index ps i) as [p|] eqn:Hp; [| discriminate].
  destruct (Particle.dead p) eqn:Hd; [discriminate |].
  intros H k Hk. destruct (Z.eq_dec k i) as [-> | Hne].
  - exists p; auto.
  - apply (IH _ H); lia.
Qed.

Lemma free_not_taken (j : Z) : free_at ps j -> taken_at ps j -> False.
Proof. intros (p & Hp & Hd) (q & Hq & Hq'). congruence. Qed.
End Scan.

Lemma firstUnusedParticle_spec (pg : ParticleGenerator.t) (G : Globals) :
  pool_ok pg G ->
  exists i,
    ParticleGenerator.firstUnusedParticle pg G = Some (i, set_lastUsedParticle G i)
    /\ 0 <= i < ParticleGenerator.amount pg
    /\ ((exists j, free_at (ParticleGenerator.particles pg) j) ->
        free_at (ParticleGenerator.particles pg) i)
    /\ ((forall j, 0 <= j < ParticleGenerator.amount pg ->
                   taken_at (ParticleGenerator.particles pg) j) -> i = 0).
Proof.
  intros [Hlen Hcur]. unfold ParticleGenerator.firstUnusedParticle, bind, get_globals, lift_option.
  set (ps := ParticleGenerator.particles pg) in *.
  set (c := lastUsedParticle G) in *.
  set (M := ParticleGenerator.amount pg) in *.
  destruct (ParticleGenerator.scan ps c (Z.to_nat (M - c))) as [[i|]|] eqn:H1.
  - apply scan_found in H1 as (Hi & Hfree & _).
    exists i. cbn. split; [reflexivity |]. split; [lia |]. split; [auto |].
    intros Hall. exfalso. apply (free_not_taken ps i Hfree). apply Hall. lia.
  - cbn. pose proof (scan_exhausted _ _ _ H1) as Hhi.
    destruct (ParticleGenerator.scan ps 0 (Z.to_nat (c - 0))) as [[i|]|] eqn:H2.
    + apply scan_found in H2 as (Hi & Hfree & _).
      exists i. cbn. split; [reflexivity |]. split; [lia |]. split; [auto |].
      intros Hall. exfalso. apply (free_not_taken ps i Hfree). apply Hall. lia.
    + pose proof (scan_exhausted _ _ _ H2) as Hlo.
      exists 0. cbn. split; [reflexivity |]. split; [lia |]. split; [| auto].
      intros [j Hj]. exfalso. apply (free_not_taken ps j Hj).
      destruct Hj as (p & Hp & _). apply index_bounds in Hp.
      destruct (Z.lt_ge_cases j c); [apply Hlo | apply Hhi]; lia.
    + exfalso. apply (scan_total ps (Z.to_nat (c - 0)) 0); [lia | lia | exact H2].
  - exfalso. apply (scan_total ps (Z.to_nat (M - c)) c); [lia | lia | exact H1].
Qed.

(** ** Comparisons *)

Lemma alive_not_dead (p : Particle.t) : Particle.alive p = true -> Particle.dead p = false.
Proof.
  unfold Particle.alive, Particle.dead, F64.gtb, F64.leb, F64.zero, SFltb, SFleb.
  destruct (Particle.life p) as [s | s | | s m e]; simpl; try discriminate;
    destruct s; simpl; congruence.
Qed.

Lemma one_not_dead : F64.leb F64.one F64.zero = false.
Proof. reflexivity. Qed.

(** ** Respawning *)

Lemma respawnParticle_eq (p : Particle.t) (object : GameObject.t) (offset : Vec2.t)
    (G : Globals) :
  ParticleGenerator.respawnParticle p object offset G
  = Some (respawned object offset (draw1 G) (draw2 G), after_draws G).
Proof. reflexivity. Qed.

Lemma draw1_range (G : Globals) : 0 <= draw1 G < 50.
Proof. unfold draw1. apply Z.mod_pos_bound. lia. Qed.

Lemma draw2_range (G : Globals) : 0 <= draw2 G < 50.
Proof. unfold draw2. apply Z.mod_pos_bound. lia. Qed.

Lemma spawn_one_spec (pg : ParticleGenerator.t) (G : Globals) (object : GameObject.t)
    (offset : Vec2.t) (k : Z) :
  pool_ok pg G ->
  exists i,
    ParticleGenerator.firstUnusedParticle pg G = Some (i, set_lastUsedParticle G i)
    /\ 0 <= i < ParticleGenerator.amount pg
    /\ ParticleGenerator.spawn_one object offset k pg G
       = Some (ParticleGenerator.mk
                 (<[Z.to_nat i := respawned object offset
                                    (draw1 G) (draw2 G)]> (ParticleGenerator.particles pg))
                 (ParticleGenerator.amount pg),
               after_draws (set_lastUsedParticle G i)).
Proof.
  intros Hok. destruct (firstUnusedParticle_spec pg G Hok) as (i & Hf & Hi & _).
  exists i. split; [exact Hf |]. split; [exact Hi |].
  destruct Hok as [Hlen _].
  destruct (index_in_bounds (ParticleGenerator.particles pg) i) as [p Hp]; [lia |].
  unfold ParticleGenerator.spawn_one, bind. rewrite Hf, Hp. cbn [lift_option ret].
  rewrite respawnParticle_eq. reflexivity.
Qed.

Lemma pool_ok_spawned (pg : ParticleGenerator.t) (G : Globals) (i : Z) (p : Particle.t) :
  pool_ok pg G -> 0 <= i < ParticleGenerator.amount pg ->
  pool_ok (ParticleGenerator.mk (<[Z.to_nat i := p]> (ParticleGenerator.particles pg))
             (ParticleGenerator.amount pg))
          (after_draws (set_lastUsedParticle G i)).
Proof.
  intros [Hlen Hc] Hi. split; cbn.
  - rewrite length_insert. exact Hlen.
  - exact Hi.
Qed.

(** ** Counting slots *)








(** ** The spawn loop *)

Lemma spawn_loop_total (object : GameObject.t) (offset : Vec2.t) (n : nat) :
  forall (k : Z) (pg : ParticleGenerator.t) (G : Globals),
    pool_ok pg G ->
    exists pg' G',
      for_n n k (ParticleGenerator.spawn_one object offset) pg G = Some (pg', G')
      /\ pool_ok pg' G'
      /\ length (ParticleGenerator.particles pg') = length (ParticleGenerator.particles pg)
      /\ ParticleGenerator.amount pg' = ParticleGenerator.amount pg
      /\ shakeTime G' = shakeTime G.
Proof.
  induction n as [| n IH]; intros k pg G Hok; cbn [for_n].
  - exists pg, G. repeat split; try reflexivity; apply Hok.
  - destruct (spawn_one_spec pg G object offset k Hok) as (i & _ & Hi & Hs).
    unfold bind. rewrite Hs.
    destruct (IH (k + 1) _ _
                (pool_ok_spawned pg G i (respawned object offset (draw1 G) (draw2 G)) Hok Hi))
      as (pg' & G' & Hrun & Hok' & Hlen & Ham & Hsh).
    exists pg', G'. split; [exact Hrun |]. split; [exact Hok' |].
    cbn in Hlen, Ham, Hsh. rewrite length_insert in Hlen. auto.
Qed.


(** ** The aging loop *)

Lemma age_loop (deltaTime : F64.t) (a : Z) (G : Globals) (suf : list Particle.t) :
  forall (pre : list Particle.t),
    for_n (length suf) (Z.of_nat (length pre)) (ParticleGenerator.age_one deltaTime)
      (ParticleGenerator.mk (pre ++ suf) a) G
    = Some (ParticleGenerator.mk
              (pre ++ map (ParticleGenerator.age_particle deltaTime) suf) a, G).
Proof.
  induction suf as [| p suf IH]; intros pre; cbn [for_n length map].
  - reflexivity.
  - unfold bind at 1. unfold ParticleGenerator.age_one at 1. unfold bind at 1.
    cbn [ParticleGenerator.particles ParticleGenerator.amount].
    assert (Hp : Int.index (pre ++ p :: suf) (Z.of_nat (length pre)) = Some p).
    { apply index_Some. rewrite Nat2Z.id. split; [lia |]. apply list_lookup_middle. reflexivity. }
    rewrite Hp. cbn [lift_option ret].
    unfold Int.store. rewrite Nat2Z.id.
    replace (<[length pre := ParticleGenerator.age_particle deltaTime p]> (pre ++ p :: suf))
      with ((pre ++ [ParticleGenerator.age_particle deltaTime p]) ++ suf).
    2:{ rewrite insert_app_r_alt by lia. rewrite Nat.sub_diag. cbn.
        rewrite <- app_assoc. reflexivity. }
    replace (Z.of_nat (length pre) + 1)
      with (Z.of_nat (length (pre ++ [ParticleGenerator.age_particle deltaTime p]))).
    2:{ rewrite length_app. cbn. lia. }
    rewrite IH. rewrite <- app_assoc. reflexivity.
Qed.

Lemma age_eq (deltaTime : F64.t) (pg : ParticleGenerator.t) (G : Globals) :
  ParticleGenerator.amount pg = Z.of_nat (length (ParticleGenerator.particles pg)) ->
  ParticleGenerator.age deltaTime pg G
  = Some (ParticleGenerator.mk
            (map (ParticleGenerator.age_particle deltaTime) (ParticleGenerator.particles pg))
            (ParticleGenerator.amount pg), G).
Proof.
  intros Hlen. destruct pg as [ps a].
  cbn [ParticleGenerator.particles ParticleGenerator.amount] in *.
  unfold ParticleGenerator.age, for_range.
  cbn [ParticleGenerator.particles ParticleGenerator.amount].
  replace (Z.to_nat (a - 0)) with (length ps) by lia.
  exact (age_loop deltaTime a G ps []).
Qed.


(** [Update] returns on every pool the program builds. *)
Lemma Update_total (pg : ParticleGenerator.t) (G : Globals) (deltaTime : F64.t)
    (object : GameObject.t) (newParticles : Z) (offset : Vec2.t) :
  pool_ok pg G ->
  exists pg' G',
    ParticleGenerator.Update pg deltaTime object newParticles offset G = Some (pg', G')
    /\ pool_ok pg' G' /\ shakeTime G' = shakeTime G.
Proof.
  intros Hok. unfold ParticleGenerator.Update, ParticleGenerator.spawn, for_range, bind.
  destruct (spawn_loop_total object offset (Z.to_nat (newParticles - 0)) 0 pg G Hok)
    as (pg1 & G1 & Hrun & Hok1 & Hlen & Ham & Hsh).
  rewrite Hrun. rewrite age_eq by apply Hok1.
  eexists _, _. split; [reflexivity |]. split; [| exact Hsh].
  destruct Hok1 as [Hl Hc]. split; cbn; [rewrite length_map; exact Hl | exact Hc].
Qed.

(** ** The particle pool *)

(** C7: when every particle of the pool is alive ([life > 0]),
    [firstUnusedParticle] returns index 0 and leaves the cursor at 0; the
    spawn that follows does not panic and overwrites exactly slot 0 with a
    particle of life 1.0, whatever the draws of the random source. *)
Theorem exhausted_pool_overwrites_slot_0 (pg : ParticleGenerator.t) (G : Globals)
    (object : GameObject.t) (offset : Vec2.t) (k : Z) :
  pool_ok pg G ->
  (forall p, p ∈ ParticleGenerator.particles pg -> Particle.alive p = true) ->
  ParticleGenerator.firstUnusedParticle pg G = Some (0, set_lastUsedParticle G 0)
  /\ exists p' G',
       ParticleGenerator.spawn_one object offset k pg G
       = Some (ParticleGenerator.mk (<[0%nat := p']> (ParticleGenerator.particles pg))
                 (ParticleGenerator.amount pg), G')
       /\ Particle.life p' = F64.one
       /\ lastUsedParticle G' = 0.
Proof.
  intros Hok Halive.
  destruct (firstUnusedParticle_spec pg G Hok) as (i & Hf & Hi & _ & Hzero).
  assert (i = 0) as ->.
  { apply Hzero. intros j Hj. destruct Hok as [Hlen _].
    destruct (index_in_bounds (ParticleGenerator.particles pg) j) as [p Hp]; [lia |].
    exists p. split; [exact Hp |]. apply alive_not_dead, Halive.
    apply index_Some in Hp as [_ Hp]. eapply list_elem_of_lookup_2, Hp. }
  split; [exact Hf |].
  destruct (spawn_one_spec pg G object offset k Hok) as (i' & Hf' & _ & Hs).
  assert (i' = 0) as -> by congruence.
  eexists _, _. split; [exact Hs |]. split; reflexivity.
Qed.

Lemma exhausted_pool_overwrites_slot_0_witness :
  ParticleGenerator.firstUnusedParticle busy_pool
    (set_lastUsedParticle (initial_globals sevens) 2)
  = Some (0, set_lastUsedParticle (set_lastUsedParticle (initial_globals sevens) 2) 0)
  /\ exists p' G',
       ParticleGenerator.spawn_one emitter (Vec2.of_ints 10 10) 0 busy_pool
         (set_lastUsedParticle (initial_globals sevens) 2)
       = Some (ParticleGenerator.mk
                 (<[0%nat := p']> (ParticleGenerator.particles busy_pool))
                 (ParticleGenerator.amount busy_pool), G')
       /\ Particle.life p' = F64.one
       /\ lastUsedParticle G' = 0.
Proof.
  apply (exhausted_pool_overwrites_slot_0 busy_pool
           (set_lastUsedParticle (initial_globals sevens) 2)).
  - split; [reflexivity | cbn; lia].
  - intros p Hp. apply list_elem_of_In in Hp. cbn in Hp.
    destruct Hp as [<- | [<- | [<- | []]]]; reflexivity.
Defined.

(** C9: the cursor [lastUsedParticle] stays inside the pool.  For a pool
    of [M > 0] particles (50 in the game) and a cursor the program can
    have reached (0 at start, then the value left by any earlier call on
    such a pool), the cursor lies in [0, M); the call returns without
    panicking an index in [0, M), which [Update] can therefore read, and
    leaves the cursor on that index; and when some slot has [life <= 0]
    the returned slot has [life <= 0]. *)
Theorem lastUsedParticle_stays_in_pool (M : Z) (pg : ParticleGenerator.t) (G : Globals) :
  0 < M ->
  ParticleGenerator.amount pg = M ->
  ParticleGenerator.amount pg = Z.of_nat (length (ParticleGenerator.particles pg)) ->
  cursor_reachable M (lastUsedParticle G) ->
  0 <= lastUsedParticle G < M
  /\ exists i,
       ParticleGenerator.firstUnusedParticle pg G = Some (i, set_lastUsedParticle G i)
       /\ 0 <= i < M
       /\ is_Some (Int.index (ParticleGenerator.particles pg) i)
       /\ ((exists j, free_at (ParticleGenerator.particles pg) j) ->
           free_at (ParticleGenerator.particles pg) i).
Proof.
  intros HM Ham Hlen Hreach.
  assert (Hc : 0 <= lastUsedParticle G < M).
  { clear pg Ham Hlen. induction Hreach as [| pg0 G0 G0' i0 _ IH Ham0 Hlen0 Hcall]; [lia |].
    destruct (firstUnusedParticle_spec pg0 G0) as (i & Hf & Hi & _).
    { split; [exact Hlen0 | lia]. }
    rewrite Hf in Hcall. injection Hcall as -> <-. cbn. lia. }
  split; [exact Hc |].
  destruct (firstUnusedParticle_spec pg G) as (i & Hf & Hi & Hfree & _).
  { split; [exact Hlen | lia]. }
  exists i. split; [exact Hf |]. split; [lia |]. split; [| exact Hfree].
  destruct (index_in_bounds (ParticleGenerator.particles pg) i) as [p Hp]; [lia |].
  rewrite Hp. eexists; reflexivity.
Qed.

Lemma lastUsedParticle_stays_in_pool_witness :
  0 <= lastUsedParticle (initial_globals sevens) < 50
  /\ exists i,
       ParticleGenerator.firstUnusedParticle (ParticleGenerator.newParticleGenerator 50)
         (initial_globals sevens)
       = Some (i, set_lastUsedParticle (initial_globals sevens) i)
       /\ 0 <= i < 50
       /\ is_Some (Int.index
                     (ParticleGenerator.particles (ParticleGenerator.newParticleGenerator 50)) i)
       /\ ((exists j, free_at
                        (ParticleGenerator.particles (ParticleGenerator.newParticleGenerator 50))
                        j) ->
           free_at (ParticleGenerator.particles (ParticleGenerator.newParticleGenerator 50)) i).
Proof.
  apply (lastUsedParticle_stays_in_pool 50 (ParticleGenerator.newParticleGenerator 50)
           (initial_globals sevens)).
  - lia.
  - reflexivity.
  - reflexivity.
  - apply cursor_initial.
Defined.




(** ** Respawning a particle *)

Lemma below_50 (f : Z -> bool) :
  forallb f (seqZ 0 50) = true -> forall k, 0 <= k < 50 -> f k = true.
Proof.
  intros H k Hk. rewrite forallb_forall in H. apply H.
  apply list_elem_of_In, elem_of_seqZ. lia.
Qed.

Lemma jitter_bounds (k : Z) : 0 <= k < 50 -> jitter_small k = true.
Proof. apply below_50. vm_compute. reflexivity. Qed.

Lemma gray_bounds (k : Z) : 0 <= k < 50 -> gray_dark k = true.
Proof. apply below_50. vm_compute. reflexivity. Qed.

Lemma gray_not_bright (k : Z) : 0 <= k < 50 -> bright (ParticleGenerator.gray k) = false.
Proof.
  intros Hk.
  assert (H : negb (bright (ParticleGenerator.gray k)) = true).
  { revert k Hk. apply below_50. vm_compute. reflexivity. }
  destruct (bright _); [discriminate | reflexivity].
Qed.

(** C6, as the spec words it, fails on the colour: with a source whose
    draws are zero the respawned particle is opaque black, not a gray
    near white. *)
Lemma respawnParticle_black :
  exists p' G',
    ParticleGenerator.respawnParticle ParticleGenerator.defaultParticle emitter
      (Vec2.of_ints 10 10) (initial_globals zeros) = Some (p', G')
    /\ Particle.color p' = Vec4.mk F32.zero F32.zero F32.zero F32.one
    /\ near_white (Particle.color p') = false.
Proof.
  eexists _, _. split; [apply respawnParticle_eq |]. split; vm_compute; reflexivity.
Qed.

(** C6, amended: every call of [respawnParticle] returns, and leaves a
    particle with life 1.0, with velocity the emitter's velocity times
    0.1, with position (emitter position + (j, j)) + offset where the
    jitter [j = float32(k1)/100/10] has [0 <= j <= 0.5] for a draw
    [0 <= k1 < 50], and with colour (c, c, c, 1.0), alpha 1.0, where the
    gray [c = float32(k2)/100] has [0 <= c < 0.5] for a second draw
    [0 <= k2 < 50]: the colour is a dark gray, never near white. *)
Theorem respawnParticle_postcondition (particle : Particle.t) (object : GameObject.t)
    (offset : Vec2.t) (G : Globals) :
  exists p' G' k1 k2,
    ParticleGenerator.respawnParticle particle object offset G = Some (p', G')
    /\ 0 <= k1 < 50 /\ 0 <= k2 < 50
    /\ Particle.life p' = F64.one
    /\ Particle.velocity p' = Vec2.Mul (GameObject.velocity object) F32.c0_1
    /\ Particle.position p'
       = Vec2.Add (Vec2.Add (GameObject.position object)
                     (Vec2.mk (ParticleGenerator.jitter k1) (ParticleGenerator.jitter k1)))
           offset
    /\ F32.leb F32.zero (ParticleGenerator.jitter k1) = true
    /\ F32.leb (ParticleGenerator.jitter k1) F32.c0_5 = true
    /\ Particle.color p'
       = Vec4.mk (ParticleGenerator.gray k2) (ParticleGenerator.gray k2)
           (ParticleGenerator.gray k2) F32.one
    /\ F32.leb F32.zero (ParticleGenerator.gray k2) = true
    /\ F32.ltb (ParticleGenerator.gray k2) F32.c0_5 = true
    /\ near_white (Particle.color p') = false.
Proof.
  exists (respawned object offset (draw1 G) (draw2 G)), (after_draws G), (draw1 G), (draw2 G).
  pose proof (draw1_range G) as H1. pose proof (draw2_range G) as H2.
  pose proof (jitter_bounds _ H1) as Hj. pose proof (gray_bounds _ H2) as Hg.
  apply andb_true_iff in Hj as [Hj0 Hj1]. apply andb_true_iff in Hg as [Hg0 Hg1].
  split; [apply respawnParticle_eq |].
  repeat (split; [first [assumption | reflexivity] |]).
  unfold near_white. cbn [respawned Particle.color Vec4.X Vec4.Y Vec4.Z].
  rewrite (gray_not_bright _ H2). reflexivity.
Qed.

(** ** Glyph lookup *)

Lemma LoadFont_length (makeGlyph : Z -> Character.t) :
  length (TextRenderer.chars (TextRenderer.LoadFont makeGlyph TextRenderer.newTextRenderer))
  = 96%nat.
Proof.
  unfold TextRenderer.LoadFont. cbn [TextRenderer.chars TextRenderer.newTextRenderer app].
  rewrite length_map, length_seqZ. reflexivity.
Qed.

Lemma glyph_index_loaded (r : Z) : loaded r -> 0 <= TextRenderer.glyph_index r < 96.
Proof.
  unfold loaded, TextRenderer.glyph_index, TextRenderer.lowChar, TextRenderer.highChar,
    Int.wrap32.
  intros H. rewrite Z.mod_small; lia.
Qed.

Lemma glyph_index_not_loaded (r : Z) :
  is_rune r -> ~ loaded r ->
  TextRenderer.glyph_index r < 0 \/ 96 <= TextRenderer.glyph_index r.
Proof.
  unfold is_rune, loaded, TextRenderer.glyph_index, TextRenderer.lowChar,
    TextRenderer.highChar, Int.wrap32.
  intros Hr Hn.
  destruct (Z_lt_le_dec (r - 32) (- 2 ^ 31)) as [Hlo | Hhi].
  - right. replace ((r - 32 + 2 ^ 31) mod 2 ^ 32) with (r - 32 + 2 ^ 31 + 2 ^ 32).
    + lia.
    + apply Z.mod_unique with (q := -1); lia.
  - rewrite Z.mod_small by lia. lia.
Qed.

Lemma render_loaded (cs : list Character.t) (scale y : F32.t) (indices : list Z) :
  length cs = 96%nat -> Forall loaded indices ->
  forall x, exists ds xend,
    TextRenderer.render cs x y scale indices = Some (ds, xend)
    /\ length ds = length indices.
Proof.
  intros Hlen Hall. induction Hall as [| r rest Hr _ IH]; intros x; cbn [TextRenderer.render].
  - exists [], x. auto.
  - destruct (index_in_bounds cs (TextRenderer.glyph_index r)) as [c Hc].
    { pose proof (glyph_index_loaded r Hr). lia. }
    rewrite Hc.
    destruct (IH (F32.add x (F32.mul (F32.of_int (Int.shr (Character.advance c) 6)) scale)))
      as (ds & xend & Hrun & Hds).
    rewrite Hrun. eexists _, _. split; [reflexivity |]. cbn. lia.
Qed.

Lemma render_not_loaded (cs : list Character.t) (scale y : F32.t) (indices : list Z)
    (r : Z) :
  length cs = 96%nat -> r ∈ indices -> is_rune r -> ~ loaded r ->
  forall x, TextRenderer.render cs x y scale indices = None.
Proof.
  intros Hlen Hin Hr Hn.
  induction Hin as [r rest | r r' rest _ IH]; intros x; cbn [TextRenderer.render].
  - assert (Int.index cs (TextRenderer.glyph_index r) = None) as ->; [| reflexivity].
    apply index_None. pose proof (glyph_index_not_loaded r Hr Hn). lia.
  - destruct (Int.index cs (TextRenderer.glyph_index r')) as [c |]; [| reflexivity].
    rewrite (IH Hr Hn). reflexivity.
Qed.

(** C8: [RenderText] on the glyph list [LoadFont] builds (one glyph per
    code point 32..127, 96 in all).  When every rune of the formatted
    string lies in 32..127, every glyph index [rune - 32] lies in [0, 96)
    and [RenderText] returns after one draw per rune; when some rune lies
    outside 32..127 the lookup is out of range and [RenderText] panics:
    there is no fallback glyph. *)
Theorem RenderText_glyph_lookup (makeGlyph : Z -> Character.t) (x y scale : F32.t)
    (color : Vec3.t) (indices : list Z) :
  Forall is_rune indices ->
  let t := TextRenderer.LoadFont makeGlyph TextRenderer.newTextRenderer in
  length (TextRenderer.chars t) = 96%nat
  /\ (Forall loaded indices ->
      Forall (fun r => 0 <= TextRenderer.glyph_index r
                       < Z.of_nat (length (TextRenderer.chars t))) indices
      /\ exists ds xend,
           TextRenderer.RenderText t x y scale color indices = Some (ds, xend)
           /\ length ds = length indices)
  /\ (~ Forall loaded indices ->
      TextRenderer.RenderText t x y scale color indices = None).
Proof.
  intros Hrunes t. pose proof (LoadFont_length makeGlyph) as Hlen. fold t in Hlen.
  split; [exact Hlen |]. split.
  - intros Hall. split.
    + rewrite Hlen. eapply Forall_impl; [exact Hall |]. intros r Hr.
      apply glyph_index_loaded in Hr. lia.
    + apply render_loaded; assumption.
  - intros Hnot. apply not_Forall_Exists in Hnot; [| intros r; unfold loaded; apply _].
    apply Exists_exists in Hnot as (r & Hin & Hr).
    unfold TextRenderer.RenderText. apply (render_not_loaded _ _ _ _ r); try assumption.
    rewrite Forall_forall in Hrunes. apply Hrunes, Hin.
Qed.

Lemma RenderText_glyph_lookup_witness :
  let t := TextRenderer.LoadFont boxGlyph TextRenderer.newTextRenderer in
  length (TextRenderer.chars t) = 96%nat
  /\ (Forall loaded runes_Go ->
      Forall (fun r => 0 <= TextRenderer.glyph_index r
                       < Z.of_nat (length (TextRenderer.chars t))) runes_Go
      /\ exists ds xend,
           TextRenderer.RenderText t F32.zero F32.zero F32.one
             (Vec3.mk F32.one F32.one F32.one) runes_Go = Some (ds, xend)
           /\ length ds = length runes_Go)
  /\ (~ Forall loaded runes_Go ->
      TextRenderer.RenderText t F32.zero F32.zero F32.one
        (Vec3.mk F32.one F32.one F32.one) runes_Go = None).
Proof.
  apply (RenderText_glyph_lookup boxGlyph F32.zero F32.zero F32.one
           (Vec3.mk F32.one F32.one F32.one) runes_Go).
  unfold runes_Go, is_rune. repeat constructor; lia.
Defined.

(** The two cases at work: "Go!" is drawn with three quads, a string
    with a tab (code point 9) panics. *)
Example RenderText_Go :
  exists ds xend,
    TextRenderer.RenderText (TextRenderer.LoadFont boxGlyph TextRenderer.newTextRenderer)
      F32.zero F32.zero F32.one (Vec3.mk F32.one F32.one F32.one) runes_Go = Some (ds, xend)
    /\ map TextRenderer.texture ds = runes_Go
    /\ xend = F32.of_int 33.
Proof. eexists _, _. split; [vm_compute; reflexivity |]. split; vm_compute; reflexivity. Qed.

Example RenderText_tab :
  TextRenderer.RenderText (TextRenderer.LoadFont boxGlyph TextRenderer.newTextRenderer)
    F32.zero F32.zero F32.one (Vec3.mk F32.one F32.one F32.one) runes_tab = None.
Proof. vm_compute. reflexivity. Qed.

(** ** Confirming in the menu and after a win *)

(** C10: with the Enter key down, [ProcessInput] in state [Menu] enters
    [Active] after a reset: both scores are 0, both paddles stand where
    [Init] puts them for this window, the ball is at the window centre
    with the initial velocity.  In state [Win] it enters [Menu] and
    resets nothing: scores, paddles, ball and particles are unchanged. *)
Theorem confirm_resets_from_menu_only (makeGlyph : Z -> Character.t) (g : Game.t)
    (deltaTime : F64.t) :
  Game.pressed g Key.KeyEnter = true ->
  let g' := Game.ProcessInput g deltaTime in
  let fresh_game := Game.newGame makeGlyph (Game.width g) (Game.height g) in
  (Game.state g = gameMenu ->
   Game.state g' = gameActive
   /\ Game.paddle1Score g' = 0 /\ Game.paddle2Score g' = 0
   /\ GameObject.position (Game.paddle1 g') = GameObject.position (Game.paddle1 fresh_game)
   /\ GameObject.position (Game.paddle2 g') = GameObject.position (Game.paddle2 fresh_game)
   /\ BallObject.position (Game.ball g') = Game.center (Game.width g) (Game.height g)
   /\ BallObject.velocity (Game.ball g') = initialBallVelocity)
  /\ (Game.state g = gameWin ->
      Game.state g' = gameMenu
      /\ Game.paddle1Score g' = Game.paddle1Score g
      /\ Game.paddle2Score g' = Game.paddle2Score g
      /\ Game.paddle1 g' = Game.paddle1 g
      /\ Game.paddle2 g' = Game.paddle2 g
      /\ Game.ball g' = Game.ball g
      /\ Game.particles g' = Game.particles g).
Proof.
  intros Henter g' fresh_game. subst g' fresh_game. unfold Game.ProcessInput.
  split; intros Hstate; rewrite Hstate, Henter; cbn; repeat split; reflexivity.
Qed.

Lemma confirm_resets_from_menu_only_witness :
  let g' := Game.ProcessInput game_menu_enter frame16 in
  let fresh_game := Game.newGame boxGlyph 800 600 in
  (Game.state game_menu_enter = gameMenu ->
   Game.state g' = gameActive
   /\ Game.paddle1Score g' = 0 /\ Game.paddle2Score g' = 0
   /\ GameObject.position (Game.paddle1 g') = GameObject.position (Game.paddle1 fresh_game)
   /\ GameObject.position (Game.paddle2 g') = GameObject.position (Game.paddle2 fresh_game)
   /\ BallObject.position (Game.ball g') = Game.center 800 600
   /\ BallObject.velocity (Game.ball g') = initialBallVelocity)
  /\ (Game.state game_menu_enter = gameWin ->
      Game.state g' = gameMenu
      /\ Game.paddle1Score g' = Game.paddle1Score game_menu_enter
      /\ Game.paddle2Score g' = Game.paddle2Score game_menu_enter
      /\ Game.paddle1 g' = Game.paddle1 game_menu_enter
      /\ Game.paddle2 g' = Game.paddle2 game_menu_enter
      /\ Game.ball g' = Game.ball game_menu_enter
      /\ Game.particles g' = Game.particles game_menu_enter).
Proof. apply (confirm_resets_from_menu_only boxGlyph game_menu_enter frame16). reflexivity. Defined.

(** The 10:7 game: confirming in the menu starts a 0:0 match, confirming
    after the win keeps the 10:7 on the board. *)
Example confirm_at_10_7 :
  (Game.paddle1Score (Game.ProcessInput game_menu_enter frame16),
   Game.paddle2Score (Game.ProcessInput game_menu_enter frame16)) = (0, 0)
  /\ (Game.paddle1Score (Game.ProcessInput game_win_enter frame16),
      Game.paddle2Score (Game.ProcessInput game_win_enter frame16)) = (10, 7)
  /\ BallObject.position (Game.ball (Game.ProcessInput game_win_enter frame16))
     = Vec2.of_ints 123 45.
Proof. vm_compute. repeat split. Qed.

(** ** One frame of the running game *)

Lemma DoCollisions_eq (g : Game.t) (G : Globals) :
  Game.DoCollisions g G
  = Some (if collided g
          then Game.set_ball
                 (Game.set_effects g (PostProcessor.set_shake (Game.effects g) true))
                 (turned (Game.ball g))
          else g,
          if collided g then set_shakeTime G F64.c0_1 else G).
Proof.
  unfold Game.DoCollisions, collided.
  destruct (GameObject.CheckCollision _ _ || GameObject.CheckCollision _ _); reflexivity.
Qed.

Lemma reduce_shake_spec (g : Game.t) (deltaTime : F64.t) (G : Globals) :
  exists g' G',
    Game.reduce_shake g deltaTime G = Some (g', G')
    /\ lastUsedParticle G' = lastUsedParticle G
    /\ (g' = g \/ g' = Game.set_effects g (PostProcessor.set_shake (Game.effects g) false)).
Proof.
  unfold Game.reduce_shake, bind, get_globals, put_globals, ret.
  destruct (F64.gtb (shakeTime G) F64.zero).
  - destruct (F64.leb (F64.sub (shakeTime G) deltaTime) F64.zero);
      eexists _, _; (split; [reflexivity |]); split; auto.
  - eexists _, _. split; [reflexivity |]. split; auto.
Qed.

(** An [Update] in state [Active]: it returns, and its result is the
    loss and win checks applied to a game that differs from the one
    before only in its ball, its particles and its effects. *)
Lemma Update_active (g : Game.t) (deltaTime : F64.t) (G : Globals) :
  Game.state g = gameActive -> pool_ok (Game.particles g) G ->
  exists g4 G4,
    Game.Update g deltaTime G = Some (Game.check_win (Game.check_loss g4), G4)
    /\ Game.ball g4 = ball_in_play g deltaTime
    /\ Game.state g4 = gameActive
    /\ Game.width g4 = Game.width g /\ Game.height g4 = Game.height g
    /\ Game.paddle1Score g4 = Game.paddle1Score g
    /\ Game.paddle2Score g4 = Game.paddle2Score g
    /\ Game.paddle1 g4 = Game.paddle1 g /\ Game.paddle2 g4 = Game.paddle2 g
    /\ pool_ok (Game.particles g4) G4.
Proof.
  intros Hstate Hok. unfold Game.Update. rewrite Hstate.
  set (g1 := Game.set_ball g _).
  unfold bind at 1. rewrite DoCollisions_eq.
  set (g2 := if collided g1 then _ else g1).
  set (G2 := if collided g1 then _ else G).
  assert (Hparts : Game.particles g2 = Game.particles g).
  { subst g2 g1. destruct (collided _); reflexivity. }
  assert (Hok2 : pool_ok (Game.particles g2) G2).
  { rewrite Hparts. subst G2. destruct (collided g1); [| exact Hok].
    destruct Hok as [Hl Hc]. split; [exact Hl | exact Hc]. }
  destruct (Update_total (Game.particles g2) G2 deltaTime (BallObject.obj (Game.ball g2)) 1
              (Vec2.mk (BallObject.radius (Game.ball g2)) (BallObject.radius (Game.ball g2)))
              Hok2) as (pg' & G3 & Hpg & Hok3 & _).
  unfold bind at 1. rewrite Hpg.
  destruct (reduce_shake_spec (Game.set_particles g2 pg') deltaTime G3)
    as (g4 & G4 & Hrs & Hcur & Hg4).
  unfold bind at 1. rewrite Hrs. unfold ret.
  exists g4, G4. split; [reflexivity |].
  assert (Hok4 : pool_ok pg' G4).
  { destruct Hok3 as [Hl Hc]. split; [exact Hl | rewrite Hcur; exact Hc]. }
  assert (Hball : Game.ball g2 = ball_in_play g deltaTime).
  { unfold ball_in_play. fold g1. subst g2. destruct (collided g1); reflexivity. }
  assert (Hfields : Game.state g2 = Game.state g
                    /\ Game.width g2 = Game.width g /\ Game.height g2 = Game.height g
                    /\ Game.paddle1Score g2 = Game.paddle1Score g
                    /\ Game.paddle2Score g2 = Game.paddle2Score g
                    /\ Game.paddle1 g2 = Game.paddle1 g /\ Game.paddle2 g2 = Game.paddle2 g).
  { subst g2 g1. destruct (collided _); repeat split; reflexivity. }
  clearbody g2 G2. clear g1.
  destruct Hfields as (Hs & Hw & Hh & Hs1 & Hs2 & Hp1 & Hp2).
  destruct Hg4 as [-> | ->]; cbn; rewrite <- Hs, <- Hw, <- Hh, <- Hs1, <- Hs2, <- Hp1, <- Hp2 in *;
    repeat split; first [reflexivity | assumption | apply Hok4].
Qed.

Lemma ball_in_play_position (g : Game.t) (deltaTime : F64.t) :
  BallObject.position (ball_in_play g deltaTime)
  = BallObject.position
      (BallObject.Move (Game.ball g) deltaTime (Game.width g) (Game.height g)).
Proof. unfold ball_in_play. destruct (collided _); reflexivity. Qed.

Lemma wrap_small (z : Z) : Int.in_range z -> Int.wrap z = z.
Proof.
  unfold Int.in_range, Int.min_int, Int.max_int, Int.wrap. intros H.
  rewrite Z.mod_small; lia.
Qed.

Lemma check_win_scores (g : Game.t) :
  Game.paddle1Score (Game.check_win g) = Game.paddle1Score g
  /\ Game.paddle2Score (Game.check_win g) = Game.paddle2Score g
  /\ Game.ball (Game.check_win g) = Game.ball g.
Proof. unfold Game.check_win. destruct (_ || _); repeat split. Qed.



(** ** Scoring *)

(** C1, as the spec words it, fails on the velocity: the serve after a
    point for the right player is [initialBallVelocity.Mul(-1)], with
    both components negated.  At 9:9, with the ball leaving on the left,
    [Update] gives the point to the right player and serves with
    velocity (-450, -300): the y component is not the initial 300. *)
Lemma Update_left_exit_negates_y :
  exists g' G',
    Game.Update game_left_edge frame16 (initial_globals sevens) = Some (g', G')
    /\ Game.state game_left_edge = gameActive
    /\ F32.leb (Vec2.X (BallObject.position (ball_in_play game_left_edge frame16))) F32.zero
       = true
    /\ Game.paddle2Score g' = 10
    /\ BallObject.velocity (Game.ball g') = Vec2.of_ints (-450) (-300)
    /\ Vec2.Y (BallObject.velocity (Game.ball g')) <> Vec2.Y initialBallVelocity.
Proof.
  eexists _, _. split; [vm_compute; reflexivity |].
  vm_compute. repeat split; discriminate.
Qed.

(** C1, amended: an [Update] in state [Active] in which the ball, once
    moved, has [position.x <= 0] returns; the right player's score
    ([paddle2Score]) is one more than before and the left player's is
    unchanged; the ball is at the window centre
    [(float32(width/2), float32(height/2))] and its velocity is the
    initial velocity with both components negated, (-450, -300). *)
Theorem Update_left_exit (g : Game.t) (deltaTime : F64.t) (G : Globals) :
  Game.state g = gameActive ->
  pool_ok (Game.particles g) G ->
  Int.min_int <= Game.paddle2Score g < Int.max_int ->
  F32.leb (Vec2.X (BallObject.position
                     (BallObject.Move (Game.ball g) deltaTime (Game.width g) (Game.height g))))
    F32.zero = true ->
  exists g' G',
    Game.Update g deltaTime G = Some (g', G')
    /\ Game.paddle2Score g' = Game.paddle2Score g + 1
    /\ Game.paddle1Score g' = Game.paddle1Score g
    /\ BallObject.position (Game.ball g') = Game.center (Game.width g) (Game.height g)
    /\ BallObject.velocity (Game.ball g')
       = Vec2.mk (F32.neg (Vec2.X initialBallVelocity)) (F32.neg (Vec2.Y initialBallVelocity))
    /\ BallObject.velocity (Game.ball g') = Vec2.of_ints (-450) (-300).
Proof.
  intros Hstate Hok Hscore Hleft.
  destruct (Update_active g deltaTime G Hstate Hok)
    as (g4 & G4 & Hupd & Hball & _ & Hw & Hh & Hs1 & Hs2 & _).
  exists (Game.check_win (Game.check_loss g4)), G4. split; [exact Hupd |].
  destruct (check_win_scores (Game.check_loss g4)) as (-> & -> & ->).
  unfold Game.check_loss. rewrite Hball, ball_in_play_position, Hleft. cbn.
  rewrite Hs1, Hs2, Hw, Hh. unfold Int.add. rewrite wrap_small.
  - repeat split; reflexivity.
  - unfold Int.in_range, Int.min_int, Int.max_int in *. lia.
Qed.

Lemma Update_left_exit_witness :
  exists g' G',
    Game.Update game_left_edge frame16 (initial_globals sevens) = Some (g', G')
    /\ Game.paddle2Score g' = Game.paddle2Score game_left_edge + 1
    /\ Game.paddle1Score g' = Game.paddle1Score game_left_edge
    /\ BallObject.position (Game.ball g')
       = Game.center (Game.width game_left_edge) (Game.height game_left_edge)
    /\ BallObject.velocity (Game.ball g')
       = Vec2.mk (F32.neg (Vec2.X initialBallVelocity)) (F32.neg (Vec2.Y initialBallVelocity))
    /\ BallObject.velocity (Game.ball g') = Vec2.of_ints (-450) (-300).
Proof.
  apply (Update_left_exit game_left_edge frame16 (initial_globals sevens)).
  - reflexivity.
  - split; [reflexivity | cbn; lia].
  - unfold Int.min_int, Int.max_int. cbn. lia.
  - vm_compute. reflexivity.
Defined.

(** ** Winning *)

Lemma Updates_win (g : Game.t) (G : Globals) (deltaTimes : list F64.t) :
  Game.state g = gameWin -> Updates g deltaTimes G = Some (g, G).
Proof.
  intros Hstate. induction deltaTimes as [| deltaTime rest IH]; cbn [Updates].
  - reflexivity.
  - unfold bind, Game.Update. rewrite Hstate. cbn [ret]. exact IH.
Qed.



(** The 9:9 game through three frames: the first gives the right player
    the tenth point and ends the match; the next two change nothing.  A
    game won at 12:9 is left alone as well. *)
Example Updates_after_match_point :
  exists g' G',
    Updates game_left_edge [frame16; frame16; frame16] (initial_globals sevens)
    = Some (g', G')
    /\ Game.Update game_left_edge frame16 (initial_globals sevens) = Some (g', G')
    /\ Game.state g' = gameWin
    /\ (Game.paddle1Score g', Game.paddle2Score g') = (9, 10).
Proof.
  eexists _, _. split; [vm_compute; reflexivity |].
  split; [vm_compute; reflexivity |]. vm_compute. split; reflexivity.
Qed.

Example Updates_game_won :
  Game.state game_won = gameWin
  /\ Updates game_won [frame16; half_second] (initial_globals sevens)
     = Some (game_won, initial_globals sevens).
Proof. split; [reflexivity |]. apply Updates_win. reflexivity. Qed.

(** ** The steps of [Update] *)

Lemma Update_keeps_size (pg : ParticleGenerator.t) (G : Globals) (deltaTime : F64.t)
    (object : GameObject.t) (newParticles : Z) (offset : Vec2.t) :
  pool_ok pg G ->
  exists pg' G',
    ParticleGenerator.Update pg deltaTime object newParticles offset G = Some (pg', G')
    /\ pool_ok pg' G'
    /\ length (ParticleGenerator.particles pg') = length (ParticleGenerator.particles pg)
    /\ ParticleGenerator.amount pg' = ParticleGenerator.amount pg
    /\ shakeTime G' = shakeTime G.
Proof.
  intros Hok. unfold ParticleGenerator.Update, ParticleGenerator.spawn, for_range, bind.
  destruct (spawn_loop_total object offset (Z.to_nat (newParticles - 0)) 0 pg G Hok)
    as (pg1 & G1 & Hrun & Hok1 & Hlen & Ham & Hsh).
  rewrite Hrun. rewrite age_eq by apply Hok1.
  eexists _, _. split; [reflexivity |].
  cbn [ParticleGenerator.particles ParticleGenerator.amount]. rewrite length_map.
  destruct Hok1 as [Hl Hc]. split; [| auto].
  split; cbn; [rewrite length_map; exact Hl | exact Hc].
Qed.

Lemma reduce_shake_eq (g : Game.t) (deltaTime : F64.t) (G : Globals) :
  exists g',
    Game.reduce_shake g deltaTime G
    = Some (g', set_shakeTime G (timer_after (shakeTime G) deltaTime))
    /\ PostProcessor.shake (Game.effects g')
       = shake_after (PostProcessor.shake (Game.effects g)) (shakeTime G) deltaTime
    /\ PostProcessor.chaos (Game.effects g') = PostProcessor.chaos (Game.effects g)
    /\ PostProcessor.confuse (Game.effects g') = PostProcessor.confuse (Game.effects g)
    /\ Game.set_effects g' (Game.effects g) = g.
Proof.
  unfold Game.reduce_shake, bind, get_globals, put_globals, ret, timer_after, shake_after.
  destruct G as [st cur rnd]. cbn [shakeTime set_shakeTime lastUsedParticle rand].
  destruct g as [s k pk w h pg ef tx p1 p2 b s1 s2]. cbn [Game.effects].
  destruct (F64.gtb st F64.zero).
  - destruct (F64.leb (F64.sub st deltaTime) F64.zero);
      eexists; (split; [reflexivity |]); repeat split; reflexivity.
  - eexists. split; [reflexivity |]. repeat split; reflexivity.
Qed.

(** An [Update] in state [Active], field by field: it returns the loss
    and win checks applied to a game [g4] in which the ball has moved and
    perhaps turned, one particle was spawned and all were aged, and the
    shake timer has run; the rest is as before. *)
Lemma Update_active_full (g : Game.t) (deltaTime : F64.t) (G : Globals) :
  Game.state g = gameActive -> pool_ok (Game.particles g) G ->
  exists g4 G4,
    Game.Update g deltaTime G = Some (Game.check_win (Game.check_loss g4), G4)
    /\ Game.ball g4 = ball_in_play g deltaTime
    /\ Game.state g4 = gameActive
    /\ Game.keys g4 = Game.keys g /\ Game.processedKeys g4 = Game.processedKeys g
    /\ Game.width g4 = Game.width g /\ Game.height g4 = Game.height g
    /\ Game.text g4 = Game.text g
    /\ Game.paddle1Score g4 = Game.paddle1Score g
    /\ Game.paddle2Score g4 = Game.paddle2Score g
    /\ Game.paddle1 g4 = Game.paddle1 g /\ Game.paddle2 g4 = Game.paddle2 g
    /\ pool_ok (Game.particles g4) G4
    /\ length (ParticleGenerator.particles (Game.particles g4))
       = length (ParticleGenerator.particles (Game.particles g))
    /\ PostProcessor.chaos (Game.effects g4) = PostProcessor.chaos (Game.effects g)
    /\ PostProcessor.confuse (Game.effects g4) = PostProcessor.confuse (Game.effects g)
    /\ PostProcessor.shake (Game.effects g4)
       = shake_after (collided (moved g deltaTime) || PostProcessor.shake (Game.effects g))
           (if collided (moved g deltaTime) then F64.c0_1 else shakeTime G) deltaTime
    /\ shakeTime G4
       = timer_after (if collided (moved g deltaTime) then F64.c0_1 else shakeTime G)
           deltaTime.
Proof.
  intros Hstate Hok. unfold Game.Update. rewrite Hstate.
  fold (moved g deltaTime). set (g1 := moved g deltaTime).
  unfold bind at 1. rewrite DoCollisions_eq.
  set (c := collided g1).
  set (g2 := if c then _ else g1).
  set (G2 := if c then _ else G).
  assert (Hg2 : Game.particles g2 = Game.particles g
                /\ Game.ball g2 = ball_in_play g deltaTime
                /\ Game.state g2 = Game.state g
                /\ Game.keys g2 = Game.keys g /\ Game.processedKeys g2 = Game.processedKeys g
                /\ Game.width g2 = Game.width g /\ Game.height g2 = Game.height g
                /\ Game.text g2 = Game.text g
                /\ Game.paddle1Score g2 = Game.paddle1Score g
                /\ Game.paddle2Score g2 = Game.paddle2Score g
                /\ Game.paddle1 g2 = Game.paddle1 g /\ Game.paddle2 g2 = Game.paddle2 g
                /\ PostProcessor.chaos (Game.effects g2) = PostProcessor.chaos (Game.effects g)
                /\ PostProcessor.confuse (Game.effects g2)
                   = PostProcessor.confuse (Game.effects g)
                /\ PostProcessor.shake (Game.effects g2)
                   = c || PostProcessor.shake (Game.effects g)).
  { unfold ball_in_play. fold (moved g deltaTime). fold g1. fold c. subst g2.
    destruct c; repeat split; reflexivity. }
  assert (HG2 : lastUsedParticle G2 = lastUsedParticle G
                /\ shakeTime G2 = if c then F64.c0_1 else shakeTime G).
  { subst G2. destruct c; split; reflexivity. }
  clearbody g2 G2.
  destruct Hg2 as (Hparts & Hball & Hs & Hk & Hpk & Hw & Hh & Ht & Hs1 & Hs2 & Hp1 & Hp2
                   & Hch & Hco & Hsk).
  destruct HG2 as [Hcur2 Hst2].
  assert (Hok2 : pool_ok (Game.particles g2) G2).
  { rewrite Hparts. destruct Hok as [Hl Hc]. split; [exact Hl | rewrite Hcur2; exact Hc]. }
  destruct (Update_keeps_size (Game.particles g2) G2 deltaTime (BallObject.obj (Game.ball g2)) 1
              (Vec2.mk (BallObject.radius (Game.ball g2)) (BallObject.radius (Game.ball g2)))
              Hok2) as (pg' & G3 & Hpg & Hok3 & Hlen3 & _ & Hst3).
  unfold bind at 1. rewrite Hpg.
  destruct (reduce_shake_eq (Game.set_particles g2 pg') deltaTime G3)
    as (g4 & Hrs & Hshake & Hchaos & Hconf & Hback).
  unfold bind at 1. rewrite Hrs. unfold ret.
  exists g4, (set_shakeTime G3 (timer_after (shakeTime G3) deltaTime)).
  split; [reflexivity |].
  assert (Hsame : forall (A : Type) (f : Game.t -> A),
             (forall x e, f (Game.set_effects x e) = f x) ->
             f g4 = f (Game.set_particles g2 pg')).
  { intros A f Hf.
    transitivity (f (Game.set_effects g4 (Game.effects (Game.set_particles g2 pg')))).
    - symmetry. apply Hf.
    - rewrite Hback. reflexivity. }
  rewrite (Hsame _ Game.ball), (Hsame _ Game.state), (Hsame _ Game.keys),
    (Hsame _ Game.processedKeys), (Hsame _ Game.width), (Hsame _ Game.height),
    (Hsame _ Game.text), (Hsame _ Game.paddle1Score), (Hsame _ Game.paddle2Score),
    (Hsame _ Game.paddle1), (Hsame _ Game.paddle2), (Hsame _ Game.particles)
    by (intros; reflexivity).
  rewrite Hshake, Hchaos, Hconf. cbn [Game.set_particles Game.ball Game.state Game.keys
    Game.processedKeys Game.width Game.height Game.text Game.paddle1Score Game.paddle2Score
    Game.paddle1 Game.paddle2 Game.particles Game.effects shakeTime set_shakeTime].
  rewrite Hst3, Hst2, Hsk, Hlen3, Hparts.
  repeat split; first [congruence | apply Hok3].
Qed.

Lemma check_loss_frame (g : Game.t) :
  Game.state (Game.check_loss g) = Game.state g
  /\ Game.keys (Game.check_loss g) = Game.keys g
  /\ Game.processedKeys (Game.check_loss g) = Game.processedKeys g
  /\ Game.width (Game.check_loss g) = Game.width g
  /\ Game.height (Game.check_loss g) = Game.height g
  /\ Game.particles (Game.check_loss g) = Game.particles g
  /\ Game.effects (Game.check_loss g) = Game.effects g
  /\ Game.text (Game.check_loss g) = Game.text g
  /\ Game.paddle1 (Game.check_loss g) = Game.paddle1 g
  /\ Game.paddle2 (Game.check_loss g) = Game.paddle2 g.
Proof.
  unfold Game.check_loss.
  destruct (F32.leb _ _); [| destruct (F32.geb _ _)]; repeat split; reflexivity.
Qed.

Lemma check_win_frame (g : Game.t) :
  Game.keys (Game.check_win g) = Game.keys g
  /\ Game.processedKeys (Game.check_win g) = Game.processedKeys g
  /\ Game.width (Game.check_win g) = Game.width g
  /\ Game.height (Game.check_win g) = Game.height g
  /\ Game.particles (Game.check_win g) = Game.particles g
  /\ Game.effects (Game.check_win g) = Game.effects g
  /\ Game.text (Game.check_win g) = Game.text g
  /\ Game.paddle1 (Game.check_win g) = Game.paddle1 g
  /\ Game.paddle2 (Game.check_win g) = Game.paddle2 g
  /\ Game.ball (Game.check_win g) = Game.ball g
  /\ Game.paddle1Score (Game.check_win g) = Game.paddle1Score g
  /\ Game.paddle2Score (Game.check_win g) = Game.paddle2Score g.
Proof. unfold Game.check_win. destruct (_ || _); repeat split; reflexivity. Qed.

(** ** Points *)

Lemma ball_in_play_size (g : Game.t) (deltaTime : F64.t) :
  BallObject.size (ball_in_play g deltaTime) = BallObject.size (Game.ball g).
Proof.
  unfold ball_in_play, BallObject.Move.
  destruct (collided _); cbn [Game.ball Game.set_ball];
    destruct (negb _); try reflexivity;
    destruct (F32.leb _ _); try reflexivity; destruct (F32.geb _ _); reflexivity.
Qed.

(** X1: the right exit, the mirror image of the left one.  An [Update]
    in state [Active] in which the moved ball does not have
    [position.x <= 0] and has [position.x + size.x >= float32(width)]
    returns; the left player's score ([paddle1Score]) is one more than
    before, the right player's is unchanged, the ball is at the window
    centre and is served with the initial velocity (450, 300). *)
Theorem Update_right_exit (g : Game.t) (deltaTime : F64.t) (G : Globals) :
  Game.state g = gameActive ->
  pool_ok (Game.particles g) G ->
  Int.min_int <= Game.paddle1Score g < Int.max_int ->
  let p := BallObject.position
             (BallObject.Move (Game.ball g) deltaTime (Game.width g) (Game.height g)) in
  F32.leb (Vec2.X p) F32.zero = false ->
  F32.geb (F32.add (Vec2.X p) (Vec2.X (BallObject.size (Game.ball g))))
          (F32.of_int (Game.width g)) = true ->
  exists g' G',
    Game.Update g deltaTime G = Some (g', G')
    /\ Game.paddle1Score g' = Game.paddle1Score g + 1
    /\ Game.paddle2Score g' = Game.paddle2Score g
    /\ BallObject.position (Game.ball g') = Game.center (Game.width g) (Game.height g)
    /\ BallObject.velocity (Game.ball g') = initialBallVelocity.
Proof.
  intros Hstate Hok Hscore p Hleft Hright.
  destruct (Update_active g deltaTime G Hstate Hok)
    as (g4 & G4 & Hupd & Hball & _ & Hw & Hh & Hs1 & Hs2 & _).
  exists (Game.check_win (Game.check_loss g4)), G4. split; [exact Hupd |].
  destruct (check_win_scores (Game.check_loss g4)) as (-> & -> & ->).
  unfold Game.check_loss. rewrite Hball, ball_in_play_position, ball_in_play_size.
  fold p. rewrite Hleft, Hw, Hright. cbn.
  rewrite Hs1, Hs2, Hw, Hh. unfold Int.add. rewrite wrap_small.
  - repeat split; reflexivity.
  - unfold Int.in_range, Int.min_int, Int.max_int in *. lia.
Qed.

Lemma Update_right_exit_witness :
  exists g' G',
    Game.Update game_right_edge frame16 (initial_globals sevens) = Some (g', G')
    /\ Game.paddle1Score g' = Game.paddle1Score game_right_edge + 1
    /\ Game.paddle2Score g' = Game.paddle2Score game_right_edge
    /\ BallObject.position (Game.ball g')
       = Game.center (Game.width game_right_edge) (Game.height game_right_edge)
    /\ BallObject.velocity (Game.ball g') = initialBallVelocity.
Proof.
  apply (Update_right_exit game_right_edge frame16 (initial_globals sevens)).
  - reflexivity.
  - split; [reflexivity | cbn; lia].
  - unfold Int.min_int, Int.max_int. cbn. lia.
  - vm_compute. reflexivity.
  - vm_compute. reflexivity.
Defined.

(** X2: an [Update] in state [Active] gives at most one point.  It
    returns, leaves the state [Active] or [Win], and either both scores
    are as before and the ball is the moved one, or exactly one score is
    one more than before and the ball is at the window centre.  Keys,
    window size and paddles are as before. *)
Theorem Update_one_point (g : Game.t) (deltaTime : F64.t) (G : Globals) :
  Game.state g = gameActive ->
  pool_ok (Game.particles g) G ->
  Int.min_int <= Game.paddle1Score g < Int.max_int ->
  Int.min_int <= Game.paddle2Score g < Int.max_int ->
  exists g' G',
    Game.Update g deltaTime G = Some (g', G')
    /\ (Game.state g' = gameActive \/ Game.state g' = gameWin)
    /\ ((Game.paddle1Score g' = Game.paddle1Score g
         /\ Game.paddle2Score g' = Game.paddle2Score g
         /\ Game.ball g' = ball_in_play g deltaTime)
        \/ (Game.paddle1Score g' = Game.paddle1Score g
            /\ Game.paddle2Score g' = Game.paddle2Score g + 1
            /\ BallObject.position (Game.ball g')
               = Game.center (Game.width g) (Game.height g))
        \/ (Game.paddle1Score g' = Game.paddle1Score g + 1
            /\ Game.paddle2Score g' = Game.paddle2Score g
            /\ BallObject.position (Game.ball g')
               = Game.center (Game.width g) (Game.height g)))
    /\ Game.keys g' = Game.keys g
    /\ Game.width g' = Game.width g /\ Game.height g' = Game.height g
    /\ Game.paddle1 g' = Game.paddle1 g /\ Game.paddle2 g' = Game.paddle2 g.
Proof.
  intros Hstate Hok Hr1 Hr2.
  destruct (Update_active_full g deltaTime G Hstate Hok)
    as (g4 & G4 & Hupd & Hball & Hs4 & Hk & _ & Hw & Hh & _ & Hs1 & Hs2 & Hp1 & Hp2 & _).
  exists (Game.check_win (Game.check_loss g4)), G4. split; [exact Hupd |].
  destruct (check_win_frame (Game.check_loss g4))
    as (-> & _ & -> & -> & _ & _ & _ & -> & -> & -> & -> & ->).
  destruct (check_loss_frame g4) as (Hls & -> & _ & -> & -> & _ & _ & _ & -> & ->).
  split.
  { unfold Game.check_win. destruct (_ || _); cbn; [right; reflexivity | left; congruence]. }
  split; [| repeat split; assumption].
  assert (Hw1 : Int.add (Game.paddle1Score g) 1 = Game.paddle1Score g + 1).
  { unfold Int.add. apply wrap_small.
    unfold Int.in_range, Int.min_int, Int.max_int in *. lia. }
  assert (Hw2 : Int.add (Game.paddle2Score g) 1 = Game.paddle2Score g + 1).
  { unfold Int.add. apply wrap_small.
    unfold Int.in_range, Int.min_int, Int.max_int in *. lia. }
  unfold Game.check_loss.
  destruct (F32.leb _ _); [| destruct (F32.geb _ _)]; cbn; rewrite ?Hs1, ?Hs2, ?Hw, ?Hh.
  - right. left. rewrite Hw2. repeat split; reflexivity.
  - right. right. rewrite Hw1. repeat split; reflexivity.
  - left. repeat split; assumption.
Qed.

Lemma Update_one_point_witness :
  exists g' G',
    Game.Update game_right_edge frame16 (initial_globals sevens) = Some (g', G')
    /\ (Game.state g' = gameActive \/ Game.state g' = gameWin)
    /\ ((Game.paddle1Score g' = Game.paddle1Score game_right_edge
         /\ Game.paddle2Score g' = Game.paddle2Score game_right_edge
         /\ Game.ball g' = ball_in_play game_right_edge frame16)
        \/ (Game.paddle1Score g' = Game.paddle1Score game_right_edge
            /\ Game.paddle2Score g' = Game.paddle2Score game_right_edge + 1
            /\ BallObject.position (Game.ball g')
               = Game.center (Game.width game_right_edge) (Game.height game_right_edge))
        \/ (Game.paddle1Score g' = Game.paddle1Score game_right_edge + 1
            /\ Game.paddle2Score g' = Game.paddle2Score game_right_edge
            /\ BallObject.position (Game.ball g')
               = Game.center (Game.width game_right_edge) (Game.height game_right_edge)))
    /\ Game.keys g' = Game.keys game_right_edge
    /\ Game.width g' = Game.width game_right_edge
    /\ Game.height g' = Game.height game_right_edge
    /\ Game.paddle1 g' = Game.paddle1 game_right_edge
    /\ Game.paddle2 g' = Game.paddle2 game_right_edge.
Proof.
  apply (Update_one_point game_right_edge frame16 (initial_globals sevens)).
  - reflexivity.
  - split; [reflexivity | cbn; lia].
  - unfold Int.min_int, Int.max_int. cbn. lia.
  - unfold Int.min_int, Int.max_int. cbn. lia.
Defined.

(** ** Paddles *)

Lemma SFsub_as_add (prec emax : Z) (x y : spec_float) :
  SFsub prec emax x y = SFadd prec emax (SFopp y) x.
Proof.
  destruct x as [[] | [] | | sx mx ex], y as [[] | [] | | sy my ey]; try reflexivity.
  cbn [SFsub SFadd SFopp]. rewrite (Z.min_comm ey ex). f_equal.
  destruct sx, sy; cbn [cond_Zopp negb]; lia.
Qed.

Lemma F32_sub_bound (y d : F32.t) :
  F32.valid d = true -> F32.is_finite d = true -> F32.leb F32.zero y = true ->
  F32.leb (F32.neg d) (F32.sub y d) = true.
Proof.
  intros Hvalid Hfin Hy. unfold F32.leb, F32.sub, F32.neg. rewrite SFsub_as_add.
  apply SFadd_nonneg_ge.
  - unfold F32.prec. lia.
  - destruct d; try discriminate Hfin; exact Hvalid.
  - destruct d; try discriminate Hfin; exact I.
  - exact Hy.
Qed.

(** X3: [ProcessInput] in state [Active] moves nothing but the paddles
    along y: state, keys, scores, ball, particles and effects are as
    before, and so are the x position, the size and the velocity of each
    paddle.  A paddle neither of whose keys is down stays as it is. *)
Theorem ProcessInput_active_moves_paddles_only (g : Game.t) (deltaTime : F64.t) :
  Game.state g = gameActive ->
  let g' := Game.ProcessInput g deltaTime in
  Game.state g' = gameActive
  /\ Game.keys g' = Game.keys g /\ Game.processedKeys g' = Game.processedKeys g
  /\ Game.paddle1Score g' = Game.paddle1Score g
  /\ Game.paddle2Score g' = Game.paddle2Score g
  /\ Game.ball g' = Game.ball g /\ Game.particles g' = Game.particles g
  /\ Game.effects g' = Game.effects g
  /\ Game.width g' = Game.width g /\ Game.height g' = Game.height g
  /\ Vec2.X (GameObject.position (Game.paddle1 g'))
     = Vec2.X (GameObject.position (Game.paddle1 g))
  /\ Vec2.X (GameObject.position (Game.paddle2 g'))
     = Vec2.X (GameObject.position (Game.paddle2 g))
  /\ GameObject.size (Game.paddle1 g') = GameObject.size (Game.paddle1 g)
  /\ GameObject.size (Game.paddle2 g') = GameObject.size (Game.paddle2 g)
  /\ GameObject.velocity (Game.paddle1 g') = GameObject.velocity (Game.paddle1 g)
  /\ GameObject.velocity (Game.paddle2 g') = GameObject.velocity (Game.paddle2 g)
  /\ (Game.pressed g Key.KeyW = false -> Game.pressed g Key.KeyS = false ->
      Game.paddle1 g' = Game.paddle1 g)
  /\ (Game.pressed g Key.KeyUp = false -> Game.pressed g Key.KeyDown = false ->
      Game.paddle2 g' = Game.paddle2 g).
Proof.
  intros Hstate g'. subst g'. unfold Game.ProcessInput. rewrite Hstate.
  destruct g as [s k pk w h pg ef tx p1 p2 b s1 s2]. unfold Game.pressed.
  cbn in Hstate. subst s.
  cbn [Game.keys Game.paddle1 Game.paddle2 Game.set_paddle1 Game.set_paddle2 Game.height
       Game.state Game.processedKeys Game.paddle1Score Game.paddle2Score Game.ball
       Game.particles Game.effects Game.width].
  unfold Game.paddle_up, Game.paddle_down. cbn [Game.height].
  destruct (default false (k !! Key.KeyW));
    cbn [Game.keys Game.paddle1 Game.paddle2 Game.set_paddle1 Game.set_paddle2 Game.height];
    destruct (default false (k !! Key.KeyS));
    cbn [Game.keys Game.paddle1 Game.paddle2 Game.set_paddle1 Game.set_paddle2 Game.height];
    destruct (default false (k !! Key.KeyUp));
    cbn [Game.keys Game.paddle1 Game.paddle2 Game.set_paddle1 Game.set_paddle2 Game.height];
    destruct (default false (k !! Key.KeyDown));
    cbn [Game.keys Game.paddle1 Game.paddle2 Game.set_paddle1 Game.set_paddle2 Game.height
         Game.state Game.processedKeys Game.paddle1Score Game.paddle2Score Game.ball
         Game.particles Game.effects Game.width];
    repeat match goal with
           | |- context [if ?c then _ else _] => destruct c
           end;
    repeat split; intros; try reflexivity; try congruence.
Qed.

Lemma ProcessInput_active_moves_paddles_only_witness :
  let g' := Game.ProcessInput game_keys_up frame16 in
  Game.state g' = gameActive
  /\ Game.keys g' = Game.keys game_keys_up
  /\ Game.processedKeys g' = Game.processedKeys game_keys_up
  /\ Game.paddle1Score g' = Game.paddle1Score game_keys_up
  /\ Game.paddle2Score g' = Game.paddle2Score game_keys_up
  /\ Game.ball g' = Game.ball game_keys_up /\ Game.particles g' = Game.particles game_keys_up
  /\ Game.effects g' = Game.effects game_keys_up
  /\ Game.width g' = Game.width game_keys_up /\ Game.height g' = Game.height game_keys_up
  /\ Vec2.X (GameObject.position (Game.paddle1 g'))
     = Vec2.X (GameObject.position (Game.paddle1 game_keys_up))
  /\ Vec2.X (GameObject.position (Game.paddle2 g'))
     = Vec2.X (GameObject.position (Game.paddle2 game_keys_up))
  /\ GameObject.size (Game.paddle1 g') = GameObject.size (Game.paddle1 game_keys_up)
  /\ GameObject.size (Game.paddle2 g') = GameObject.size (Game.paddle2 game_keys_up)
  /\ GameObject.velocity (Game.paddle1 g') = GameObject.velocity (Game.paddle1 game_keys_up)
  /\ GameObject.velocity (Game.paddle2 g') = GameObject.velocity (Game.paddle2 game_keys_up)
  /\ (Game.pressed game_keys_up Key.KeyW = false ->
      Game.pressed game_keys_up Key.KeyS = false ->
      Game.paddle1 g' = Game.paddle1 game_keys_up)
  /\ (Game.pressed game_keys_up Key.KeyUp = false ->
      Game.pressed game_keys_up Key.KeyDown = false ->
      Game.paddle2 g' = Game.paddle2 game_keys_up).
Proof.
  apply (ProcessInput_active_moves_paddles_only game_keys_up frame16). reflexivity.
Defined.

(** X4: the guard of the upward move looks at the position before the
    move.  In state [Active] with W down and S up, for a step
    [deltaSpace] that is a finite [float32]: a left paddle with
    [position.y >= 0] moves up by one step and ends at or below one step
    above the top edge ([position.y >= -deltaSpace]); a left paddle
    without [position.y >= 0] does not move.  The same holds for the
    right paddle with the Up and Down keys. *)
Theorem ProcessInput_up_overshoot (g : Game.t) (deltaTime : F64.t) :
  Game.state g = gameActive ->
  F32.valid (deltaSpace deltaTime) = true ->
  F32.is_finite (deltaSpace deltaTime) = true ->
  let g' := Game.ProcessInput g deltaTime in
  let y1 := Vec2.Y (GameObject.position (Game.paddle1 g)) in
  let y2 := Vec2.Y (GameObject.position (Game.paddle2 g)) in
  let y1' := Vec2.Y (GameObject.position (Game.paddle1 g')) in
  let y2' := Vec2.Y (GameObject.position (Game.paddle2 g')) in
  (Game.pressed g Key.KeyW = true -> Game.pressed g Key.KeyS = false ->
   (F32.geb y1 F32.zero = true ->
    y1' = F32.sub y1 (deltaSpace deltaTime)
    /\ F32.geb y1' (F32.neg (deltaSpace deltaTime)) = true)
   /\ (F32.geb y1 F32.zero = false -> y1' = y1))
  /\ (Game.pressed g Key.KeyUp = true -> Game.pressed g Key.KeyDown = false ->
      (F32.geb y2 F32.zero = true ->
       y2' = F32.sub y2 (deltaSpace deltaTime)
       /\ F32.geb y2' (F32.neg (deltaSpace deltaTime)) = true)
      /\ (F32.geb y2 F32.zero = false -> y2' = y2)).
Proof.
  intros Hstate Hvalid Hfin g' y1 y2 y1' y2'. subst g' y1 y2 y1' y2'.
  unfold Game.ProcessInput. rewrite Hstate. fold (deltaSpace deltaTime).
  set (d := deltaSpace deltaTime) in *. clearbody d.
  destruct g as [s k pk w h pg ef tx p1 p2 b s1 s2]. unfold Game.pressed.
  cbn [Game.keys Game.paddle1 Game.paddle2 Game.set_paddle1 Game.set_paddle2 Game.height].
  destruct (default false (k !! Key.KeyW));
    cbn [Game.keys Game.paddle1 Game.paddle2 Game.set_paddle1 Game.set_paddle2 Game.height];
    destruct (default false (k !! Key.KeyS));
    cbn [Game.keys Game.paddle1 Game.paddle2 Game.set_paddle1 Game.set_paddle2 Game.height];
    destruct (default false (k !! Key.KeyUp));
    cbn [Game.keys Game.paddle1 Game.paddle2 Game.set_paddle1 Game.set_paddle2 Game.height];
    destruct (default false (k !! Key.KeyDown));
    cbn [Game.keys Game.paddle1 Game.paddle2 Game.set_paddle1 Game.set_paddle2 Game.height];
    (split; intros Hup Hdown; try discriminate);
    unfold Game.paddle_up;
    (split; intros Hy; rewrite Hy; cbn; [| reflexivity]);
    (split; [reflexivity |]); apply F32_sub_bound; assumption.
Qed.

Lemma ProcessInput_up_overshoot_witness :
  let g' := Game.ProcessInput game_keys_up frame16 in
  let y1 := Vec2.Y (GameObject.position (Game.paddle1 game_keys_up)) in
  let y2 := Vec2.Y (GameObject.position (Game.paddle2 game_keys_up)) in
  let y1' := Vec2.Y (GameObject.position (Game.paddle1 g')) in
  let y2' := Vec2.Y (GameObject.position (Game.paddle2 g')) in
  (Game.pressed game_keys_up Key.KeyW = true -> Game.pressed game_keys_up Key.KeyS = false ->
   (F32.geb y1 F32.zero = true ->
    y1' = F32.sub y1 (deltaSpace frame16)
    /\ F32.geb y1' (F32.neg (deltaSpace frame16)) = true)
   /\ (F32.geb y1 F32.zero = false -> y1' = y1))
  /\ (Game.pressed game_keys_up Key.KeyUp = true ->
      Game.pressed game_keys_up Key.KeyDown = false ->
      (F32.geb y2 F32.zero = true ->
       y2' = F32.sub y2 (deltaSpace frame16)
       /\ F32.geb y2' (F32.neg (deltaSpace frame16)) = true)
      /\ (F32.geb y2 F32.zero = false -> y2' = y2)).
Proof.
  apply (ProcessInput_up_overshoot game_keys_up frame16); reflexivity.
Defined.

(** The left paddle of [game_keys_up] stands 3 pixels below the top
    edge; one frame with W down puts it 5 pixels above the edge, and the
    next frame leaves it there. *)
Example paddle_overshoots_once :
  let g1 := Game.ProcessInput game_keys_up frame16 in
  let g2 := Game.ProcessInput g1 frame16 in
  Vec2.Y (GameObject.position (Game.paddle1 g1)) = F32.of_int (-5)
  /\ Game.paddle1 g2 = Game.paddle1 g1.
Proof. vm_compute. split; reflexivity. Qed.

(** ** Objects that are nowhere *)

Lemma SFleb_nan_r (x : spec_float) : SFleb x S754_nan = false.
Proof. destruct x as [[] | [] | | [] m e]; reflexivity. Qed.

Lemma SFadd_nan_l (prec emax : Z) (x : spec_float) : SFadd prec emax S754_nan x = S754_nan.
Proof. destruct x as [[] | [] | | [] m e]; reflexivity. Qed.

Lemma SFadd_nan_r (prec emax : Z) (x : spec_float) : SFadd prec emax x S754_nan = S754_nan.
Proof. destruct x as [[] | [] | | [] m e]; reflexivity. Qed.

Lemma is_nan_eq (x : F32.t) : F32.is_nan x = true -> x = S754_nan.
Proof. destruct x; try discriminate; reflexivity. Qed.

(** X5: an object one of whose coordinates or sizes is a NaN collides
    with nothing, whichever side of the test it is on. *)
Theorem CheckCollision_nan (a b : GameObject.t) :
  F32.is_nan (Vec2.X (GameObject.position a)) = true
  \/ F32.is_nan (Vec2.Y (GameObject.position a)) = true
  \/ F32.is_nan (Vec2.X (GameObject.size a)) = true
  \/ F32.is_nan (Vec2.Y (GameObject.size a)) = true ->
  GameObject.CheckCollision a b = false /\ GameObject.CheckCollision b a = false.
Proof.
  intros H.
  assert (Hab : GameObject.CheckCollision a b = false).
  { unfold GameObject.CheckCollision, GameObject.collisionX, GameObject.collisionY,
      F32.geb, F32.add.
    destruct H as [H | [H | [H | H]]]; apply is_nan_eq in H; rewrite H;
      rewrite ?SFadd_nan_l, ?SFadd_nan_r, ?SFleb_nan_r, ?andb_false_r; reflexivity. }
  split; [exact Hab |].
  unfold GameObject.CheckCollision. rewrite (collisionX_sym b a), (collisionY_sym b a).
  exact Hab.
Qed.

Lemma CheckCollision_nan_witness :
  GameObject.CheckCollision lost left_paddle = false
  /\ GameObject.CheckCollision left_paddle lost = false.
Proof.
  apply (CheckCollision_nan lost left_paddle). left. reflexivity.
Defined.

(** ** The order of the search *)

(** X6: [firstUnusedParticle] searches from the cursor first.  If a free
    slot lies at or after the cursor, the answer is the first of them;
    if none does, the answer is the first free slot of the pool. *)
Theorem firstUnusedParticle_first_free (pg : ParticleGenerator.t) (G : Globals) :
  pool_ok pg G ->
  exists i,
    ParticleGenerator.firstUnusedParticle pg G = Some (i, set_lastUsedParticle G i)
    /\ (forall j, lastUsedParticle G <= j -> free_at (ParticleGenerator.particles pg) j ->
        lastUsedParticle G <= i <= j /\ free_at (ParticleGenerator.particles pg) i)
    /\ ((forall j, lastUsedParticle G <= j < ParticleGenerator.amount pg ->
                   taken_at (ParticleGenerator.particles pg) j) ->
        forall j, free_at (ParticleGenerator.particles pg) j ->
                  0 <= i <= j /\ i < lastUsedParticle G
                  /\ free_at (ParticleGenerator.particles pg) i).
Proof.
  intros [Hlen Hcur]. unfold ParticleGenerator.firstUnusedParticle, bind, get_globals, lift_option.
  set (ps := ParticleGenerator.particles pg) in *.
  set (c := lastUsedParticle G) in *.
  set (M := ParticleGenerator.amount pg) in *.
  assert (Hin : forall j, free_at ps j -> 0 <= j < M).
  { intros j (p & Hp & _). apply index_bounds in Hp. lia. }
  destruct (ParticleGenerator.scan ps c (Z.to_nat (M - c))) as [[i|]|] eqn:H1.
  - apply scan_found in H1 as (Hi & Hfree & Hbefore).
    exists i. cbn. split; [reflexivity |]. split.
    + intros j Hj Hfj. split; [| exact Hfree]. split; [lia |].
      destruct (Z.le_gt_cases i j) as [Hle | Hgt]; [exact Hle |].
      exfalso. apply (free_not_taken ps j Hfj). apply Hbefore. lia.
    + intros Hall j Hfj. exfalso. apply (free_not_taken ps i Hfree). apply Hall. lia.
  - cbn. pose proof (scan_exhausted _ _ _ H1) as Hhi.
    assert (Hlow : forall j, free_at ps j -> j < c).
    { intros j Hfj. destruct (Z.lt_ge_cases j c) as [Hlt | Hge]; [exact Hlt |].
      exfalso. apply (free_not_taken ps j Hfj). apply Hhi. specialize (Hin j Hfj). lia. }
    destruct (ParticleGenerator.scan ps 0 (Z.to_nat (c - 0))) as [[i|]|] eqn:H2.
    + apply scan_found in H2 as (Hi & Hfree & Hbefore).
      exists i. cbn. split; [reflexivity |]. split.
      * intros j Hj Hfj. specialize (Hlow j Hfj). lia.
      * intros _ j Hfj. split; [| split; [lia | exact Hfree]]. split; [lia |].
        destruct (Z.le_gt_cases i j) as [Hle | Hgt]; [exact Hle |].
        exfalso. apply (free_not_taken ps j Hfj). apply Hbefore.
        specialize (Hin j Hfj). lia.
    + pose proof (scan_exhausted _ _ _ H2) as Hlo.
      exists 0. cbn. split; [reflexivity |]. split.
      * intros j Hj Hfj. specialize (Hlow j Hfj). lia.
      * intros _ j Hfj. exfalso. apply (free_not_taken ps j Hfj). apply Hlo.
        specialize (Hlow j Hfj). specialize (Hin j Hfj). lia.
    + exfalso. apply (scan_total ps (Z.to_nat (c - 0)) 0); [lia | lia | exact H2].
  - exfalso. apply (scan_total ps (Z.to_nat (M - c)) c); [lia | lia | exact H1].
Qed.

Lemma firstUnusedParticle_first_free_witness :
  exists i,
    ParticleGenerator.firstUnusedParticle mixed_pool
      (set_lastUsedParticle (initial_globals sevens) 1)
    = Some (i, set_lastUsedParticle (set_lastUsedParticle (initial_globals sevens) 1) i)
    /\ (forall j, lastUsedParticle (set_lastUsedParticle (initial_globals sevens) 1) <= j ->
        free_at (ParticleGenerator.particles mixed_pool) j ->
        lastUsedParticle (set_lastUsedParticle (initial_globals sevens) 1) <= i <= j
        /\ free_at (ParticleGenerator.particles mixed_pool) i)
    /\ ((forall j, lastUsedParticle (set_lastUsedParticle (initial_globals sevens) 1) <= j
                   < ParticleGenerator.amount mixed_pool ->
                   taken_at (ParticleGenerator.particles mixed_pool) j) ->
        forall j, free_at (ParticleGenerator.particles mixed_pool) j ->
                  0 <= i <= j
                  /\ i < lastUsedParticle (set_lastUsedParticle (initial_globals sevens) 1)
                  /\ free_at (ParticleGenerator.particles mixed_pool) i).
Proof.
  apply (firstUnusedParticle_first_free mixed_pool
           (set_lastUsedParticle (initial_globals sevens) 1)).
  split; [reflexivity | cbn; lia].
Defined.

(** With the cursor on the slot in use, the search passes the free slot 0
    behind it and answers 2. *)
Example firstUnusedParticle_mixed :
  ParticleGenerator.firstUnusedParticle mixed_pool
    (set_lastUsedParticle (initial_globals sevens) 1)
  = Some (2, set_lastUsedParticle (initial_globals sevens) 2).
Proof. reflexivity. Qed.

(** ** A pool without particles *)

Lemma scan_nil (i : Z) (n : nat) :
  ParticleGenerator.scan [] i n = None \/ ParticleGenerator.scan [] i n = Some None.
Proof.
  destruct n as [| n]; [right; reflexivity | left].
  cbn [ParticleGenerator.scan]. unfold Int.index. destruct (i <? 0); reflexivity.
Qed.

Lemma spawn_one_nil (object : GameObject.t) (offset : Vec2.t) (k : Z)
    (pg : ParticleGenerator.t) (G : Globals) :
  ParticleGenerator.particles pg = [] ->
  ParticleGenerator.spawn_one object offset k pg G = None.
Proof.
  intros Hnil.
  unfold ParticleGenerator.spawn_one, ParticleGenerator.firstUnusedParticle, bind,
    get_globals, lift_option, put_globals, ret, panic.
  rewrite Hnil.
  destruct (scan_nil (lastUsedParticle G)
              (Z.to_nat (ParticleGenerator.amount pg - lastUsedParticle G))) as [-> | ->];
    [reflexivity |].
  destruct (scan_nil 0 (Z.to_nat (lastUsedParticle G - 0))) as [-> | ->]; reflexivity.
Qed.

(** X7: on a pool without particles, as [newParticleGenerator] builds it
    for an amount of 0 or less, [Update] panics as soon as it is asked
    for one new particle: the slot [firstUnusedParticle] answers is not
    there. *)
Theorem Update_empty_pool_panics (pg : ParticleGenerator.t) (deltaTime : F64.t)
    (object : GameObject.t) (newParticles : Z) (offset : Vec2.t) (G : Globals) :
  ParticleGenerator.particles pg = [] ->
  1 <= newParticles ->
  ParticleGenerator.Update pg deltaTime object newParticles offset G = None.
Proof.
  intros Hnil Hn. unfold ParticleGenerator.Update, ParticleGenerator.spawn, for_range.
  destruct (Z.to_nat (newParticles - 0)) as [| n] eqn:Hk; [lia |].
  unfold bind at 1. cbn [for_n]. unfold bind at 1.
  rewrite (spawn_one_nil object offset 0 pg G Hnil). reflexivity.
Qed.

Lemma Update_empty_pool_panics_witness :
  ParticleGenerator.Update (ParticleGenerator.newParticleGenerator 0) frame16 emitter 1
    (Vec2.of_ints 10 10) (initial_globals sevens) = None.
Proof.
  apply (Update_empty_pool_panics (ParticleGenerator.newParticleGenerator 0) frame16 emitter 1
           (Vec2.of_ints 10 10) (initial_globals sevens)); [reflexivity | lia].
Defined.

(** ** Aging a free slot *)

Lemma rounded_neg_nonpos (prec emax m2 e2 : Z) :
  0 <= m2 ->
  SFleb (rounded prec emax true m2 e2) (S754_zero false) = true
  /\ SFltb (S754_zero false) (rounded prec emax true m2 e2) = false.
Proof.
  intros Hm. destruct m2 as [| p | p]; [| | lia]; cbn [rounded].
  - split; reflexivity.
  - destruct (e2 <=? emax - prec); split; reflexivity.
Qed.

Lemma binary_round_neg_nonpos (prec emax : Z) (m : positive) (e : Z) :
  0 < prec ->
  SFleb (binary_round prec emax true m e) (S754_zero false) = true
  /\ SFltb (S754_zero false) (binary_round prec emax true m e) = false.
Proof.
  intros Hprec.
  destruct (binary_round_spec prec emax true m e) as (m1' & Hm1 & ->).
  apply rounded_neg_nonpos. apply Z.div_pos; [| apply Z.pow_pos_nonneg; lia].
  apply Z.le_trans with (2 := proj1 Hm1).
  destruct (Z.ltb_spec (fexp prec emax (Zdigits2 (Zpos m) + e)) e).
  - apply Z.mul_nonneg_nonneg; [lia | apply Z.pow_nonneg; lia].
  - apply Z.div_pos; [lia | apply Z.pow_pos_nonneg; lia].
Qed.

Lemma SFsub_nonpos (prec emax : Z) (x d : spec_float) :
  0 < prec ->
  SFleb x (S754_zero false) = true -> SFleb (S754_zero false) d = true ->
  SFleb (SFsub prec emax x d) (S754_zero false) = true
  /\ SFltb (S754_zero false) (SFsub prec emax x d) = false.
Proof.
  intros Hprec Hx Hd.
  destruct x as [[] | [] | | [] mx ex]; try discriminate Hx;
    destruct d as [[] | [] | | [] md ed]; try discriminate Hd;
    try (split; reflexivity).
  cbn [SFsub cond_Zopp].
  set (a := fst (shl_align mx ex (Z.min ex ed))).
  set (b := fst (shl_align md ed (Z.min ex ed))).
  replace (- Zpos a - Zpos b) with (Zneg (a + b)) by lia.
  cbn [binary_normalize]. apply binary_round_neg_nonpos. exact Hprec.
Qed.

Lemma age_particle_dead (deltaTime : F64.t) (p : Particle.t) :
  Particle.dead p = true -> F64.leb F64.zero deltaTime = true ->
  ParticleGenerator.age_particle deltaTime p
  = Particle.mk (Particle.position p) (Particle.velocity p) (Particle.color p)
      (F64.sub (Particle.life p) deltaTime)
  /\ Particle.dead (ParticleGenerator.age_particle deltaTime p) = true
  /\ Particle.alive (ParticleGenerator.age_particle deltaTime p) = false.
Proof.
  intros Hdead Hdt.
  destruct (SFsub_nonpos F64.prec F64.emax (Particle.life p) deltaTime) as [Hle Hgt];
    [unfold F64.prec; lia | exact Hdead | exact Hdt |].
  assert (Heq : ParticleGenerator.age_particle deltaTime p
                = Particle.mk (Particle.position p) (Particle.velocity p) (Particle.color p)
                    (F64.sub (Particle.life p) deltaTime)).
  { unfold ParticleGenerator.age_particle, F64.gtb, F64.sub, F64.zero. rewrite Hgt.
    reflexivity. }
  rewrite Heq. split; [reflexivity |]. split; [exact Hle | exact Hgt].
Qed.

(** X8: the aging loop of [Update] never revives a particle.  For a frame
    time that is not negative, a particle with [life <= 0.0] has
    [life <= 0.0] after the loop as well, is not among the particles
    [Draw] draws, and keeps its position, velocity and colour. *)
Theorem age_keeps_dead (pg : ParticleGenerator.t) (deltaTime : F64.t) (G : Globals) :
  ParticleGenerator.amount pg = Z.of_nat (length (ParticleGenerator.particles pg)) ->
  F64.leb F64.zero deltaTime = true ->
  exists pg',
    ParticleGenerator.age deltaTime pg G = Some (pg', G)
    /\ length (ParticleGenerator.particles pg') = length (ParticleGenerator.particles pg)
    /\ forall (i : nat) (p : Particle.t),
         ParticleGenerator.particles pg !! i = Some p -> Particle.dead p = true ->
         exists p',
           ParticleGenerator.particles pg' !! i = Some p'
           /\ Particle.dead p' = true /\ Particle.alive p' = false
           /\ Particle.position p' = Particle.position p
           /\ Particle.velocity p' = Particle.velocity p
           /\ Particle.color p' = Particle.color p.
Proof.
  intros Hlen Hdt. eexists. split; [apply age_eq; exact Hlen |].
  cbn [ParticleGenerator.particles]. split; [apply length_map |].
  intros i p Hp Hdead. exists (ParticleGenerator.age_particle deltaTime p).
  split; [rewrite list_lookup_fmap, Hp; reflexivity |].
  destruct (age_particle_dead deltaTime p Hdead Hdt) as (Heq & Hd & Ha).
  split; [exact Hd |]. split; [exact Ha |]. rewrite Heq. repeat split.
Qed.

Lemma age_keeps_dead_witness :
  exists pg',
    ParticleGenerator.age frame16 mixed_pool (initial_globals sevens)
    = Some (pg', initial_globals sevens)
    /\ length (ParticleGenerator.particles pg') = length (ParticleGenerator.particles mixed_pool)
    /\ forall (i : nat) (p : Particle.t),
         ParticleGenerator.particles mixed_pool !! i = Some p -> Particle.dead p = true ->
         exists p',
           ParticleGenerator.particles pg' !! i = Some p'
           /\ Particle.dead p' = true /\ Particle.alive p' = false
           /\ Particle.position p' = Particle.position p
           /\ Particle.velocity p' = Particle.velocity p
           /\ Particle.color p' = Particle.color p.
Proof.
  apply (age_keeps_dead mixed_pool frame16 (initial_globals sevens)); reflexivity.
Defined.

(** ** Text in pieces *)

Lemma render_app (cs : list Character.t) (y scale : F32.t) (s1 s2 : list Z) :
  forall x,
    TextRenderer.render cs x y scale (s1 ++ s2)
    = match TextRenderer.render cs x y scale s1 with
      | None => None
      | Some (ds1, x1) =>
          match TextRenderer.render cs x1 y scale s2 with
          | None => None
          | Some (ds2, x2) => Some (ds1 ++ ds2, x2)
          end
      end.
Proof.
  induction s1 as [| r s1 IH]; intros x; cbn [app TextRenderer.render].
  - destruct (TextRenderer.render cs x y scale s2) as [[ds2 x2] |]; reflexivity.
  - destruct (Int.index cs (TextRenderer.glyph_index r)) as [c |]; [| reflexivity].
    rewrite IH.
    destruct (TextRenderer.render cs _ y scale s1) as [[ds1 x1] |]; [| reflexivity].
    destruct (TextRenderer.render cs x1 y scale s2) as [[ds2 x2] |]; reflexivity.
Qed.

(** X9: rendering a text in two pieces, the second from where the pen
    stands after the first, draws what rendering it in one piece draws,
    and panics when that panics. *)
Theorem RenderText_app (t : TextRenderer.t) (x y scale : F32.t) (color : Vec3.t)
    (s1 s2 : list Z) :
  TextRenderer.RenderText t x y scale color (s1 ++ s2)
  = match TextRenderer.RenderText t x y scale color s1 with
    | None => None
    | Some (ds1, x1) =>
        match TextRenderer.RenderText t x1 y scale color s2 with
        | None => None
        | Some (ds2, x2) => Some (ds1 ++ ds2, x2)
        end
    end.
Proof. unfold TextRenderer.RenderText. apply render_app. Qed.

(** ** The glyphs of a font *)

Lemma glyph_index_eq (r : Z) : loaded r -> TextRenderer.glyph_index r = r - 32.
Proof.
  unfold loaded, TextRenderer.glyph_index, TextRenderer.lowChar, TextRenderer.highChar,
    Int.wrap32.
  intros H. rewrite Z.mod_small; lia.
Qed.

Lemma LoadFont_lookup (makeGlyph : Z -> Character.t) (t : TextRenderer.t) (r : Z) :
  loaded r ->
  Int.index (TextRenderer.chars (TextRenderer.LoadFont makeGlyph t))
    (Z.of_nat (length (TextRenderer.chars t)) + TextRenderer.glyph_index r)
  = Some (makeGlyph r).
Proof.
  intros Hr. rewrite (glyph_index_eq r Hr).
  unfold loaded, TextRenderer.lowChar, TextRenderer.highChar in Hr.
  apply index_Some. split; [lia |].
  unfold TextRenderer.LoadFont. cbn [TextRenderer.chars].
  replace (Z.to_nat (Z.of_nat (length (TextRenderer.chars t)) + (r - 32)))
    with (length (TextRenderer.chars t) + Z.to_nat (r - 32))%nat by lia.
  rewrite lookup_app_r by lia.
  replace (length (TextRenderer.chars t) + Z.to_nat (r - 32) - length (TextRenderer.chars t))%nat
    with (Z.to_nat (r - 32)) by lia.
  rewrite list_lookup_fmap.
  unfold TextRenderer.lowChar, TextRenderer.highChar.
  rewrite lookup_seqZ_lt by lia. cbn. f_equal. f_equal. lia.
Qed.

Lemma render_textures (cs : list Character.t) (glyph : Z -> Character.t) (y scale : F32.t)
    (indices : list Z) :
  (forall r, loaded r -> Int.index cs (TextRenderer.glyph_index r) = Some (glyph r)) ->
  Forall loaded indices ->
  forall x, exists ds xend,
    TextRenderer.render cs x y scale indices = Some (ds, xend)
    /\ map TextRenderer.texture ds = map (fun r => Character.textureID (glyph r)) indices.
Proof.
  intros Hcs Hall. induction Hall as [| r rest Hr _ IH]; intros x; cbn [TextRenderer.render].
  - exists [], x. auto.
  - rewrite (Hcs r Hr).
    destruct (IH (F32.add x
                    (F32.mul (F32.of_int (Int.shr (Character.advance (glyph r)) 6)) scale)))
      as (ds & xend & Hrun & Hds).
    rewrite Hrun. eexists _, _. split; [reflexivity |].
    cbn [map TextRenderer.quad TextRenderer.texture]. rewrite Hds. reflexivity.
Qed.

(** X10: what [LoadFont] loads is what [RenderText] draws.  On a renderer
    with one font loaded, a text whose runes lie in 32..127 is drawn with
    the textures of the glyphs the loader made for these very runes, in
    the order of the text. *)
Theorem RenderText_draws_loaded_glyphs (makeGlyph : Z -> Character.t) (x y scale : F32.t)
    (color : Vec3.t) (indices : list Z) :
  Forall loaded indices ->
  exists ds xend,
    TextRenderer.RenderText (TextRenderer.LoadFont makeGlyph TextRenderer.newTextRenderer)
      x y scale color indices = Some (ds, xend)
    /\ map TextRenderer.texture ds
       = map (fun r => Character.textureID (makeGlyph r)) indices.
Proof.
  intros Hall. unfold TextRenderer.RenderText. apply render_textures; [| exact Hall].
  intros r Hr. exact (LoadFont_lookup makeGlyph TextRenderer.newTextRenderer r Hr).
Qed.

Lemma RenderText_draws_loaded_glyphs_witness :
  exists ds xend,
    TextRenderer.RenderText (TextRenderer.LoadFont boxGlyph TextRenderer.newTextRenderer)
      F32.zero F32.zero F32.one (Vec3.mk F32.one F32.one F32.one) runes_Go = Some (ds, xend)
    /\ map TextRenderer.texture ds
       = map (fun r => Character.textureID (boxGlyph r)) runes_Go.
Proof.
  apply (RenderText_draws_loaded_glyphs boxGlyph F32.zero F32.zero F32.one
           (Vec3.mk F32.one F32.one F32.one) runes_Go).
  unfold runes_Go, loaded, TextRenderer.lowChar, TextRenderer.highChar.
  repeat constructor; lia.
Defined.

(** ** A second font *)

Lemma render_more_chars (cs more : list Character.t) (y scale : F32.t) (indices : list Z) :
  forall x r,
    TextRenderer.render cs x y scale indices = Some r ->
    TextRenderer.render (cs ++ more) x y scale indices = Some r.
Proof.
  induction indices as [| ch rest IH]; intros x r; cbn [TextRenderer.render]; [auto |].
  destruct (Int.index cs (TextRenderer.glyph_index ch)) as [c |] eqn:Hc; [| discriminate].
  assert (Int.index (cs ++ more) (TextRenderer.glyph_index ch) = Some c) as ->.
  { apply index_Some in Hc as [H0 Hc]. apply index_Some. split; [exact H0 |].
    apply lookup_app_l_Some. exact Hc. }
  destruct (TextRenderer.render cs _ y scale rest) as [[ds xend] |] eqn:Hrest;
    [| discriminate].
  intros Hr. rewrite (IH _ _ Hrest). exact Hr.
Qed.

(** X11: [LoadFont] appends to the glyph list, it does not replace it.
    After a second [LoadFont] the list holds 192 glyphs, and a text whose
    runes lie in 32..127 is still drawn with the glyphs of the first
    font, exactly as before the second call. *)
Theorem LoadFont_twice_keeps_first (makeGlyph1 makeGlyph2 : Z -> Character.t)
    (x y scale : F32.t) (color : Vec3.t) (indices : list Z) :
  Forall loaded indices ->
  let t1 := TextRenderer.LoadFont makeGlyph1 TextRenderer.newTextRenderer in
  let t2 := TextRenderer.LoadFont makeGlyph2 t1 in
  length (TextRenderer.chars t2) = 192%nat
  /\ TextRenderer.RenderText t2 x y scale color indices
     = TextRenderer.RenderText t1 x y scale color indices
  /\ TextRenderer.RenderText t1 x y scale color indices <> None.
Proof.
  intros Hall t1 t2. split.
  - unfold t2, TextRenderer.LoadFont at 1. cbn [TextRenderer.chars].
    rewrite length_app, length_map, length_seqZ. unfold t1.
    rewrite LoadFont_length. reflexivity.
  - unfold TextRenderer.RenderText.
    destruct (render_loaded (TextRenderer.chars t1) scale y indices
                (LoadFont_length makeGlyph1) Hall x) as (ds & xend & Hrun & _).
    rewrite Hrun. split; [| discriminate].
    unfold t2, TextRenderer.LoadFont at 1. cbn [TextRenderer.chars].
    apply render_more_chars. exact Hrun.
Qed.

Lemma LoadFont_twice_keeps_first_witness :
  let t1 := TextRenderer.LoadFont boxGlyph TextRenderer.newTextRenderer in
  let t2 := TextRenderer.LoadFont boldGlyph t1 in
  length (TextRenderer.chars t2) = 192%nat
  /\ TextRenderer.RenderText t2 F32.zero F32.zero F32.one
       (Vec3.mk F32.one F32.one F32.one) runes_Go
     = TextRenderer.RenderText t1 F32.zero F32.zero F32.one
         (Vec3.mk F32.one F32.one F32.one) runes_Go
  /\ TextRenderer.RenderText t1 F32.zero F32.zero F32.one
       (Vec3.mk F32.one F32.one F32.one) runes_Go <> None.
Proof.
  apply (LoadFont_twice_keeps_first boxGlyph boldGlyph F32.zero F32.zero F32.one
           (Vec3.mk F32.one F32.one F32.one) runes_Go).
  unfold runes_Go, loaded, TextRenderer.lowChar, TextRenderer.highChar.
  repeat constructor; lia.
Defined.

(** With two fonts loaded, the rune 167 no longer panics: it is drawn
    with the glyph the second font made for the rune 71 (the letter G). *)
Example RenderText_second_font :
  exists ds xend,
    TextRenderer.RenderText
      (TextRenderer.LoadFont boldGlyph
         (TextRenderer.LoadFont boxGlyph TextRenderer.newTextRenderer))
      F32.zero F32.zero F32.one (Vec3.mk F32.one F32.one F32.one) [167] = Some (ds, xend)
    /\ map TextRenderer.texture ds = [1071].
Proof. vm_compute. eexists _, _. split; reflexivity. Qed.

(** ** Holding the Enter key *)

(** X12: the Enter key is read by its level, and [processedKeys] is
    written but never read.  With Enter held down, a won game goes to
    the menu in one frame and, [Update] doing nothing in the menu,
    straight on to a new 0:0 match in the next: the flag the first
    frame sets in [processedKeys] does not stop the second. *)
Theorem held_enter_skips_menu (g : Game.t) (deltaTime1 deltaTime2 : F64.t) (G : Globals) :
  Game.state g = gameWin ->
  Game.pressed g Key.KeyEnter = true ->
  exists g1,
    Game.Update (Game.ProcessInput g deltaTime1) deltaTime1 G = Some (g1, G)
    /\ Game.state g1 = gameMenu
    /\ Game.processedKeys g1 = <[Z.to_nat Key.KeyEnter := true]> (Game.processedKeys g)
    /\ Game.paddle1Score g1 = Game.paddle1Score g
    /\ Game.paddle2Score g1 = Game.paddle2Score g
    /\ Game.state (Game.ProcessInput g1 deltaTime2) = gameActive
    /\ Game.paddle1Score (Game.ProcessInput g1 deltaTime2) = 0
    /\ Game.paddle2Score (Game.ProcessInput g1 deltaTime2) = 0
    /\ BallObject.position (Game.ball (Game.ProcessInput g1 deltaTime2))
       = Game.center (Game.width g) (Game.height g)
    /\ BallObject.velocity (Game.ball (Game.ProcessInput g1 deltaTime2))
       = initialBallVelocity.
Proof.
  intros Hstate Henter.
  destruct g as [s k pk w h pg ef tx p1 p2 b s1 s2]. cbn in Hstate. subst s.
  unfold Game.pressed in Henter. cbn [Game.keys] in Henter.
  assert (H1 : Game.ProcessInput (Game.mk gameWin k pk w h pg ef tx p1 p2 b s1 s2) deltaTime1
               = Game.mk gameMenu k (<[Z.to_nat Key.KeyEnter := true]> pk) w h pg ef tx
                   p1 p2 b s1 s2).
  { unfold Game.ProcessInput, Game.pressed. cbn [Game.state Game.keys]. rewrite Henter.
    reflexivity. }
  rewrite H1. eexists. unfold Game.Update. cbn [Game.state]. split; [reflexivity |].
  unfold Game.ProcessInput, Game.pressed. cbn [Game.state Game.keys]. rewrite Henter.
  cbn. repeat split; reflexivity.
Qed.

Lemma held_enter_skips_menu_witness :
  exists g1,
    Game.Update (Game.ProcessInput game_win_enter frame16) frame16 (initial_globals sevens)
    = Some (g1, initial_globals sevens)
    /\ Game.state g1 = gameMenu
    /\ Game.processedKeys g1
       = <[Z.to_nat Key.KeyEnter := true]> (Game.processedKeys game_win_enter)
    /\ Game.paddle1Score g1 = Game.paddle1Score game_win_enter
    /\ Game.paddle2Score g1 = Game.paddle2Score game_win_enter
    /\ Game.state (Game.ProcessInput g1 half_second) = gameActive
    /\ Game.paddle1Score (Game.ProcessInput g1 half_second) = 0
    /\ Game.paddle2Score (Game.ProcessInput g1 half_second) = 0
    /\ BallObject.position (Game.ball (Game.ProcessInput g1 half_second))
       = Game.center (Game.width game_win_enter) (Game.height game_win_enter)
    /\ BallObject.velocity (Game.ball (Game.ProcessInput g1 half_second))
       = initialBallVelocity.
Proof.
  apply (held_enter_skips_menu game_win_enter frame16 half_second (initial_globals sevens));
    reflexivity.
Defined.

(** ** Key events *)

(** X13: what a key event does to the key table.  For a key code in
    [0, 1024): after a press the key reads as down, after a press and a
    release as up, a repeat changes nothing, and no event touches another
    key.  An event with a key code outside [0, 1024) changes nothing at
    all. *)
Theorem KeyCallback_keys (w : Main.world) (key : Z) :
  (0 <= key < 1024 ->
   Game.pressed (Main.game (Main.KeyCallback w key Main.Press)) key = true
   /\ Game.pressed
        (Main.game (Main.KeyCallback (Main.KeyCallback w key Main.Press) key Main.Release)) key
      = false
   /\ Game.keys (Main.game (Main.KeyCallback w key Main.Repeat)) = Game.keys (Main.game w)
   /\ forall (k : Z) (action : Main.Action),
        k <> key ->
        Game.pressed (Main.game (Main.KeyCallback w key action)) k
        = Game.pressed (Main.game w) k)
  /\ (key < 0 \/ 1024 <= key ->
      forall action : Main.Action, Main.KeyCallback w key action = w).
Proof.
  split.
  - intros Hkey.
    assert (Hin : (0 <=? key) && (key <? 1024) = true).
    { apply andb_true_iff. split; [apply Z.leb_le | apply Z.ltb_lt]; lia. }
    unfold Main.KeyCallback, Game.pressed. cbn [Main.game Game.keys]. rewrite Hin.
    rewrite !lookup_insert_eq. repeat split; try reflexivity.
    intros k action Hk. destruct action; try reflexivity;
      rewrite lookup_insert_ne by congruence; reflexivity.
  - intros Hkey action.
    assert (Hout : (0 <=? key) && (key <? 1024) = false).
    { apply andb_false_iff. destruct Hkey; [left; apply Z.leb_gt | right; apply Z.ltb_ge]; lia. }
    assert (Hesc : (key =? Main.KeyEscape) = false).
    { apply Z.eqb_neq. unfold Main.KeyEscape. lia. }
    unfold Main.KeyCallback. rewrite Hout, Hesc.
    destruct w as [[s k pk wd h pg ef tx p1 p2 b s1 s2] c lf]. destruct action; reflexivity.
Qed.

Lemma KeyCallback_keys_witness :
  (Game.pressed (Main.game (Main.KeyCallback world0 Key.KeyW Main.Press)) Key.KeyW = true
   /\ Game.pressed
        (Main.game (Main.KeyCallback (Main.KeyCallback world0 Key.KeyW Main.Press)
                      Key.KeyW Main.Release)) Key.KeyW
      = false
   /\ Game.keys (Main.game (Main.KeyCallback world0 Key.KeyW Main.Repeat))
      = Game.keys (Main.game world0)
   /\ forall (k : Z) (action : Main.Action),
        k <> Key.KeyW ->
        Game.pressed (Main.game (Main.KeyCallback world0 Key.KeyW action)) k
        = Game.pressed (Main.game world0) k)
  /\ (forall action : Main.Action, Main.KeyCallback world0 (-1) action = world0).
Proof.
  split.
  - apply (proj1 (KeyCallback_keys world0 Key.KeyW)). unfold Key.KeyW. lia.
  - apply (proj2 (KeyCallback_keys world0 (-1))). lia.
Defined.

(** ** Leaving the loop *)

Lemma KeyCallback_close (w : Main.world) (key : Z) (action : Main.Action) :
  Main.shouldClose (Main.KeyCallback w key action)
  = Main.shouldClose w
    || (match action with Main.Press => true | _ => false end && (key =? Main.KeyEscape)).
Proof.
  unfold Main.KeyCallback. cbn [Main.shouldClose].
  destruct action; cbn; rewrite ?orb_false_r; try reflexivity.
  destruct (key =? Main.KeyEscape), (Main.shouldClose w); reflexivity.
Qed.

Lemma events_close (evs : list (Z * Main.Action)) :
  forall w,
    Main.shouldClose w = true \/ In (Main.KeyEscape, Main.Press) evs ->
    Main.shouldClose (fold_left (fun w e => Main.KeyCallback w (fst e) (snd e)) evs w) = true.
Proof.
  induction evs as [| [k a] evs IH]; intros w H; cbn [fold_left fst snd].
  - destruct H as [H | []]. exact H.
  - apply IH. rewrite KeyCallback_close. destruct H as [-> | [Heq | Hin]].
    + left. reflexivity.
    + left. injection Heq as -> ->. rewrite Z.eqb_refl. apply orb_true_r.
    + right. exact Hin.
Qed.

Lemma loop_closed (w : Main.world) (inputs : list Main.input) (G : Globals) :
  Main.shouldClose w = true -> Main.loop w inputs G = Some (w, G).
Proof. intros H. destruct inputs; cbn [Main.loop]; [| rewrite H]; reflexivity. Qed.

(** X14: the Escape key ends the loop at the end of the turn.  When the
    events of a turn hold a press of Escape, the turn still runs
    [ProcessInput], [Update] and [Draw], the world it leaves has the
    close flag set, and no later turn runs: the loop returns that world
    whatever inputs are left. *)
Theorem escape_ends_loop (w : Main.world) (i : Main.input) (rest : list Main.input)
    (G : Globals) :
  Main.shouldClose w = false ->
  In (Main.KeyEscape, Main.Press) (Main.events i) ->
  Main.loop w (i :: rest) G
  = match Main.frame w i G with
    | Some (r, G') => Some (fst r, G')
    | None => None
    end
  /\ forall r G', Main.frame w i G = Some (r, G') ->
       Main.shouldClose (fst r) = true /\ Main.loop (fst r) rest G' = Some (fst r, G').
Proof.
  intros Hopen Hesc.
  assert (Hclose : forall r G', Main.frame w i G = Some (r, G') ->
                                Main.shouldClose (fst r) = true).
  { intros r G'. unfold Main.frame, bind, lift_option, ret, panic.
    destruct (Game.Update _ _ G) as [[g1 G1] |]; [| discriminate].
    destruct (Game.Draw g1 _) as [calls |]; [| discriminate].
    intros Heq. injection Heq as <- <-. cbn [fst Main.shouldClose].
    apply events_close. right. exact Hesc. }
  split.
  - cbn [Main.loop]. rewrite Hopen. unfold bind.
    destruct (Main.frame w i G) as [[r G'] |] eqn:Hframe; [| reflexivity].
    apply loop_closed. exact (Hclose r G' eq_refl).
  - intros r G' Hframe. split; [exact (Hclose r G' Hframe) |].
    apply loop_closed. exact (Hclose r G' Hframe).
Qed.

Lemma escape_ends_loop_witness :
  Main.loop world0 [escape_turn; quiet_turn] (initial_globals sevens)
  = match Main.frame world0 escape_turn (initial_globals sevens) with
    | Some (r, G') => Some (fst r, G')
    | None => None
    end
  /\ forall r G', Main.frame world0 escape_turn (initial_globals sevens) = Some (r, G') ->
       Main.shouldClose (fst r) = true
       /\ Main.loop (fst r) [quiet_turn] G' = Some (fst r, G').
Proof.
  apply (escape_ends_loop world0 escape_turn [quiet_turn] (initial_globals sevens)).
  - reflexivity.
  - right. left. reflexivity.
Defined.

(** ** The texts of [Draw] *)

Lemma runes_app (s1 s2 : string) :
  Fmt.runes (s1 +:+ s2) = Fmt.runes s1 ++ Fmt.runes s2.
Proof.
  unfold Fmt.runes. induction s1 as [| c s1 IH]; [reflexivity |].
  change (String c s1 +:+ s2) with (String c (s1 +:+ s2)).
  cbn [String.list_ascii_of_string map app]. f_equal. exact IH.
Qed.

Lemma runes_uint_loaded (d : Decimal.uint) :
  Forall loaded (Fmt.runes (DecimalString.NilEmpty.string_of_uint d)).
Proof.
  unfold Fmt.runes, loaded, TextRenderer.lowChar, TextRenderer.highChar.
  induction d; cbn; constructor;
    first [assumption | split; apply Z.leb_le; reflexivity].
Qed.

Lemma runes_int_loaded (z : Z) : Forall loaded (Fmt.runes (Fmt.int z)).
Proof.
  unfold Fmt.int, DecimalString.NilZero.string_of_int, DecimalString.NilZero.string_of_uint.
  destruct (Z.to_int z) as [d | d].
  - destruct d; try apply runes_uint_loaded.
    unfold Fmt.runes, loaded, TextRenderer.lowChar, TextRenderer.highChar.
    cbn. repeat constructor; apply Z.leb_le; reflexivity.
  - assert (Hd : Forall loaded
                   (Fmt.runes match d with
                              | Decimal.Nil => "0"
                              | _ => DecimalString.NilEmpty.string_of_uint d
                              end)).
    { destruct d; try apply runes_uint_loaded.
      unfold Fmt.runes, loaded, TextRenderer.lowChar, TextRenderer.highChar.
      cbn. repeat constructor; apply Z.leb_le; reflexivity. }
    revert Hd. unfold Fmt.runes, loaded, TextRenderer.lowChar, TextRenderer.highChar.
    cbn. intros Hd. constructor; [split; apply Z.leb_le; reflexivity | exact Hd].
Qed.

Lemma runes_literal_loaded (s : string) :
  forallb (fun r => (32 <=? r) && (r <=? 127)) (Fmt.runes s) = true ->
  Forall loaded (Fmt.runes s).
Proof.
  intros H. apply Forall_forall. intros r Hr.
  rewrite forallb_forall in H. apply list_elem_of_In in Hr. specialize (H r Hr).
  apply andb_true_iff in H as [H1 H2]. apply Z.leb_le in H1, H2.
  unfold loaded, TextRenderer.lowChar, TextRenderer.highChar. lia.
Qed.

Lemma scoreText_loaded (g : Game.t) : Forall loaded (Fmt.runes (Game.scoreText g)).
Proof.
  unfold Game.scoreText. rewrite !runes_app. repeat apply Forall_app_2.
  - apply runes_int_loaded.
  - apply runes_literal_loaded. reflexivity.
  - apply runes_int_loaded.
Qed.

Lemma winText_loaded (g : Game.t) : Forall loaded (Fmt.runes (Game.winText g)).
Proof.
  unfold Game.winText. destruct (_ <? _); apply runes_literal_loaded; reflexivity.
Qed.

Lemma text_calls_loaded (g : Game.t) (x y scale : F32.t) (s : string) :
  length (TextRenderer.chars (Game.text g)) = 96%nat ->
  Forall loaded (Fmt.runes s) ->
  exists calls,
    Game.text_calls g x y scale s = Some calls /\ length calls = length (Fmt.runes s).
Proof.
  intros Hlen Hs. unfold Game.text_calls, TextRenderer.RenderText.
  destruct (render_loaded _ scale y _ Hlen Hs x) as (ds & xend & -> & Hds).
  eexists. split; [reflexivity |]. rewrite length_map. exact Hds.
Qed.

Lemma Draw_total (g : Game.t) (time : F32.t) :
  length (TextRenderer.chars (Game.text g)) = 96%nat ->
  exists calls, Game.Draw g time = Some calls.
Proof.
  intros Hlen. unfold Game.Draw.
  destruct (text_calls_loaded g (F32.sub (F32.of_int (Int.div (Game.width g) 2)) (F32.of_int 50))
              (F32.of_int 50) F32.one (Game.scoreText g) Hlen (scoreText_loaded g))
    as (score & -> & _).
  destruct (text_calls_loaded g (F32.of_int 290)
              (F32.sub (F32.of_int (Int.div (Game.height g) 2)) (F32.of_int 20))
              F32.c0_5 "Press ENTER to start" Hlen
              (runes_literal_loaded "Press ENTER to start" eq_refl))
    as (prompt & Hprompt & _).
  destruct (text_calls_loaded g (F32.of_int 330)
              (F32.sub (F32.of_int (Int.div (Game.height g) 2)) (F32.of_int 50))
              F32.c0_5 (Game.winText g) Hlen (winText_loaded g)) as (won & Hwon & _).
  destruct (Game.state g); rewrite ?Hprompt, ?Hwon; eexists; reflexivity.
Qed.

(** ** The ball in the court *)

Lemma SFleb_false_ltb (u v : spec_float) : SFleb u v = false -> SFltb u v = false.
Proof.
  unfold SFleb, SFltb. destruct (SFcompare u v) as [[] |]; intros H;
    first [reflexivity | discriminate H].
Qed.

Lemma Move_ball (b : BallObject.t) (deltaTime : F64.t) :
  ball_moving b ->
  ball_moving (BallObject.Move b deltaTime Main.windowWidth Main.windowHeight)
  /\ ball_between_walls (BallObject.Move b deltaTime Main.windowWidth Main.windowHeight).
Proof.
  destruct b as [[pos size vel col rot] stuck rad].
  unfold ball_moving, ball_between_walls, BallObject.size, BallObject.velocity,
    BallObject.position.
  cbn [BallObject.isStuck BallObject.obj GameObject.size GameObject.velocity].
  intros (-> & -> & Hvx & Hvy).
  unfold BallObject.Move. cbn [BallObject.isStuck negb BallObject.obj GameObject.size
    GameObject.velocity GameObject.color GameObject.rotation].
  set (p := BallObject.integrated _ deltaTime).
  assert (Hneg : F32.neg (Vec2.Y vel) = F32.of_int 300
                 \/ F32.neg (Vec2.Y vel) = F32.of_int (-300)).
  { destruct Hvy as [-> | ->]; [right | left]; reflexivity. }
  destruct (F32.leb (Vec2.Y p) F32.zero) eqn:Htop;
    [| destruct (F32.geb (F32.add (Vec2.Y p) (Vec2.Y (Vec2.of_ints 20 20)))
                   (F32.of_int Main.windowHeight)) eqn:Hbottom];
    cbn [BallObject.with_obj BallObject.isStuck BallObject.obj GameObject.size
         GameObject.velocity GameObject.position Vec2.setY Vec2.X Vec2.Y];
    (split; [split; [reflexivity |]; split; [reflexivity |]; split; assumption |]).
  - split; vm_compute; reflexivity.
  - split; vm_compute; reflexivity.
  - split; [apply SFleb_false_ltb; exact Htop | apply SFleb_false_ltb; exact Hbottom].
Qed.

Lemma turned_ball (b : BallObject.t) :
  ball_moving b -> ball_between_walls b ->
  ball_moving (turned b) /\ ball_between_walls (turned b).
Proof.
  destruct b as [[pos size vel col rot] stuck rad].
  unfold ball_moving, ball_between_walls, turned, BallObject.size, BallObject.velocity,
    BallObject.position.
  cbn [BallObject.isStuck BallObject.obj GameObject.size GameObject.velocity
       GameObject.position BallObject.with_obj GameObject.with_velocity Vec2.setX
       Vec2.X Vec2.Y].
  intros (-> & -> & Hvx & Hvy) Hwalls. split; [| exact Hwalls].
  split; [reflexivity |]. split; [reflexivity |]. split; [| exact Hvy].
  destruct Hvx as [-> | ->]; [right | left]; reflexivity.
Qed.

Lemma ball_in_play_ball (g : Game.t) (deltaTime : F64.t) :
  ball_moving (Game.ball g) -> court_ok g ->
  ball_moving (ball_in_play g deltaTime) /\ ball_between_walls (ball_in_play g deltaTime).
Proof.
  intros Hball (Hw & Hh & _). unfold ball_in_play. rewrite Hw, Hh.
  destruct (Move_ball (Game.ball g) deltaTime Hball) as [Hm Hwalls].
  destruct (collided _); cbn [Game.ball Game.set_ball];
    [apply turned_ball; assumption | split; assumption].
Qed.

Lemma served_ball (b : BallObject.t) (velocity : Vec2.t) :
  ball_moving b ->
  velocity = initialBallVelocity
  \/ velocity = Vec2.Mul initialBallVelocity (F32.of_int (-1)) ->
  let b' := BallObject.Reset b (Game.center Main.windowWidth Main.windowHeight) velocity in
  ball_moving b' /\ ball_between_walls b' /\ ball_between_goals b'.
Proof.
  destruct b as [[pos size vel col rot] stuck rad].
  unfold ball_moving, ball_between_walls, ball_between_goals, BallObject.Reset,
    BallObject.size, BallObject.velocity, BallObject.position.
  cbn [BallObject.isStuck BallObject.obj GameObject.size GameObject.velocity
       GameObject.position BallObject.with_obj].
  intros (-> & -> & _ & _) Hv.
  split; [| split; split; vm_compute; reflexivity].
  split; [reflexivity |]. split; [reflexivity |].
  destruct Hv as [-> | ->]; split; first [left; reflexivity | right; reflexivity].
Qed.

Lemma check_loss_ball (g : Game.t) :
  court_ok g -> ball_moving (Game.ball g) -> ball_between_walls (Game.ball g) ->
  ball_moving (Game.ball (Game.check_loss g))
  /\ ball_between_walls (Game.ball (Game.check_loss g))
  /\ ball_between_goals (Game.ball (Game.check_loss g)).
Proof.
  intros (Hw & Hh & _) Hball Hwalls. unfold Game.check_loss. rewrite Hw.
  destruct (F32.leb _ F32.zero) eqn:Hleft;
    [| destruct (F32.geb _ (F32.of_int Main.windowWidth)) eqn:Hright].
  - cbn [Game.ball Game.set_ball Game.set_paddle2Score Game.width Game.height].
    rewrite Hw, Hh. apply served_ball; auto.
  - cbn [Game.ball Game.set_ball Game.set_paddle1Score Game.width Game.height].
    rewrite Hw, Hh. apply served_ball; auto.
  - split; [exact Hball |]. split; [exact Hwalls |]. split; [exact Hleft | exact Hright].
Qed.

(** ** The score board *)

Lemma check_loss_scores (g : Game.t) :
  Game.paddle1Score g < maxScore -> Game.paddle2Score g < maxScore ->
  0 <= Game.paddle1Score g -> 0 <= Game.paddle2Score g ->
  0 <= Game.paddle1Score (Game.check_loss g) <= maxScore
  /\ 0 <= Game.paddle2Score (Game.check_loss g) <= maxScore
  /\ (Game.paddle1Score (Game.check_loss g) < maxScore
      \/ Game.paddle2Score (Game.check_loss g) < maxScore).
Proof.
  unfold maxScore. intros H1 H2 H3 H4. unfold Game.check_loss.
  destruct (F32.leb _ F32.zero); [| destruct (F32.geb _ _)];
    cbn [Game.paddle1Score Game.paddle2Score Game.set_ball Game.set_paddle1Score
         Game.set_paddle2Score];
    unfold Int.add; rewrite ?wrap_small
      by (unfold Int.in_range, Int.min_int, Int.max_int; lia); lia.
Qed.

Lemma check_win_scores_ok (g : Game.t) :
  Game.state g = gameActive ->
  0 <= Game.paddle1Score g <= maxScore -> 0 <= Game.paddle2Score g <= maxScore ->
  Game.paddle1Score g < maxScore \/ Game.paddle2Score g < maxScore ->
  scores_ok (Game.check_win g).
Proof.
  intros Hstate H1 H2 H3. unfold scores_ok, Game.check_win.
  destruct (Z.leb_spec maxScore (Game.paddle1Score g)) as [Ha | Ha];
    destruct (Z.leb_spec maxScore (Game.paddle2Score g)) as [Hb | Hb];
    cbn [orb Game.set_state Game.state Game.paddle1Score Game.paddle2Score];
    rewrite ?Hstate; repeat split; try lia; try discriminate; try assumption;
    intros _; lia.
Qed.

(** ** The shake timer *)

Lemma shake_step (shake : bool) (time deltaTime : F64.t) :
  (shake = true -> F64.leb time F64.zero = false) ->
  (F64.gtb time F64.zero = true -> shake = true) ->
  (shake_after shake time deltaTime = true ->
   F64.leb (timer_after time deltaTime) F64.zero = false)
  /\ (F64.gtb (timer_after time deltaTime) F64.zero = true ->
      shake_after shake time deltaTime = true).
Proof.
  intros Hon Hoff. unfold shake_after, timer_after.
  destruct (F64.gtb time F64.zero) eqn:Hpos.
  - destruct (F64.leb (F64.sub time deltaTime) F64.zero) eqn:Hout.
    + split; [intros H; discriminate H |]. intros Hgt. apply SFltb_not_leb in Hgt.
      unfold F64.leb in Hout. congruence.
    + split; [reflexivity |]. intros _. apply Hoff. reflexivity.
  - split; [exact Hon | intros H; congruence].
Qed.

(** ** One turn of the loop *)

Lemma Update_running (g : Game.t) (deltaTime : F64.t) (G : Globals) :
  running g G ->
  exists g' G', Game.Update g deltaTime G = Some (g', G') /\ running g' G'.
Proof.
  intros Hrun. destruct (Game.state g) eqn:Hstate.
  2, 3: exists g, G; unfold Game.Update; rewrite Hstate; split; [reflexivity | exact Hrun].
  destruct Hrun as (Hpool & Hamount & Htext & Hscores & Hball & _ & _ & Heff & Hcourt).
  destruct (Update_active_full g deltaTime G Hstate Hpool)
    as (g4 & G4 & Hupd & Hb4 & Hs4 & _ & _ & Hw4 & Hh4 & Htx4 & Hs1 & Hs2 & Hp1 & Hp2
        & Hpool4 & Hlen4 & Hchaos & Hconfuse & Hshake & Htimer).
  exists (Game.check_win (Game.check_loss g4)), G4. split; [exact Hupd |].
  destruct (check_win_frame (Game.check_loss g4))
    as (_ & _ & Hww & Hwh & Hwpg & Hwef & Hwtx & Hwp1 & Hwp2 & Hwb & _ & _).
  destruct (check_loss_frame g4)
    as (Hls & _ & _ & Hlw & Hlh & Hlpg & Hlef & Hltx & Hlp1 & Hlp2).
  assert (Hcourt4 : court_ok g4).
  { unfold court_ok. rewrite Hw4, Hh4, Hp1, Hp2. exact Hcourt. }
  destruct (ball_in_play_ball g deltaTime Hball Hcourt) as [Hmov Hwalls].
  rewrite <- Hb4 in Hmov, Hwalls.
  destruct Hscores as (H1 & H2 & _ & Hact & _). destruct (Hact Hstate) as [H1' H2'].
  unfold running. rewrite Hwpg, Hlpg, Hwtx, Hltx, Htx4, Hwb.
  split; [exact Hpool4 |].
  split; [rewrite (proj1 Hpool4), Hlen4, <- (proj1 Hpool); exact Hamount |].
  split; [exact Htext |]. split.
  { rewrite <- Hs1, <- Hs2 in *. apply check_win_scores_ok.
    - rewrite Hls. exact Hs4.
    - apply check_loss_scores; lia.
    - apply check_loss_scores; lia.
    - apply check_loss_scores; lia. }
  split; [apply check_loss_ball; assumption |].
  split; [apply check_loss_ball; assumption |].
  split; [apply check_loss_ball; assumption |].
  split.
  - unfold effects_ok. rewrite Hwef, Hlef, Hchaos, Hconfuse, Hshake, Htimer.
    destruct Heff as (Hc1 & Hc2 & Hon & Hoff).
    split; [exact Hc1 |]. split; [exact Hc2 |].
    apply shake_step; destruct (collided (moved g deltaTime)); cbn [orb];
      first [reflexivity | assumption | intros _; reflexivity].
  - unfold court_ok. rewrite Hww, Hwh, Hwp1, Hwp2, Hlw, Hlh, Hlp1, Hlp2. exact Hcourt4.
Qed.

Lemma paddle_up_column (p : GameObject.t) (deltaSpace : F32.t) :
  GameObject.size (Game.paddle_up p deltaSpace) = GameObject.size p
  /\ Vec2.X (GameObject.position (Game.paddle_up p deltaSpace))
     = Vec2.X (GameObject.position p).
Proof. unfold Game.paddle_up. destruct (F32.geb _ _); split; reflexivity. Qed.

Lemma paddle_down_column (g : Game.t) (p : GameObject.t) (deltaSpace : F32.t) :
  GameObject.size (Game.paddle_down g p deltaSpace) = GameObject.size p
  /\ Vec2.X (GameObject.position (Game.paddle_down g p deltaSpace))
     = Vec2.X (GameObject.position p).
Proof. unfold Game.paddle_down. destruct (F32.leb _ _); split; reflexivity. Qed.

Lemma ProcessInput_running (g : Game.t) (deltaTime : F64.t) (G : Globals) :
  running g G -> running (Game.ProcessInput g deltaTime) G.
Proof.
  intros Hrun. unfold Game.ProcessInput. destruct (Game.state g) eqn:Hstate.
  - (* a running match: the paddles move along their columns *)
    destruct g as [s k pk w h pg ef tx p1 p2 b s1 s2]. cbn [Game.state] in Hstate. subst s.
    unfold Game.pressed.
    destruct Hrun as (Hpool & Hamount & Htext & Hscores & Hball & Hwalls & Hgoals & Heff & Hcourt).
    cbn [Game.keys Game.paddle1 Game.paddle2 Game.set_paddle1 Game.set_paddle2 Game.height
         Game.state Game.processedKeys Game.width Game.particles Game.effects Game.text
         Game.ball Game.paddle1Score Game.paddle2Score].
    set (d := F32.mul paddleVelocity (F32.of_f64 deltaTime)). clearbody d.
    repeat (match goal with
            | |- context [default false (k !! ?key)] => destruct (default false (k !! key))
            end;
            cbn [Game.keys Game.paddle1 Game.paddle2 Game.set_paddle1 Game.set_paddle2
                 Game.height Game.state Game.processedKeys Game.width Game.particles
                 Game.effects Game.text Game.ball Game.paddle1Score Game.paddle2Score]);
      (split; [exact Hpool |]; split; [exact Hamount |]; split; [exact Htext |];
       split; [exact Hscores |];
       split; [exact Hball |]; split; [exact Hwalls |]; split; [exact Hgoals |];
       split; [exact Heff |]);
      unfold court_ok in *;
      cbn [Game.paddle1 Game.paddle2 Game.width Game.height Game.set_paddle1
           Game.set_paddle2] in *;
      repeat rewrite (proj1 (paddle_down_column _ _ _));
      repeat rewrite (proj2 (paddle_down_column _ _ _));
      repeat rewrite (proj1 (paddle_up_column _ _));
      repeat rewrite (proj2 (paddle_up_column _ _));
      exact Hcourt.
  - (* the menu *)
    destruct (Game.pressed g Key.KeyEnter); [| exact Hrun].
    destruct g as [s k pk w h pg ef tx p1 p2 b s1 s2].
    destruct Hrun as (Hpool & Hamount & Htext & Hscores & Hball & Hwalls & Hgoals & Heff & Hcourt).
    destruct Hcourt as (Hw & Hh & Hz1 & Hz2 & Hx1 & Hx2).
    cbn [Game.width Game.height Game.paddle1 Game.paddle2] in Hw, Hh, Hz1, Hz2, Hx1, Hx2.
    subst w h.
    unfold Game.Reset, running, scores_ok, effects_ok, court_ok, maxScore.
    cbn [Game.set_processedKeys Game.set_state Game.set_ball Game.set_paddle1
         Game.set_paddle2 Game.set_paddle1Score Game.set_paddle2Score
         Game.state Game.keys Game.processedKeys Game.width Game.height Game.particles
         Game.effects Game.text Game.paddle1 Game.paddle2 Game.ball Game.paddle1Score
         Game.paddle2Score].
    destruct (served_ball b initialBallVelocity Hball (or_introl eq_refl))
      as (Hb1 & Hb2 & Hb3).
    split; [exact Hpool |]. split; [exact Hamount |]. split; [exact Htext |]. split.
    { repeat split; try lia; intros H; discriminate H. }
    split; [exact Hb1 |]. split; [exact Hb2 |]. split; [exact Hb3 |].
    split; [exact Heff |].
    cbn [GameObject.Reset GameObject.size GameObject.position].
    repeat split; first [assumption | reflexivity].
  - (* after a win *)
    destruct (Game.pressed g Key.KeyEnter); [| exact Hrun].
    destruct g as [s k pk w h pg ef tx p1 p2 b s1 s2].
    destruct Hrun as (Hpool & Hamount & Htext & Hscores & Hball & Hwalls & Hgoals & Heff & Hcourt).
    unfold running, scores_ok, effects_ok, court_ok in *.
    cbn [Game.set_processedKeys Game.set_state
         Game.state Game.keys Game.processedKeys Game.width Game.height Game.particles
         Game.effects Game.text Game.paddle1 Game.paddle2 Game.ball Game.paddle1Score
         Game.paddle2Score] in *.
    split; [exact Hpool |]. split; [exact Hamount |]. split; [exact Htext |]. split.
    { destruct Hscores as (H1 & H2 & H3 & _ & _).
      split; [exact H1 |]. split; [exact H2 |]. split; [exact H3 |].
      split; intros H; discriminate H. }
    split; [exact Hball |]. split; [exact Hwalls |]. split; [exact Hgoals |].
    split; [exact Heff | exact Hcourt].
Qed.

Lemma KeyCallback_running (w : Main.world) (key : Z) (action : Main.Action) (G : Globals) :
  running (Main.game w) G -> running (Main.game (Main.KeyCallback w key action)) G.
Proof. destruct w as [[s k pk wd h pg ef tx p1 p2 b s1 s2] c lf]. exact (fun H => H). Qed.

Lemma events_running (evs : list (Z * Main.Action)) (G : Globals) :
  forall w,
    running (Main.game w) G ->
    running (Main.game (fold_left (fun w e => Main.KeyCallback w (fst e) (snd e)) evs w)) G.
Proof.
  induction evs as [| e evs IH]; intros w H; cbn [fold_left]; [exact H |].
  apply IH. apply KeyCallback_running. exact H.
Qed.

Lemma frame_running (w : Main.world) (i : Main.input) (G : Globals) :
  running (Main.game w) G ->
  exists w' calls G',
    Main.frame w i G = Some ((w', calls), G') /\ running (Main.game w') G'.
Proof.
  intros Hrun. unfold Main.frame.
  set (w1 := fold_left _ (Main.events i) _).
  assert (H1 : running (Main.game w1) G).
  { apply events_running. exact Hrun. }
  set (deltaTime := F64.sub (Main.currentFrame i) (Main.lastFrame w)).
  pose proof (ProcessInput_running (Main.game w1) deltaTime G H1) as H2.
  destruct (Update_running _ deltaTime G H2) as (g3 & G3 & Hupd & H3).
  destruct (Draw_total g3 (F32.of_f64 (Main.drawTime i)) (proj1 (proj2 (proj2 H3))))
    as [calls Hdraw].
  unfold bind. rewrite Hupd, Hdraw. cbn [lift_option ret].
  eexists _, _, _. split; [reflexivity | exact H3].
Qed.

Lemma loop_running (inputs : list Main.input) :
  forall (w : Main.world) (G : Globals),
    running (Main.game w) G ->
    exists w' G', Main.loop w inputs G = Some (w', G') /\ running (Main.game w') G'.
Proof.
  induction inputs as [| i rest IH]; intros w G Hrun; cbn [Main.loop].
  - exists w, G. split; [reflexivity | exact Hrun].
  - destruct (Main.shouldClose w); [exists w, G; split; [reflexivity | exact Hrun] |].
    destruct (frame_running w i G Hrun) as (w1 & calls & G1 & Hframe & H1).
    unfold bind. rewrite Hframe. cbn [fst]. apply IH. exact H1.
Qed.

Lemma start_running (makeGlyph : Z -> Character.t) (r : Rand.t) :
  running (Main.game (Main.start makeGlyph)) (initial_globals r).
Proof.
  unfold Main.start, Game.newGame. cbn [Main.game]. unfold running.
  cbn [Game.particles Game.text Game.ball].
  split; [split; [reflexivity | cbn; lia] |].
  split; [reflexivity |].
  split; [apply LoadFont_length |].
  split.
  { unfold scores_ok, maxScore. cbn [Game.paddle1Score Game.paddle2Score Game.state].
    repeat split; try lia; intros H; discriminate H. }
  split; [repeat split; first [reflexivity | left; reflexivity] |].
  split; [split; vm_compute; reflexivity |].
  split; [split; vm_compute; reflexivity |].
  split.
  - unfold effects_ok. cbn [Game.effects]. repeat split; intros H; discriminate H.
  - unfold court_ok. cbn [Game.width Game.height Game.paddle1 Game.paddle2].
    repeat split; reflexivity.
Qed.

(** ** The whole run *)

(** X15: [main] never panics in its loop.  From the game [newGame] and
    [Init] build on the 800 by 600 window, for every font, every
    sequence of random draws and every sequence of clock readings and
    key events, each turn of the loop runs to its end: the particle
    cursor stays inside the pool of 50 and every rune [Draw] renders has
    one of the 96 glyphs. *)
Theorem main_loop_never_panics (makeGlyph : Z -> Character.t) (r : Rand.t)
    (inputs : list Main.input) :
  exists w G,
    Main.loop (Main.start makeGlyph) inputs (initial_globals r) = Some (w, G)
    /\ pool_ok (Game.particles (Main.game w)) G
    /\ ParticleGenerator.amount (Game.particles (Main.game w)) = 50
    /\ length (TextRenderer.chars (Game.text (Main.game w))) = 96%nat
    /\ forall time, Game.Draw (Main.game w) time <> None.
Proof.
  destruct (loop_running inputs (Main.start makeGlyph) (initial_globals r)
              (start_running makeGlyph r)) as (w & G & Hloop & Hpool & Hamount & Htext & _).
  exists w, G. split; [exact Hloop |]. split; [exact Hpool |].
  split; [exact Hamount |]. split; [exact Htext |].
  intros time. destruct (Draw_total (Main.game w) time Htext) as [calls ->]. discriminate.
Qed.

(** X16: the score board of a run.  After any number of turns both
    scores lie in [0, maxScore] and at most one is at [maxScore]; while
    a match runs both are below [maxScore]; in state [Win] exactly one
    player has [maxScore] points and the text [Draw] shows names that
    player. *)
Theorem main_loop_scores (makeGlyph : Z -> Character.t) (r : Rand.t)
    (inputs : list Main.input) :
  exists w G,
    Main.loop (Main.start makeGlyph) inputs (initial_globals r) = Some (w, G)
    /\ scores_ok (Main.game w)
    /\ (Game.state (Main.game w) = gameWin ->
        (Game.paddle1Score (Main.game w) = maxScore
         /\ Game.paddle2Score (Main.game w) < maxScore
         /\ Game.winText (Main.game w) = "Player 1 Won!")
        \/ (Game.paddle2Score (Main.game w) = maxScore
            /\ Game.paddle1Score (Main.game w) < maxScore
            /\ Game.winText (Main.game w) = "Player 2 Won!")).
Proof.
  destruct (loop_running inputs (Main.start makeGlyph) (initial_globals r)
              (start_running makeGlyph r))
    as (w & G & Hloop & _ & _ & _ & Hscores & _).
  exists w, G. split; [exact Hloop |]. split; [exact Hscores |].
  intros Hwin. destruct Hscores as (H1 & H2 & H3 & _ & H5). specialize (H5 Hwin).
  unfold Game.winText.
  destruct (Z.ltb_spec (Game.paddle2Score (Main.game w)) (Game.paddle1Score (Main.game w)));
    [left | right]; (split; [lia |]); (split; [lia | reflexivity]).
Qed.

(** X17: the ball of a run.  After any number of turns the ball is free
    and 20 by 20, its velocity is 450 or -450 along x and 300 or -300
    along y, it is not above the top edge and does not reach below the
    bottom edge, and neither test of the loss condition holds of it: a
    ball that left the court was served again within the same turn. *)
Theorem main_loop_ball (makeGlyph : Z -> Character.t) (r : Rand.t)
    (inputs : list Main.input) :
  exists w G,
    Main.loop (Main.start makeGlyph) inputs (initial_globals r) = Some (w, G)
    /\ ball_moving (Game.ball (Main.game w))
    /\ ball_between_walls (Game.ball (Main.game w))
    /\ ball_between_goals (Game.ball (Main.game w)).
Proof.
  destruct (loop_running inputs (Main.start makeGlyph) (initial_globals r)
              (start_running makeGlyph r))
    as (w & G & Hloop & _ & _ & _ & _ & Hball & Hwalls & Hgoals & _).
  exists w, G. auto.
Qed.

(** X18: the effects of a run.  After any number of turns chaos and
    confuse are off, so the composite pass is drawn with both switches
    at 0; the shake is on whenever the shake timer is above zero and off
    whenever the timer is at or below zero. *)
Theorem main_loop_effects (makeGlyph : Z -> Character.t) (r : Rand.t)
    (inputs : list Main.input) :
  exists w G,
    Main.loop (Main.start makeGlyph) inputs (initial_globals r) = Some (w, G)
    /\ effects_ok (Main.game w) G
    /\ forall time,
         PostProcessor.Render (Game.effects (Main.game w)) time
         = [GL.PostRender time 0 0
              (PostProcessor.boolToInt32 (PostProcessor.shake (Game.effects (Main.game w))))].
Proof.
  destruct (loop_running inputs (Main.start makeGlyph) (initial_globals r)
              (start_running makeGlyph r))
    as (w & G & Hloop & _ & _ & _ & _ & _ & _ & _ & Heff & _).
  exists w, G. split; [exact Hloop |]. split; [exact Heff |].
  intros time. destruct Heff as (Hchaos & Hconfuse & _).
  unfold PostProcessor.Render. rewrite Hchaos, Hconfuse. reflexivity.
Qed.

(** X19: the court of a run.  After any number of turns the window is
    800 by 600 and each paddle has its size of 20 by 100 and stands in
    its column, x = 10 on the left and x = 770 on the right: a paddle
    only ever moves along y. *)
Theorem main_loop_court (makeGlyph : Z -> Character.t) (r : Rand.t)
    (inputs : list Main.input) :
  exists w G,
    Main.loop (Main.start makeGlyph) inputs (initial_globals r) = Some (w, G)
    /\ court_ok (Main.game w).
Proof.
  destruct (loop_running inputs (Main.start makeGlyph) (initial_globals r)
              (start_running makeGlyph r))
    as (w & G & Hloop & _ & _ & _ & _ & _ & _ & _ & _ & Hcourt).
  exists w, G. auto.
Qed.

(** Three turns from the start: the match runs, the left paddle has
    moved up twice by 8 pixels, three particles are alive and the cursor
    stands on the last of them. *)
Example three_turns :
  exists w G,
    Main.loop world0 [enter_turn; release_turn; next_turn] (initial_globals sevens)
    = Some (w, G)
    /\ Game.state (Main.game w) = gameActive
    /\ GameObject.position (Game.paddle1 (Main.game w)) = Vec2.of_ints 10 234
    /\ count_slots Particle.alive (ParticleGenerator.particles (Game.particles (Main.game w)))
       = 3%nat
    /\ lastUsedParticle G = 2
    /\ Main.lastFrame w = ms 48.
Proof. eexists _, _. split; [vm_compute; reflexivity |]. vm_compute. repeat split. Qed.

(** ** Slow frames *)

Section Subtraction.
Variables prec emax : Z.
Hypothesis Hprec : 0 < prec.

(** Subtracting a larger positive number of the format from a smaller
    one does not give a positive number, whatever the rounding does. *)
Lemma SFsub_pos_le_nonpos (mx my : positive) (ex ey : Z) :
  valid_binary prec emax (S754_finite false mx ex) = true ->
  valid_binary prec emax (S754_finite false my ey) = true ->
  SFleb (S754_finite false mx ex) (S754_finite false my ey) = true ->
  SFleb (SFsub prec emax (S754_finite false mx ex) (S754_finite false my ey))
    (S754_zero false) = true.
Proof.
  cbn [valid_binary]. unfold bounded, canonical_mantissa.
  intros Hx Hy Hle.
  apply andb_true_iff in Hx as [Hcx _]. apply andb_true_iff in Hy as [Hcy _].
  apply Z.eqb_eq in Hcx, Hcy.
  change (Zpos (digits2_pos mx)) with (Zdigits2 (Zpos mx)) in Hcx.
  change (Zpos (digits2_pos my)) with (Zdigits2 (Zpos my)) in Hcy.
  assert (Hord : ex < ey \/ (ex = ey /\ Zpos mx <= Zpos my)).
  { revert Hle. unfold SFleb, SFcompare.
    change (Pos.compare_cont Eq mx my) with (Pos.compare mx my).
    destruct (Z.compare_spec ex ey); [| left; assumption | discriminate].
    destruct (Pos.compare_spec mx my); intros Hc; try discriminate Hc; right; lia. }
  assert (Hdiff : Zpos mx * 2 ^ (ex - Z.min ex ey) - Zpos my * 2 ^ (ey - Z.min ex ey) <= 0).
  { destruct Hord as [Hlt | [-> Hm]].
    - replace (Z.min ex ey) with ex by lia. replace (ex - ex) with 0 by lia.
      rewrite Z.pow_0_r, Z.mul_1_r.
      pose proof (Zdigits2_bounds (Zpos mx) eq_refl) as [_ Bx].
      pose proof (Zdigits2_bounds (Zpos my) eq_refl) as [By _].
      pose proof (Zdigits2_pos (Zpos mx) eq_refl) as Hdx.
      assert (Hdx' : Zdigits2 (Zpos mx) <= prec) by (unfold fexp in Hcx; lia).
      assert (Hdy : Zdigits2 (Zpos my) = prec).
      { unfold fexp in Hcx, Hcy. lia. }
      rewrite Hdy in By.
      assert (H1 : Zpos mx < 2 ^ prec).
      { apply Z.lt_le_trans with (1 := Bx). apply Z.pow_le_mono_r; lia. }
      assert (H2 : 2 ^ 1 <= 2 ^ (ey - ex)) by (apply Z.pow_le_mono_r; lia).
      assert (H3 : 2 ^ prec = 2 ^ (prec - 1) * 2 ^ 1).
      { rewrite <- Z.pow_add_r by lia. f_equal. lia. }
      assert (H4 : 0 < 2 ^ (prec - 1)) by (apply Z.pow_pos_nonneg; lia).
      nia.
    - rewrite Z.min_id. replace (ey - ey) with 0 by lia. rewrite Z.pow_0_r. lia. }
  cbn [SFsub cond_Zopp]. rewrite !shl_align_fst by lia.
  destruct (Zpos mx * 2 ^ (ex - Z.min ex ey) - Zpos my * 2 ^ (ey - Z.min ex ey))
    as [| p | p]; cbn [binary_normalize].
  - reflexivity.
  - lia.
  - apply binary_round_neg_nonpos. exact Hprec.
Qed.

End Subtraction.

Lemma F64_c0_1_eq : F64.c0_1 = S754_finite false 7205759403792794 (-56).
Proof. vm_compute. reflexivity. Qed.

Lemma tenth_sub_nonpos (deltaTime : F64.t) :
  F64.valid deltaTime = true -> F64.leb F64.c0_1 deltaTime = true ->
  F64.leb (F64.sub F64.c0_1 deltaTime) F64.zero = true.
Proof.
  intros Hvalid Hle.
  assert (Hv : valid_binary F64.prec F64.emax F64.c0_1 = true) by (vm_compute; reflexivity).
  revert Hle Hv. rewrite F64_c0_1_eq. unfold F64.leb, F64.sub, F64.zero. intros Hle Hv.
  destruct deltaTime as [[] | [] | | [] md ed]; try discriminate Hle.
  - reflexivity.
  - apply SFsub_pos_le_nonpos; [unfold F64.prec; lia | exact Hv | exact Hvalid | exact Hle].
Qed.

(** X20: a slow frame hides the shake.  When the ball touches a paddle
    in an [Update] whose frame time is at least 0.1 s, the shake
    [DoCollisions] switches on is switched off again by the timer step
    of the same [Update]: the game comes out with the shake off and the
    timer at or below zero, so [Draw] never shows that shake. *)
Theorem slow_frame_hides_shake (g : Game.t) (deltaTime : F64.t) (G : Globals) :
  Game.state g = gameActive ->
  pool_ok (Game.particles g) G ->
  collided (moved g deltaTime) = true ->
  F64.valid deltaTime = true ->
  F64.leb F64.c0_1 deltaTime = true ->
  exists g' G',
    Game.Update g deltaTime G = Some (g', G')
    /\ PostProcessor.shake (Game.effects g') = false
    /\ shakeTime G' = F64.sub F64.c0_1 deltaTime
    /\ F64.leb (shakeTime G') F64.zero = true.
Proof.
  intros Hstate Hpool Hhit Hvalid Hslow.
  destruct (Update_active_full g deltaTime G Hstate Hpool)
    as (g4 & G4 & Hupd & _ & _ & _ & _ & _ & _ & _ & _ & _ & _ & _ & _ & _ & _ & _
        & Hshake & Htimer).
  exists (Game.check_win (Game.check_loss g4)), G4. split; [exact Hupd |].
  destruct (check_win_frame (Game.check_loss g4)) as (_ & _ & _ & _ & _ & -> & _).
  destruct (check_loss_frame g4) as (_ & _ & _ & _ & _ & _ & -> & _).
  rewrite Hhit in Hshake, Htimer.
  pose proof (tenth_sub_nonpos deltaTime Hvalid Hslow) as Hout.
  assert (Hpos : F64.gtb F64.c0_1 F64.zero = true) by (vm_compute; reflexivity).
  unfold shake_after in Hshake. unfold timer_after in Htimer.
  rewrite Hpos in Hshake, Htimer. rewrite Hout in Hshake.
  split; [exact Hshake |]. split; [exact Htimer |]. rewrite Htimer. exact Hout.
Qed.

Lemma slow_frame_hides_shake_witness :
  exists g' G',
    Game.Update game_approaching half_second (initial_globals sevens) = Some (g', G')
    /\ PostProcessor.shake (Game.effects g') = false
    /\ shakeTime G' = F64.sub F64.c0_1 half_second
    /\ F64.leb (shakeTime G') F64.zero = true.
Proof.
  apply (slow_frame_hides_shake game_approaching half_second (initial_globals sevens)).
  - reflexivity.
  - split; [reflexivity | cbn; lia].
  - vm_compute. reflexivity.
  - vm_compute. reflexivity.
  - vm_compute. reflexivity.
Defined.

(** On a frame of 16 ms the same touch leaves the shake on, with 84 ms
    on the timer. *)
Example fast_frame_shows_shake :
  exists g' G',
    Game.Update game_touching frame16 (initial_globals sevens) = Some (g', G')
    /\ PostProcessor.shake (Game.effects g') = true
    /\ F64.gtb (shakeTime G') F64.zero = true.
Proof. eexists _, _. split; [vm_compute; reflexivity |]. vm_compute. split; reflexivity. Qed.

(** ** The resource manager *)

Lemma LoadShader_Done (fs : ResourceManager.files) (r : ResourceManager.t)
    (v f name : string) (d : Driver.t) (s : Shader.t) (r' : ResourceManager.t)
    (d' : Driver.t) :
  ResourceManager.LoadShader fs r v f name d = Done (s, r', d') ->
  s = Shader.mk (Driver.programs d (Driver.created d))
  /\ r' = ResourceManager.mk (<[name := s]> (ResourceManager.shaders r))
  /\ d' = Driver.mk (Driver.compiles d) (Driver.programs d) (S (Driver.created d)).
Proof.
  unfold ResourceManager.LoadShader, ResourceManager.loadShaderFromFile,
    ResourceManager.readShaderFile, Shader.Compile.
  destruct (fs v); [| discriminate]. destruct (fs f); [| discriminate].
  destruct (Driver.compiles d Driver.VERTEX_SHADER _); [| discriminate].
  destruct (Driver.compiles d Driver.FRAGMENT_SHADER _); [| discriminate].
  intros H. injection H as <- <- <-. auto.
Qed.

Lemma LoadShaders_lookup (fs : ResourceManager.files) (loads : list (string * string * string)) :
  forall (r r' : ResourceManager.t) (d d' : Driver.t),
    ResourceManager.LoadShaders fs loads r d = Done (r', d') ->
    Driver.created d' = (Driver.created d + length loads)%nat
    /\ Driver.programs d' = Driver.programs d
    /\ forall name,
         ResourceManager.shaders r' !! name
         = match last_load name loads with
           | Some j => Some (Shader.mk (Driver.programs d (Driver.created d + j)))
           | None => ResourceManager.shaders r !! name
           end.
Proof.
  induction loads as [| [[v f] n] rest IH]; intros r r' d d' Hrun;
    cbn [ResourceManager.LoadShaders] in Hrun.
  - injection Hrun as <- <-. cbn [length last_load]. rewrite Nat.add_0_r. auto.
  - destruct (ResourceManager.LoadShader fs r v f n d) as [[[s r1] d1] | |] eqn:Hload;
      try discriminate Hrun.
    apply LoadShader_Done in Hload as (-> & -> & ->).
    destruct (IH _ _ _ _ Hrun) as (Hc & Hp & Hlook). cbn [Driver.created Driver.programs] in *.
    split; [cbn [length]; lia |]. split; [exact Hp |].
    intros name. rewrite Hlook. cbn [last_load snd ResourceManager.shaders].
    destruct (last_load name rest) as [j |].
    + do 3 f_equal. lia.
    + destruct (decide (n = name)) as [-> | Hne].
      * rewrite lookup_insert_eq, Nat.add_0_r. reflexivity.
      * rewrite lookup_insert_ne by exact Hne. reflexivity.
Qed.

(** X21: the last load under a name wins.  After a run of [LoadShader]
    calls on a new resource manager that all return, [GetShader] of a
    name gives the program the driver created for the last call under
    that name, and for a name no call used it gives a shader with
    program 0: an unknown name is neither an error nor a panic. *)
Theorem GetShader_after_loads (fs : ResourceManager.files)
    (loads : list (string * string * string)) (d d' : Driver.t) (r : ResourceManager.t) :
  ResourceManager.LoadShaders fs loads ResourceManager.newResourceManager d = Done (r, d') ->
  Driver.created d' = (Driver.created d + length loads)%nat
  /\ forall name,
       ResourceManager.GetShader r name
       = match last_load name loads with
         | Some j => Shader.mk (Driver.programs d (Driver.created d + j))
         | None => Shader.zero
         end.
Proof.
  intros Hrun. destruct (LoadShaders_lookup fs loads _ _ _ _ Hrun) as (Hc & _ & Hlook).
  split; [exact Hc |]. intros name. unfold ResourceManager.GetShader. rewrite Hlook.
  destruct (last_load name loads); [reflexivity |].
  cbn [ResourceManager.newResourceManager ResourceManager.shaders].
  rewrite lookup_empty. reflexivity.
Qed.

Lemma GetShader_after_loads_witness :
  exists r d',
    ResourceManager.LoadShaders two_lines loads_aba ResourceManager.newResourceManager driver3
    = Done (r, d')
    /\ Driver.created d' = (Driver.created driver3 + length loads_aba)%nat
    /\ forall name,
         ResourceManager.GetShader r name
         = match last_load name loads_aba with
           | Some j => Shader.mk (Driver.programs driver3 (Driver.created driver3 + j))
           | None => Shader.zero
           end.
Proof.
  eexists _, _. split; [reflexivity |].
  apply (GetShader_after_loads two_lines loads_aba driver3). reflexivity.
Defined.

(** After the three loads of [loads_aba] the name "sprite" holds the
    third program, 9, and not the first, 3; "text" holds the second, 6;
    a name never loaded holds 0. *)
Example GetShader_aba :
  exists r d',
    ResourceManager.LoadShaders two_lines loads_aba ResourceManager.newResourceManager driver3
    = Done (r, d')
    /\ Shader.ID (ResourceManager.GetShader r "sprite") = 9
    /\ Shader.ID (ResourceManager.GetShader r "text") = 6
    /\ Shader.ID (ResourceManager.GetShader r "particle") = 0.
Proof. eexists _, _. split; [reflexivity |]. vm_compute. repeat split. Qed.

Lemma elem_of_Clear (r : ResourceManager.t) (id : Z) :
  id ∈ ResourceManager.Clear r
  <-> exists name s, ResourceManager.shaders r !! name = Some s /\ Shader.ID s = id.
Proof.
  unfold ResourceManager.Clear. rewrite list_elem_of_fmap. split.
  - intros ([name s] & -> & Hin). apply elem_of_map_to_list in Hin. eauto.
  - intros (name & s & Hlook & <-). exists (name, s). split; [reflexivity |].
    apply elem_of_map_to_list. exact Hlook.
Qed.

(** X22: [Clear] deletes the programs the map holds and no others.
    After a run of [LoadShader] calls on a new resource manager, a
    program is handed to [gl.DeleteProgram] exactly when it was created
    by the last call under some name; [Clear] deletes no more programs
    than there were calls, so a program replaced by a later call under
    the same name is left to the driver unless it shares its ID. *)
Theorem Clear_deletes_last_loads (fs : ResourceManager.files)
    (loads : list (string * string * string)) (d d' : Driver.t) (r : ResourceManager.t) :
  ResourceManager.LoadShaders fs loads ResourceManager.newResourceManager d = Done (r, d') ->
  (forall id,
     id ∈ ResourceManager.Clear r
     <-> exists name j,
           last_load name loads = Some j
           /\ id = Driver.programs d (Driver.created d + j))
  /\ (length (ResourceManager.Clear r) <= length loads)%nat.
Proof.
  intros Hrun. destruct (LoadShaders_lookup fs loads _ _ _ _ Hrun) as (_ & _ & Hlook).
  cbn [ResourceManager.newResourceManager ResourceManager.shaders] in Hlook.
  split.
  - intros id. rewrite elem_of_Clear. split.
    + intros (name & s & Hs & <-). rewrite Hlook in Hs. exists name.
      destruct (last_load name loads) as [j |].
      * exists j. injection Hs as <-. auto.
      * rewrite lookup_empty in Hs. discriminate Hs.
    + intros (name & j & Hj & ->).
      exists name, (Shader.mk (Driver.programs d (Driver.created d + j))).
      rewrite Hlook, Hj. auto.
  - unfold ResourceManager.Clear. rewrite length_map.
    clear Hlook. revert d d' r Hrun.
    assert (Hgen : forall (r0 r : ResourceManager.t) (d d' : Driver.t),
               ResourceManager.LoadShaders fs loads r0 d = Done (r, d') ->
               (length (map_to_list (ResourceManager.shaders r))
                <= length (map_to_list (ResourceManager.shaders r0)) + length loads)%nat).
    { induction loads as [| [[v f] n] rest IH]; intros r0 r d d' Hrun;
        cbn [ResourceManager.LoadShaders] in Hrun.
      - injection Hrun as <- <-. cbn [length]. lia.
      - destruct (ResourceManager.LoadShader fs r0 v f n d) as [[[s r1] d1] | |] eqn:Hload;
          try discriminate Hrun.
        apply LoadShader_Done in Hload as (-> & -> & ->).
        specialize (IH _ _ _ _ Hrun). cbn [ResourceManager.shaders length] in *.
        rewrite !length_map_to_list in *.
        pose proof (map_size_insert n
                      (Shader.mk (Driver.programs d (Driver.created d)))
                      (ResourceManager.shaders r0)) as Hsize.
        destruct (ResourceManager.shaders r0 !! n); unfold id in Hsize; lia. }
    intros d d' r Hrun. specialize (Hgen _ _ _ _ Hrun).
    cbn [ResourceManager.newResourceManager ResourceManager.shaders] in Hgen.
    rewrite map_to_list_empty in Hgen. cbn [length] in Hgen. lia.
Qed.

Lemma Clear_deletes_last_loads_witness :
  exists r d',
    ResourceManager.LoadShaders two_lines loads_aba ResourceManager.newResourceManager driver3
    = Done (r, d')
    /\ (forall id,
          id ∈ ResourceManager.Clear r
          <-> exists name j,
                last_load name loads_aba = Some j
                /\ id = Driver.programs driver3 (Driver.created driver3 + j))
    /\ (length (ResourceManager.Clear r) <= length loads_aba)%nat.
Proof.
  eexists _, _. split; [reflexivity |].
  eapply (Clear_deletes_last_loads two_lines loads_aba driver3). reflexivity.
Defined.

(** The four loads of [Game.Init] use four names: each name holds the
    program of its own load, in the order of the calls. *)
Example Init_shaders (fs : ResourceManager.files) (d d' : Driver.t) (r : ResourceManager.t) :
  ResourceManager.LoadShaders fs ResourceManager.initLoads
    ResourceManager.newResourceManager d = Done (r, d') ->
  Shader.ID (ResourceManager.GetShader r "sprite") = Driver.programs d (Driver.created d)
  /\ Shader.ID (ResourceManager.GetShader r "particle")
     = Driver.programs d (Driver.created d + 1)
  /\ Shader.ID (ResourceManager.GetShader r "postprocessing")
     = Driver.programs d (Driver.created d + 2)
  /\ Shader.ID (ResourceManager.GetShader r "text")
     = Driver.programs d (Driver.created d + 3).
Proof.
  intros Hrun. destruct (LoadShaders_lookup fs _ _ _ _ _ Hrun) as (_ & _ & Hlook).
  unfold ResourceManager.GetShader. rewrite !Hlook.
  change (last_load "sprite" ResourceManager.initLoads) with (Some 0%nat).
  change (last_load "particle" ResourceManager.initLoads) with (Some 1%nat).
  change (last_load "postprocessing" ResourceManager.initLoads) with (Some 2%nat).
  change (last_load "text" ResourceManager.initLoads) with (Some 3%nat).
  cbn [default Shader.ID]. rewrite Nat.add_0_r. auto.
Qed.
